(** * A shallow embedding of the WebAssembly prototype's module layer

    The development follows [src/wasm/wasm-module.cc] (module decoder, globals
    layout, data segments, linker) and [src/wasm/asm-wasm-builder.cc] (the
    asm-to-wasm bytecode emitter).  Machine integers are [Z] with their
    wrap-around written out, byte buffers are lists of [Byte.byte], vectors
    updated by index are stdpp lists, and C++ [CHECK]s are explicit failures.

    The first part holds the embedding and the vocabulary of the statements,
    the second part the proofs. *)

From Stdlib Require Import ZArith List Lia Bool String DecimalString.
From stdpp Require Import base list option gmap strings.
Import ListNotations.
Open Scope Z_scope.
Set Warnings "-register-all".

(* ================================================================== *)
(** * Part I: the embedding                                            *)
(* ================================================================== *)

Abbreviation byte := Byte.byte.

#[global] Instance byte_inhabited : Inhabited byte := populate Byte.x00.

(** Conversions to the fixed-width C++ integer types. *)
Definition uint16 (z : Z) : Z := z mod 2 ^ 16.
Definition uint32 (z : Z) : Z := z mod 2 ^ 32.
Definition int32 (z : Z) : Z :=
  let m := z mod 2 ^ 32 in if m <? 2 ^ 31 then m else m - 2 ^ 32.

Definition byte_val (b : byte) : Z := Z.of_N (Byte.to_N b).
Definition mk_bytes (l : list N) : list byte :=
  map (fun n => default Byte.x00 (Byte.of_N n)) l.

(** [snprintf("%d", ...)] *)
Definition decimal (z : Z) : string := NilZero.string_of_int (Z.to_int z).

(** ** Types of wasm-opcodes.h and wasm-module.h *)

Module Wasm.

Inductive LocalType := kAstStmt | kAstI32 | kAstI64 | kAstF32 | kAstF64.

Inductive MemType :=
  kMemI8 | kMemU8 | kMemI16 | kMemU16 | kMemI32 | kMemU32
| kMemI64 | kMemU64 | kMemF32 | kMemF64.

(** Modelled from the spec: [WasmOpcodes::MemSize] is declared in
    wasm-opcodes.h, which is not among the sources.  The spec gives the byte
    sizes of the memory access types I8,U8,I16,U16,I32,U32,I64,U64,F32,F64 as
    1,1,2,2,4,4,8,8,4,8. *)
Definition MemSize (t : MemType) : Z :=
  match t with
  | kMemI8 | kMemU8 => 1
  | kMemI16 | kMemU16 => 2
  | kMemI32 | kMemU32 | kMemF32 => 4
  | kMemI64 | kMemU64 | kMemF64 => 8
  end.

Record FunctionSig := mkSig
  { sig_returns : list LocalType; sig_params : list LocalType }.

Record WasmGlobal := mkGlobal
  { name_offset : Z; type : MemType; offset : Z; exported : bool }.

Record WasmFunction := mkFunction
  { sig : FunctionSig;
    fn_name_offset : Z;
    code_start_offset : Z;
    code_end_offset : Z;
    local_int32_count : Z;
    local_int64_count : Z;
    local_float32_count : Z;
    local_float64_count : Z;
    fn_exported : bool;
    external : bool }.

Record WasmDataSegment := mkSegment
  { dest_addr : Z; source_offset : Z; source_size : Z; init : bool }.

Record WasmModule := mkModule
  { module_start : Z;
    module_end : Z;
    mem_size_log2 : Z;
    mem_export : bool;
    mem_external : bool;
    functions : list WasmFunction;
    globals : list WasmGlobal;
    data_segments : list WasmDataSegment }.

Record FunctionEnv := mkEnv
  { env_module : option WasmModule;
    env_sig : FunctionSig;
    env_local_int32_count : Z;
    env_local_int64_count : Z;
    env_local_float32_count : Z;
    env_local_float64_count : Z }.

End Wasm.

(** ** Globals layout: AllocateGlobalsOffsets, ComputeGlobalsSize, AddGlobal *)

Module Globals.
Import Wasm.

Definition set_offset (g : WasmGlobal) (o : Z) : WasmGlobal :=
  {| name_offset := name_offset g; type := type g; offset := o; exported := exported g |}.

(** [(offset + size - 1) & ~(size - 1)] on a [uint32_t offset] and a [byte size]. *)
Definition align (offset size : Z) : Z :=
  Z.land (uint32 (offset + size - 1)) (uint32 (Z.lnot (size - 1))).

(** The [for (WasmGlobal& global : *globals)] loop of AllocateGlobalsOffsets. *)
Fixpoint allocate_loop (offset : Z) (globals : list WasmGlobal) : Z * list WasmGlobal :=
  match globals with
  | [] => (offset, [])
  | global :: rest =>
      let size := MemSize (type global) in
      let offset := align offset size in
      let global := set_offset global offset in
      let offset := uint32 (offset + size) in
      let '(final, rest) := allocate_loop offset rest in
      (final, global :: rest)
  end.

(** [globals] is a pointer to a vector; [None] is the null pointer. *)
Definition AllocateGlobalsOffsets (globals : option (list WasmGlobal))
  : Z * option (list WasmGlobal) :=
  match globals with
  | None => (0, None)
  | Some gs => let '(offset, gs') := allocate_loop 0 gs in (offset, Some gs')
  end.

Definition size_step (globals_size : Z) (global : WasmGlobal) : Z :=
  let end_ := uint32 (offset global + MemSize (type global)) in
  if globals_size <? end_ then end_ else globals_size.

Definition ComputeGlobalsSize (globals : option (list WasmGlobal)) : Z :=
  match globals with
  | None => 0
  | Some gs => fold_left size_step gs 0
  end.

(** [TestingModule::AddGlobal] of the test harness: the same rounding, one
    global at a time, with a [CHECK_LT] against [kMaxGlobalsSize]. *)
Definition kMaxGlobalsSize : Z := 128.

Record TestingModule := mkTesting
  { tm_globals : list WasmGlobal; global_offset : Z }.

Definition AddGlobal (mem_type : MemType) (m : TestingModule)
  : option (WasmGlobal * TestingModule) :=
  let size := MemSize mem_type in
  let global_offset := align (global_offset m) size in
  let global := mkGlobal 0 mem_type global_offset false in
  let global_offset := uint32 (global_offset + size) in
  if global_offset <? kMaxGlobalsSize then
    Some (global, {| tm_globals := tm_globals m ++ [global]; global_offset := global_offset |})
  else None.

Fixpoint AddGlobals (mem_types : list MemType) (m : TestingModule) : option TestingModule :=
  match mem_types with
  | [] => Some m
  | t :: ts => '(_, m') ← AddGlobal t m; AddGlobals ts m'
  end.

(** *** Vocabulary of the statements *)

(** The least multiple of [size] that is at least [running]. *)
Definition round_up (running size : Z) : Z := (running + size - 1) / size * size.

(** The single pass in the spec's words: round the running offset up to the
    global's size, assign it, then advance by that size. *)
Fixpoint assign_offsets (running : Z) (globals : list WasmGlobal) : Z * list WasmGlobal :=
  match globals with
  | [] => (running, [])
  | g :: rest =>
      let rounded := round_up running (MemSize (type g)) in
      let '(final, rest') := assign_offsets (rounded + MemSize (type g)) rest in
      (final, set_offset g rounded :: rest')
  end.

Definition global_end (g : WasmGlobal) : Z := offset g + MemSize (type g).

Definition declare (t : MemType) : WasmGlobal := mkGlobal 0 t 0 false.

Definition sample_globals : list WasmGlobal :=
  [declare kMemI8; declare kMemI32; declare kMemU16; declare kMemF64].

End Globals.

(** ** Data segments: LoadDataSegments *)

Module DataSegments.
Import Wasm.

(** Outcome of code guarded by [CHECK] macros: a failed [CHECK] aborts the
    process. *)
Inductive Checked (A : Type) : Type :=
| Passed (a : A)
| Fatal (check : string).
Arguments Passed {A} a.
Arguments Fatal {A} check.

Definition is_Passed {A} (c : Checked A) : bool :=
  match c with Passed _ => true | Fatal _ => false end.

(** [memcpy(mem_addr + dest, module_start + src, n)].  Reading past the module
    bytes or writing past the buffer is undefined in C++; here such a read
    gives 0 and such a write is dropped, and the statements about copied bytes
    assume the ranges in bounds. *)
Definition memcpy (mem : list byte) (dest : Z) (module_bytes : list byte) (src n : Z)
  : list byte :=
  fold_left (fun m (i : nat) =>
               <[Z.to_nat (dest + Z.of_nat i) := module_bytes !!! Z.to_nat (src + Z.of_nat i)]> m)
            (seq 0 (Z.to_nat n)) mem.

(** [dest_addr] and [source_size] are [uint32_t], so their sum wraps;
    [mem_size] is a [size_t]. *)
Fixpoint LoadDataSegments (module_bytes : list byte) (data_segments : list WasmDataSegment)
    (mem : list byte) (mem_size : Z) : Checked (list byte) :=
  match data_segments with
  | [] => Passed mem
  | segment :: rest =>
      if negb (init segment) then LoadDataSegments module_bytes rest mem mem_size
      else if negb (dest_addr segment <? mem_size) then
        Fatal "CHECK_LT(segment.dest_addr, mem_size)"
      else if negb (source_size segment <? mem_size) then
        Fatal "CHECK_LT(segment.source_size, mem_size)"
      else if negb (uint32 (dest_addr segment + source_size segment) <? mem_size) then
        Fatal "CHECK_LT(segment.dest_addr + segment.source_size, mem_size)"
      else
        LoadDataSegments module_bytes rest
          (memcpy mem (dest_addr segment) module_bytes (source_offset segment)
                  (source_size segment))
          mem_size
  end.

(** *** Vocabulary of the statements *)

(** The three checks as one boolean. *)
Definition segment_passes (mem_size : Z) (s : WasmDataSegment) : bool :=
  negb (init s) ||
  ((dest_addr s <? mem_size) && (source_size s <? mem_size) &&
   (uint32 (dest_addr s + source_size s) <? mem_size)).

(** What the spec asks of an initialised segment. *)
Definition segment_fits (mem_size : Z) (s : WasmDataSegment) : Prop :=
  0 <= dest_addr s /\ 0 <= source_size s /\ dest_addr s + source_size s <= mem_size.

(** A 16-byte memory ([mem_size_log2 = 4]) and a module of 24 bytes. *)
Definition sample_module_bytes : list byte :=
  mk_bytes [4; 0; 0; 0; 0; 0; 1; 0; 17; 34; 51; 68; 85; 102; 119; 136;
            8; 0; 0; 0; 8; 0; 0; 0]%N.
Definition zero_memory : list byte := replicate 16 Byte.x00.
Definition exact_fit_segment : WasmDataSegment := mkSegment 8 8 8 true.
Definition inner_segment : WasmDataSegment := mkSegment 8 8 7 true.

End DataSegments.

(** ** The module decoder: class ModuleDecoder *)

Module Decoder.
Import Wasm.

Inductive ErrorCode := kSuccess | kError.

(** [Result<T>] without its value: the error code, the start of the decoded
    range, the offending pc, the optional point of interest and the message
    ([None] is the null pointer). *)
Record Result := mkResult
  { error_code : ErrorCode;
    start : Z;
    error_pc : option Z;
    error_pt : option Z;
    error_msg : option string }.

(** The decoder: the bytes at [start_], and the three pointers, as addresses. *)
Record ModuleDecoder := mkDecoder
  { bytes : list byte;
    start_ : Z;
    cur_ : Z;
    end_ : Z;
    result_ : Result }.

Definition ok (d : ModuleDecoder) : bool :=
  match error_code (result_ d) with kSuccess => true | kError => false end.
Definition failed (d : ModuleDecoder) : bool := negb (ok d).

Definition set_cur (d : ModuleDecoder) (p : Z) : ModuleDecoder :=
  {| bytes := bytes d; start_ := start_ d; cur_ := p; end_ := end_ d; result_ := result_ d |}.
Definition set_result (d : ModuleDecoder) (r : Result) : ModuleDecoder :=
  {| bytes := bytes d; start_ := start_ d; cur_ := cur_ d; end_ := end_ d; result_ := r |}.

(** [*p] for a pointer [p] into the module bytes. *)
Definition deref (d : ModuleDecoder) (p : Z) : Z :=
  byte_val (bytes d !!! Z.to_nat (p - start_ d)).

(** Member functions read and write the decoder: a state monad. *)
Record M (A : Type) : Type := Act { run : ModuleDecoder -> A * ModuleDecoder }.
Arguments Act {A} _.
Arguments run {A} _ _.

#[global] Instance M_ret : MRet M := fun A (a : A) => Act (fun d => (a, d)).
#[global] Instance M_bind : MBind M := fun A B (k : A -> M B) (m : M A) =>
  Act (fun d => let '(a, d') := run m d in run (k a) d').

Definition get_cur : M Z := Act (fun d => (cur_ d, d)).
Definition get_start : M Z := Act (fun d => (start_ d, d)).
Definition get_end : M Z := Act (fun d => (end_ d, d)).
Definition get_bytes : M (list byte) := Act (fun d => (bytes d, d)).
Definition get_result : M Result := Act (fun d => (result_ d, d)).
Definition put_result (r : Result) : M unit := Act (fun d => (tt, set_result d r)).
Definition advance (n : Z) : M unit := Act (fun d => (tt, set_cur d (cur_ d + n))).
Definition rewind_to (p : Z) : M unit := Act (fun d => (tt, set_cur d p)).
Definition peek (i : Z) : M Z := Act (fun d => (deref d (cur_ d + i), d)).
Definition extent : M Z := Act (fun d => (end_ d - start_ d, d)).
Definition is_failed : M bool := Act (fun d => (failed d, d)).
Definition is_ok : M bool := Act (fun d => (ok d, d)).
Definition out_of_range (size : Z) : M bool :=
  Act (fun d => ((cur_ d <? start_ d) || (end_ d <? cur_ d + size), d)).

Definition error (pc : Z) (msg : string) (pt : option Z) : M unit := Act (fun d =>
  if ok d then
    (tt, set_result d {| error_code := kError; start := start (result_ d);
                         error_pc := Some pc; error_pt := pt; error_msg := Some msg |})
  else (tt, d)).

Definition checkAvailable (size : Z) : M bool :=
  short ← out_of_range size;
  if (short : bool) then
    pc ← get_cur;
    error pc ("expected " ++ decimal size ++ " bytes, fell off end") None;;
    mret false
  else mret true.

Definition u8 : M Z :=
  avail ← checkAvailable 1;
  if (avail : bool) then
    b ← peek 0; advance 1;; mret b
  else mret 0.

Definition u16 : M Z :=
  avail ← checkAvailable 2;
  if (avail : bool) then
    b0 ← peek 0;
    b1 ← peek 1;
    advance 2;;
    mret (Z.lor (uint16 (Z.shiftl b1 8)) b0)
  else mret 0.

Definition u32 : M Z :=
  avail ← checkAvailable 4;
  if (avail : bool) then
    b0 ← peek 0;
    b1 ← peek 1;
    b2 ← peek 2;
    b3 ← peek 3;
    advance 4;;
    mret (Z.lor (Z.lor (Z.lor (uint32 (Z.shiftl b3 24)) (uint32 (Z.shiftl b2 16)))
                       (uint32 (Z.shiftl b1 8))) b0)
  else mret 0.

Definition offset : M Z :=
  offset ← u32;
  len ← extent;
  if len <? offset then
    pc ← get_cur;
    error (pc - 4) "offset out of bounds of module" None;;
    mret offset
  else mret offset.

Definition string_ : M Z := offset.

(** What the decoder takes from elsewhere: the numbering of the enumerations
    (wasm-opcodes.h), the function verifier (decoder.cc) and the printer of a
    result, none of which is among the sources; and the characters found
    through a pointer into a destroyed temporary string, which C++ leaves
    undefined. *)
Class WasmExternals := {
  LocalType_of_byte : Z -> option LocalType;
  MemType_of_byte : Z -> option MemType;
  VerifyWasmCode : FunctionEnv -> list byte -> Z -> Z -> Z -> Result;
  print_result : Result -> string;
  dangling_c_str : string -> string
}.

(** [strncpy(buffer, raw, len); buffer[len - 1] = 0] with [len = strlen(raw)]:
    the last character is lost.  (For an empty [raw] the write is out of
    bounds; the message is empty here.) *)
Definition drop_last (s : string) : string :=
  String.substring 0 (String.length s - 1) s.

Definition nonzero (z : Z) : bool := negb (z =? 0).

Section Decoding.
Context `{WasmExternals}.

Definition local_type : M LocalType :=
  val ← u8;
  match LocalType_of_byte val with
  | Some t => mret t
  | None => pc ← get_cur; error (pc - 1) "invalid local type" None;; mret kAstStmt
  end.

Definition mem_type : M MemType :=
  val ← u8;
  match MemType_of_byte val with
  | Some t => mret t
  | None => pc ← get_cur; error (pc - 1) "invalid memory type" None;; mret kMemI32
  end.

Fixpoint sig_params_loop (count : nat) : M (list LocalType) :=
  match count with
  | O => mret []
  | S count =>
      param ← local_type;
      (if param is kAstStmt
       then pc ← get_cur; error (pc - 1) "invalid void parameter type" None
       else mret tt);;
      rest ← sig_params_loop count;
      mret (param :: rest)
  end.

Definition sig : M FunctionSig :=
  count ← u8;
  ret ← local_type;
  params ← sig_params_loop (Z.to_nat count);
  mret (mkSig (if ret is kAstStmt then [] else [ret]) params).

Definition DecodeGlobalInModule : M WasmGlobal :=
  name_offset ← string_;
  type ← mem_type;
  exported ← u8;
  mret (mkGlobal name_offset type 0 (nonzero exported)).

Definition DecodeFunctionInModule : M WasmFunction :=
  sig ← sig;
  name_offset ← string_;
  code_start_offset ← offset;
  code_end_offset ← offset;
  local_int32_count ← u16;
  local_int64_count ← u16;
  local_float32_count ← u16;
  local_float64_count ← u16;
  exported ← u8;
  external ← u8;
  mret (mkFunction sig name_offset code_start_offset code_end_offset
          local_int32_count local_int64_count local_float32_count local_float64_count
          (nonzero exported) (nonzero external)).

Definition DecodeDataSegmentInModule : M WasmDataSegment :=
  dest_addr ← u32;
  source_offset ← offset;
  source_size ← u32;
  init ← u8;
  mret (mkSegment dest_addr source_offset source_size (nonzero init)).

Definition VerifyFunctionBody (func_num : Z) (menv : option WasmModule)
    (function : WasmFunction) : M unit :=
  let fenv := mkEnv menv (Wasm.sig function)
                (local_int32_count function) (local_int64_count function)
                (local_float32_count function) (local_float64_count function) in
  mem ← get_bytes;
  base ← get_start;
  let result := VerifyWasmCode fenv mem base (base + code_start_offset function)
                               (base + code_end_offset function) in
  match error_code result with
  | kSuccess => mret tt
  | kError =>
      let str := ("in function #" ++ decimal func_num ++ ": " ++ print_result result)%string in
      let raw := dangling_c_str str in
      put_result {| error_code := error_code result; start := start result;
                    error_pc := error_pc result; error_pt := error_pt result;
                    error_msg := Some (drop_last raw) |}
  end.

Fixpoint decode_globals (count : nat) (globals : list WasmGlobal) : M (list WasmGlobal) :=
  match count with
  | O => mret globals
  | S count =>
      stop ← is_failed;
      if (stop : bool) then mret globals
      else global ← DecodeGlobalInModule; decode_globals count (globals ++ [global])
  end.

Fixpoint decode_functions (verify_functions : bool) (module : WasmModule)
    (count : nat) (i : Z) (functions : list WasmFunction) : M (list WasmFunction) :=
  match count with
  | O => mret functions
  | S count =>
      stop ← is_failed;
      if (stop : bool) then mret functions
      else
        function ← DecodeFunctionInModule;
        let functions := functions ++ [function] in
        good ← is_ok;
        (if (good : bool) && verify_functions then
           if external function then mret tt
           else VerifyFunctionBody i
                  (Some (mkModule (module_start module) (module_end module)
                           (mem_size_log2 module) (mem_export module) (mem_external module)
                           functions (globals module) []))
                  function
         else mret tt);;
        decode_functions verify_functions module count (i + 1) functions
  end.

Fixpoint decode_segments (count : nat) (segments : list WasmDataSegment)
  : M (list WasmDataSegment) :=
  match count with
  | O => mret segments
  | S count =>
      stop ← is_failed;
      if (stop : bool) then mret segments
      else segment ← DecodeDataSegmentInModule; decode_segments count (segments ++ [segment])
  end.

(** Returns the module that was filled in and the [ModuleResult]. *)
Definition DecodeModule (verify_functions : bool) : M (WasmModule * Result) :=
  base ← get_start;
  limit ← get_end;
  rewind_to base;;
  mem_size_log2 ← u8;
  mem_export ← u8;
  globals_count ← u16;
  functions_count ← u16;
  data_segments_count ← u16;
  globals ← decode_globals (Z.to_nat globals_count) [];
  let module := mkModule base limit mem_size_log2 (nonzero mem_export) false [] globals [] in
  functions ← decode_functions verify_functions module (Z.to_nat functions_count) 0 [];
  segments ← decode_segments (Z.to_nat data_segments_count) [];
  result ← get_result;
  mret (mkModule base limit mem_size_log2 (nonzero mem_export) false
          functions globals segments, result).

Definition DecodeSingleFunction (module_env : option WasmModule) : M (WasmFunction * Result) :=
  base ← get_start;
  limit ← get_end;
  rewind_to base;;
  sig ← sig;
  pc ← get_cur;
  let code_start_offset := uint32 (pc + 8 - base) in
  let code_end_offset := uint32 (limit - base) in
  local_int32_count ← u16;
  local_int64_count ← u16;
  local_float32_count ← u16;
  local_float64_count ← u16;
  let function :=
    mkFunction sig 0 code_start_offset code_end_offset
      local_int32_count local_int64_count local_float32_count local_float64_count
      false false in
  good ← is_ok;
  (if (good : bool) then VerifyFunctionBody 0 module_env function else mret tt);;
  result ← get_result;
  mret (function, result).

Definition DecodeFunctionSignature (start : Z) : M (option FunctionSig) :=
  rewind_to start;;
  result ← sig;
  good ← is_ok;
  mret (if (good : bool) then Some result else None).

End Decoding.

(** The constructor [ModuleDecoder(zone, module_start, module_end)] over the
    bytes found at [module_start]. *)
Definition new_ModuleDecoder (mem : list byte) (module_start module_end : Z) : ModuleDecoder :=
  let d := {| bytes := mem; start_ := module_start; cur_ := module_start; end_ := module_end;
              result_ := {| error_code := kSuccess; start := module_start;
                            error_pc := None; error_pt := None; error_msg := None |} |} in
  if module_end <? module_start then
    let d := (run (error module_start "end is less than start" None) d).2 in
    {| bytes := bytes d; start_ := start_ d; cur_ := cur_ d; end_ := start_ d;
       result_ := result_ d |}
  else d.

(** *** Vocabulary of the statements *)

(** Fewer than [size] bytes remain (the test of [checkAvailable]). *)
Definition short (d : ModuleDecoder) (size : Z) : bool :=
  (cur_ d <? start_ d) || (end_ d <? cur_ d + size).

(** The decoder after a read that fell off the end: the first error is kept. *)
Definition truncated (size : Z) (d : ModuleDecoder) : ModuleDecoder :=
  if ok d then
    set_result d {| error_code := kError; start := start (result_ d);
                    error_pc := Some (cur_ d); error_pt := None;
                    error_msg := Some ("expected " ++ decimal size ++ " bytes, fell off end")%string |}
  else d.

(** The little-endian value of the [width] bytes at [p]. *)
Fixpoint little_endian (d : ModuleDecoder) (p : Z) (width : nat) : Z :=
  match width with
  | O => 0
  | S w => deref d p + 256 * little_endian d (p + 1) w
  end.

(** An operation that leaves a latched error as it is. *)
Definition first_error_wins {A} (m : M A) : Prop :=
  forall d, failed d = true -> result_ (run m d).2 = result_ d.

(** An entry point that reports the decoder's latch. *)
Definition reports_latch {A} (m : M (A * Result)) : Prop :=
  forall d, (run m d).1.2 = result_ (run m d).2.

(** The reading of the spec under which every read gives 0 and consumes
    nothing once an error is latched. *)
Definition reads_short_circuit (d : ModuleDecoder) : Prop :=
  failed d = true ->
  run u8 d = (0, d) /\ run u16 d = (0, d) /\ run u32 d = (0, d).

(** Eight bytes at address 1000 whose first offset field is out of bounds, and
    the decoder after reading that field. *)
Definition bad_offset_bytes : list byte := mk_bytes [255; 255; 255; 255; 42; 1; 0; 0]%N.
Definition after_bad_offset : ModuleDecoder :=
  (run offset (new_ModuleDecoder bad_offset_bytes 1000 1008)).2.

(** Eight bytes whose first offset field equals the length of the module. *)
Definition full_offset_bytes : list byte := mk_bytes [8; 0; 0; 0; 9; 0; 0; 0]%N.
Definition at_full_offset : ModuleDecoder := new_ModuleDecoder full_offset_bytes 1000 1008.

(** A numbering of the enumerations and a verifier that accepts everything,
    to run the decoder on concrete bytes. *)
Definition sample_externals : WasmExternals :=
  {| LocalType_of_byte v :=
       [kAstStmt; kAstI32; kAstI64; kAstF32; kAstF64] !! Z.to_nat v;
     MemType_of_byte v :=
       [kMemI8; kMemU8; kMemI16; kMemU16; kMemI32; kMemU32;
        kMemI64; kMemU64; kMemF32; kMemF64] !! Z.to_nat v;
     VerifyWasmCode _ _ base _ _ := mkResult kSuccess base None None None;
     print_result _ := ""%string;
     dangling_c_str str := str |}.

(** A module of one global whose name offset is out of bounds and whose
    memory type byte is invalid as well. *)
Definition two_errors_bytes : list byte :=
  mk_bytes [4; 0; 1; 0; 0; 0; 0; 0; 255; 255; 255; 255; 99; 0]%N.
Definition two_errors_decoder : ModuleDecoder := new_ModuleDecoder two_errors_bytes 0 14.

End Decoder.


(** ** The decoder step by step *)

Module DecoderSteps.
Import Wasm Decoder.

(** The accesses to the decoder's fields out of which its member functions
    are made. *)
Inductive Access : Type -> Type :=
| GetCur : Access Z
| GetStart : Access Z
| GetEnd : Access Z
| GetBytes : Access (list byte)
| GetResult : Access Result
| PutResult (r : Result) : Access unit
| Advance (n : Z) : Access unit
| RewindTo (p : Z) : Access unit
| Peek (i : Z) : Access Z
| Extent : Access Z
| IsFailed : Access bool
| IsOk : Access bool
| OutOfRange (size : Z) : Access bool
| Error (pc : Z) (msg : string) (pt : option Z) : Access unit.

Definition access {A} (a : Access A) : M A :=
  match a with
  | GetCur => get_cur
  | GetStart => get_start
  | GetEnd => get_end
  | GetBytes => get_bytes
  | GetResult => get_result
  | PutResult r => put_result r
  | Advance n => advance n
  | RewindTo p => rewind_to p
  | Peek i => peek i
  | Extent => extent
  | IsFailed => is_failed
  | IsOk => is_ok
  | OutOfRange size => out_of_range size
  | Error pc msg pt => error pc msg pt
  end.

(** A member function as the sequence of its accesses. *)
Inductive Script : Type -> Type :=
| Ret {A} (a : A) : Script A
| Do {A} (a : Access A) : Script A
| Seq {A B} (p : Script A) (k : A -> Script B) : Script B.

#[global] Instance Script_ret : MRet Script := @Ret.
#[global] Instance Script_bind : MBind Script := fun A B k p => Seq p k.

Fixpoint perform {A} (p : Script A) : M A :=
  match p with
  | Ret a => mret a
  | Do a => access a
  | Seq p k => perform p ≫= fun a => perform (k a)
  end.

(** The decoder after each access of a run, in order. *)
Fixpoint states {A} (p : Script A) (d : ModuleDecoder) : list ModuleDecoder :=
  match p with
  | Ret _ => []
  | Do a => [(run (access a) d).2]
  | Seq p k => states p d ++ states (k (run (perform p) d).1) (run (perform p) d).2
  end.

(** The member functions, access by access. *)
Definition checkAvailable_steps (size : Z) : Script bool :=
  short ← Do (OutOfRange size);
  if (short : bool) then
    pc ← Do GetCur;
    Do (Error pc ("expected " ++ decimal size ++ " bytes, fell off end") None);;
    mret false
  else mret true.

Definition u8_steps : Script Z :=
  avail ← checkAvailable_steps 1;
  if (avail : bool) then
    b ← Do (Peek 0); Do (Advance 1);; mret b
  else mret 0.

Definition u16_steps : Script Z :=
  avail ← checkAvailable_steps 2;
  if (avail : bool) then
    b0 ← Do (Peek 0);
    b1 ← Do (Peek 1);
    Do (Advance 2);;
    mret (Z.lor (uint16 (Z.shiftl b1 8)) b0)
  else mret 0.

Definition u32_steps : Script Z :=
  avail ← checkAvailable_steps 4;
  if (avail : bool) then
    b0 ← Do (Peek 0);
    b1 ← Do (Peek 1);
    b2 ← Do (Peek 2);
    b3 ← Do (Peek 3);
    Do (Advance 4);;
    mret (Z.lor (Z.lor (Z.lor (uint32 (Z.shiftl b3 24)) (uint32 (Z.shiftl b2 16)))
                       (uint32 (Z.shiftl b1 8))) b0)
  else mret 0.

Definition offset_steps : Script Z :=
  offset ← u32_steps;
  len ← Do Extent;
  if len <? offset then
    pc ← Do GetCur;
    Do (Error (pc - 4) "offset out of bounds of module" None);;
    mret offset
  else mret offset.

Definition string_steps : Script Z := offset_steps.

Section Decoding.
Context `{WasmExternals}.

Definition local_type_steps : Script LocalType :=
  val ← u8_steps;
  match LocalType_of_byte val with
  | Some t => mret t
  | None => pc ← Do GetCur; Do (Error (pc - 1) "invalid local type" None);; mret kAstStmt
  end.

Definition mem_type_steps : Script MemType :=
  val ← u8_steps;
  match MemType_of_byte val with
  | Some t => mret t
  | None => pc ← Do GetCur; Do (Error (pc - 1) "invalid memory type" None);; mret kMemI32
  end.

Fixpoint sig_params_loop_steps (count : nat) : Script (list LocalType) :=
  match count with
  | O => mret []
  | S count =>
      param ← local_type_steps;
      (if param is kAstStmt
       then pc ← Do GetCur; Do (Error (pc - 1) "invalid void parameter type" None)
       else mret tt);;
      rest ← sig_params_loop_steps count;
      mret (param :: rest)
  end.

Definition sig_steps : Script FunctionSig :=
  count ← u8_steps;
  ret ← local_type_steps;
  params ← sig_params_loop_steps (Z.to_nat count);
  mret (mkSig (if ret is kAstStmt then [] else [ret]) params).

Definition DecodeGlobalInModule_steps : Script WasmGlobal :=
  name_offset ← string_steps;
  type ← mem_type_steps;
  exported ← u8_steps;
  mret (mkGlobal name_offset type 0 (nonzero exported)).

Definition DecodeFunctionInModule_steps : Script WasmFunction :=
  sig ← sig_steps;
  name_offset ← string_steps;
  code_start_offset ← offset_steps;
  code_end_offset ← offset_steps;
  local_int32_count ← u16_steps;
  local_int64_count ← u16_steps;
  local_float32_count ← u16_steps;
  local_float64_count ← u16_steps;
  exported ← u8_steps;
  external ← u8_steps;
  mret (mkFunction sig name_offset code_start_offset code_end_offset
          local_int32_count local_int64_count local_float32_count local_float64_count
          (nonzero exported) (nonzero external)).

Definition DecodeDataSegmentInModule_steps : Script WasmDataSegment :=
  dest_addr ← u32_steps;
  source_offset ← offset_steps;
  source_size ← u32_steps;
  init ← u8_steps;
  mret (mkSegment dest_addr source_offset source_size (nonzero init)).

Definition VerifyFunctionBody_steps (func_num : Z) (menv : option WasmModule)
    (function : WasmFunction) : Script unit :=
  let fenv := mkEnv menv (Wasm.sig function)
                (local_int32_count function) (local_int64_count function)
                (local_float32_count function) (local_float64_count function) in
  mem ← Do GetBytes;
  base ← Do GetStart;
  let result := VerifyWasmCode fenv mem base (base + code_start_offset function)
                               (base + code_end_offset function) in
  match error_code result with
  | kSuccess => mret tt
  | kError =>
      let str := ("in function #" ++ decimal func_num ++ ": " ++ print_result result)%string in
      let raw := dangling_c_str str in
      Do (PutResult {| error_code := error_code result; start := start result;
                       error_pc := error_pc result; error_pt := error_pt result;
                       error_msg := Some (drop_last raw) |})
  end.

Fixpoint decode_globals_steps (count : nat) (globals : list WasmGlobal)
  : Script (list WasmGlobal) :=
  match count with
  | O => mret globals
  | S count =>
      stop ← Do IsFailed;
      if (stop : bool) then mret globals
      else global ← DecodeGlobalInModule_steps; decode_globals_steps count (globals ++ [global])
  end.

Fixpoint decode_functions_steps (verify_functions : bool) (module : WasmModule)
    (count : nat) (i : Z) (functions : list WasmFunction) : Script (list WasmFunction) :=
  match count with
  | O => mret functions
  | S count =>
      stop ← Do IsFailed;
      if (stop : bool) then mret functions
      else
        function ← DecodeFunctionInModule_steps;
        let functions := functions ++ [function] in
        good ← Do IsOk;
        (if (good : bool) && verify_functions then
           if external function then mret tt
           else VerifyFunctionBody_steps i
                  (Some (mkModule (module_start module) (module_end module)
                           (mem_size_log2 module) (mem_export module) (mem_external module)
                           functions (globals module) []))
                  function
         else mret tt);;
        decode_functions_steps verify_functions module count (i + 1) functions
  end.

Fixpoint decode_segments_steps (count : nat) (segments : list WasmDataSegment)
  : Script (list WasmDataSegment) :=
  match count with
  | O => mret segments
  | S count =>
      stop ← Do IsFailed;
      if (stop : bool) then mret segments
      else segment ← DecodeDataSegmentInModule_steps;
           decode_segments_steps count (segments ++ [segment])
  end.

Definition DecodeModule_steps (verify_functions : bool) : Script (WasmModule * Result) :=
  base ← Do GetStart;
  limit ← Do GetEnd;
  Do (RewindTo base);;
  mem_size_log2 ← u8_steps;
  mem_export ← u8_steps;
  globals_count ← u16_steps;
  functions_count ← u16_steps;
  data_segments_count ← u16_steps;
  globals ← decode_globals_steps (Z.to_nat globals_count) [];
  let module := mkModule base limit mem_size_log2 (nonzero mem_export) false [] globals [] in
  functions ← decode_functions_steps verify_functions module (Z.to_nat functions_count) 0 [];
  segments ← decode_segments_steps (Z.to_nat data_segments_count) [];
  result ← Do GetResult;
  mret (mkModule base limit mem_size_log2 (nonzero mem_export) false
          functions globals segments, result).

Definition DecodeSingleFunction_steps (module_env : option WasmModule)
  : Script (WasmFunction * Result) :=
  base ← Do GetStart;
  limit ← Do GetEnd;
  Do (RewindTo base);;
  sig ← sig_steps;
  pc ← Do GetCur;
  let code_start_offset := uint32 (pc + 8 - base) in
  let code_end_offset := uint32 (limit - base) in
  local_int32_count ← u16_steps;
  local_int64_count ← u16_steps;
  local_float32_count ← u16_steps;
  local_float64_count ← u16_steps;
  let function :=
    mkFunction sig 0 code_start_offset code_end_offset
      local_int32_count local_int64_count local_float32_count local_float64_count
      false false in
  good ← Do IsOk;
  (if (good : bool) then VerifyFunctionBody_steps 0 module_env function else mret tt);;
  result ← Do GetResult;
  mret (function, result).

Definition DecodeFunctionSignature_steps (start : Z) : Script (option FunctionSig) :=
  Do (RewindTo start);;
  result ← sig_steps;
  good ← Do IsOk;
  mret (if (good : bool) then Some result else None).

End Decoding.

(** [m] and [m'] do the same from every decoder. *)
Definition same {A} (m m' : M A) : Prop := forall d, run m d = run m' d.

(** Each decoder of the list keeps the error of the one before. *)
Fixpoint chain (d : ModuleDecoder) (l : list ModuleDecoder) : Prop :=
  match l with
  | [] => True
  | d1 :: l => (failed d = true -> result_ d1 = result_ d) /\ chain d1 l
  end.

(** In the run of [p] from [d] every access keeps a latched error. *)
Definition steady {A} (p : Script A) (d : ModuleDecoder) : Prop := chain d (states p d).
Definition steady_all {A} (p : Script A) : Prop := forall d, steady p d.

(** The one access that writes the result whatever is latched. *)
Definition writes_result {A} (a : Access A) : bool :=
  match a with PutResult _ => true | _ => false end.

(** A verifier that rejects every function body at its first byte. *)
Definition strict_externals : WasmExternals :=
  {| LocalType_of_byte v :=
       [kAstStmt; kAstI32; kAstI64; kAstF32; kAstF64] !! Z.to_nat v;
     MemType_of_byte v :=
       [kMemI8; kMemU8; kMemI16; kMemU16; kMemI32; kMemU32;
        kMemI64; kMemU64; kMemF32; kMemF64] !! Z.to_nat v;
     VerifyWasmCode _ _ base code_start _ :=
       mkResult kError base (Some code_start) None (Some "rejected"%string);
     print_result _ := "rejected"%string;
     dangling_c_str str := str |}.

(** A module of one function of signature ()->I32 with two bytes of code at
    offset 32, at address 0; and the same module with the name offset of the
    function out of bounds. *)
Definition one_function_bytes (name_offset : N) : list byte :=
  mk_bytes [4; 0; 0; 0; 1; 0; 0; 0;
            0; 1; name_offset; name_offset; name_offset; name_offset;
            32; 0; 0; 0; 34; 0; 0; 0;
            0; 0; 0; 0; 0; 0; 0; 0; 0; 0;
            9; 9]%N.
Definition good_name_decoder : ModuleDecoder := new_ModuleDecoder (one_function_bytes 0) 0 34.
Definition bad_name_decoder : ModuleDecoder := new_ModuleDecoder (one_function_bytes 255) 0 34.

End DecoderSteps.

(** ** The linker: class WasmLinker *)

Module Linker.

Inductive CodeKind := WASM_FUNCTION | OTHER_KIND.

(** One relocation of a code object: its mode and the code object its target
    address lies in ([Code::GetCodeFromTargetAddress] and [instruction_start]
    are inverse to each other). *)
Record RelocInfo := mkReloc { rmode : Z; target_address : nat }.

Record Code := mkCode
  { kind : CodeKind;
    constant_pool_offset : Z;
    relocation_info : list RelocInfo }.

(** A [Handle<Code>]: the address of a code object in the code space, or null. *)
Abbreviation Handle := (option nat).

(** The isolate's code space together with the linker's two vectors.  Code
    objects are shared: a relocation names its target by address. *)
Record World := mkWorld
  { code_space : list Code;
    placeholder_code_ : list Handle;
    function_code_ : list Handle }.

(** [RelocInfo::kCodeTargetMask] as the set of modes the iterator visits, and
    [RelocInfo::IsCodeTarget]; both belong to the engine's assembler. *)
Class RelocModes := {
  kCodeTargetMask : Z -> bool;
  IsCodeTarget : Z -> bool
}.

Definition kPlaceholderMarker : Z := 1000000000.

(** [WasmLinker(isolate, size)] *)
Definition new_WasmLinker (heap : list Code) (size : nat) : World :=
  {| code_space := heap;
     placeholder_code_ := replicate size None;
     function_code_ := replicate size None |}.

(** [factory()->NewCode(...)]: a fresh code object at the next free address. *)
Definition NewCode (obj : Code) (w : World) : nat * World :=
  (length (code_space w),
   {| code_space := code_space w ++ [obj];
      placeholder_code_ := placeholder_code_ w;
      function_code_ := function_code_ w |}).

(** The placeholder: eight zero bytes of fake instructions, no relocations,
    and [index + kPlaceholderMarker] (a [uint32_t] sum stored in an [int]). *)
Definition placeholder_object (index : Z) : Code :=
  {| kind := WASM_FUNCTION;
     constant_pool_offset := int32 (uint32 (index + kPlaceholderMarker));
     relocation_info := [] |}.

(** An index outside the vector trips the [DCHECK]: [None]. *)
Definition GetFunctionCode (index : Z) (w : World) : option (Handle * World) :=
  match function_code_ w !! Z.to_nat index with
  | None => None
  | Some (Some code) => Some (Some code, w)
  | Some None =>
      let '(code, w) := NewCode (placeholder_object index) w in
      Some (Some code,
            {| code_space := code_space w;
               placeholder_code_ := <[Z.to_nat index := Some code]> (placeholder_code_ w);
               function_code_ := <[Z.to_nat index := Some code]> (function_code_ w) |})
  end.

Definition Finish (index : Z) (code : Handle) (w : World) : option World :=
  if decide (Z.to_nat index < length (function_code_ w))%nat then
    Some {| code_space := code_space w;
            placeholder_code_ := placeholder_code_ w;
            function_code_ := <[Z.to_nat index := code]> (function_code_ w) |}
  else None.

(** [target->kind() == Code::WASM_FUNCTION &&
     target->constant_pool_offset() >= kPlaceholderMarker] *)
Definition is_placeholder (target : Code) : bool :=
  match kind target with
  | WASM_FUNCTION => kPlaceholderMarker <=? constant_pool_offset target
  | OTHER_KIND => false
  end.

(** [set_target_address] writes into the code object under iteration. *)
Definition store_relocs (w : World) (code : nat) (relocs : list RelocInfo) : World :=
  {| code_space :=
       alter (fun obj => {| kind := kind obj;
                            constant_pool_offset := constant_pool_offset obj;
                            relocation_info := relocs |}) code (code_space w);
     placeholder_code_ := placeholder_code_ w;
     function_code_ := function_code_ w |}.

Section Linking.
Context `{RelocModes}.

(** The body of the relocation loop for one entry: the entry afterwards and
    whether it was patched.  [None] is a failed [CHECK] or a null or dangling
    handle. *)
Definition link_target (w : World) (rinfo : RelocInfo) : option (RelocInfo * bool) :=
  if kCodeTargetMask (rmode rinfo) && IsCodeTarget (rmode rinfo) then
    target ← code_space w !! target_address rinfo;
    if is_placeholder target then
      let index := uint32 (constant_pool_offset target - kPlaceholderMarker) in
      if index <? Z.of_nat (length (function_code_ w)) then
        new_target ← mjoin (function_code_ w !! Z.to_nat index);
        if decide (target_address rinfo = new_target) then Some (rinfo, false)
        else
          placeholder ← mjoin (placeholder_code_ w !! Z.to_nat index);
          if decide (placeholder = target_address rinfo) then
            Some ({| rmode := rmode rinfo; target_address := new_target |}, true)
          else None
      else None
    else Some (rinfo, false)
  else Some (rinfo, false).

(** The iterator over the relocations of [code]: the entries already visited
    and those still pending.  Each patch is stored into the code space before
    the next entry is looked at. *)
Fixpoint link_relocs (code : nat) (visited pending : list RelocInfo)
    (modified : bool) (w : World) : option (World * bool) :=
  match pending with
  | [] => Some (w, modified)
  | rinfo :: pending =>
      '(rinfo', patched) ← link_target w rinfo;
      let w' := if (patched : bool)
                then store_relocs w code (visited ++ rinfo' :: pending) else w in
      link_relocs code (visited ++ [rinfo']) pending (modified || patched) w'
  end.

(** Returns the world and [modified], the flag that decides the flush of the
    instruction cache. *)
Definition LinkFunction (code : Handle) (w : World) : option (World * bool) :=
  code ← code;
  obj ← code_space w !! code;
  link_relocs code [] (relocation_info obj) false w.

Fixpoint Link_from (i : nat) (remaining : nat) (w : World) : option (World * list bool) :=
  match remaining with
  | O => Some (w, [])
  | S remaining =>
      code ← function_code_ w !! i;
      '(w', modified) ← LinkFunction code w;
      '(w'', flushed) ← Link_from (S i) remaining w';
      Some (w'', modified :: flushed)
  end.

(** Returns the world and, per function, whether its code was modified. *)
Definition Link (w : World) : option (World * list bool) :=
  Link_from 0 (length (function_code_ w)) w.

End Linking.

(** Calls a compilation makes on the linker. *)
Inductive LinkerCall :=
| CallGetFunctionCode (index : Z)
| CallFinish (index : Z) (code : Handle).

Definition run_call (c : LinkerCall) (w : World) : option World :=
  match c with
  | CallGetFunctionCode index => snd <$> GetFunctionCode index w
  | CallFinish index code => Finish index code w
  end.

Fixpoint run_calls (cs : list LinkerCall) (w : World) : option World :=
  match cs with
  | [] => Some w
  | c :: cs => w' ← run_call c w; run_calls cs w'
  end.

(** *** Vocabulary of the statements *)

Definition finishes (index : Z) (c : LinkerCall) : Prop :=
  match c with
  | CallFinish j _ => Z.to_nat j = Z.to_nat index
  | CallGetFunctionCode _ => False
  end.

(** What [Link] never changes: the two vectors and, per code object, its
    kind and its constant pool offset. *)
Definition marking (obj : Code) : CodeKind * Z := (kind obj, constant_pool_offset obj).

Definition same_static (w w' : World) : Prop :=
  function_code_ w' = function_code_ w /\
  placeholder_code_ w' = placeholder_code_ w /\
  forall c, marking <$> code_space w' !! c = marking <$> code_space w !! c.

(** Code handed to [Finish] comes from the code generator: wherever the
    function table no longer holds the function's placeholder, it holds a
    code object that does not carry the placeholder marker. *)
Definition finished_code_is_real (w : World) : Prop :=
  forall (i : nat) c,
    function_code_ w !! i = Some (Some c) ->
    placeholder_code_ w !! i <> Some (Some c) ->
    exists obj, code_space w !! c = Some obj /\ is_placeholder obj = false.

(** Every function has been compiled and finished. *)
Definition all_compiled (w : World) : Prop :=
  forall (i : nat) h,
    function_code_ w !! i = Some h ->
    exists c obj, h = Some c /\ code_space w !! c = Some obj /\ is_placeholder obj = false.

Definition relocs_of (w : World) (code : nat) : option (list RelocInfo) :=
  relocation_info <$> code_space w !! code.

Section LinkVocabulary.
Context `{RelocModes}.

(** A relocation the loop leaves alone. *)
Definition stable (w : World) (r : RelocInfo) : Prop := link_target w r = Some (r, false).

(** A direct-call relocation whose target is no placeholder. *)
Definition resolved (w : World) (r : RelocInfo) : Prop :=
  kCodeTargetMask (rmode r) && IsCodeTarget (rmode r) = true ->
  exists obj, code_space w !! target_address r = Some obj /\ is_placeholder obj = false.

Definition settled (w : World) (r : RelocInfo) : Prop :=
  stable w r /\ (all_compiled w -> resolved w r).

Definition code_settled (w : World) (code : nat) : Prop :=
  exists relocs, relocs_of w code = Some relocs /\ Forall (settled w) relocs.

End LinkVocabulary.

(** Two functions compiled in order: function 0 calls function 1 before it
    exists, through a placeholder (code object 0). *)
Definition sample_modes : RelocModes :=
  {| kCodeTargetMask m := m <=? 1; IsCodeTarget m := m <=? 1 |}.

Definition caller_code : Code :=
  {| kind := WASM_FUNCTION; constant_pool_offset := 0;
     relocation_info := [mkReloc 0 0; mkReloc 5 0] |}.
Definition callee_code : Code :=
  {| kind := WASM_FUNCTION; constant_pool_offset := 0; relocation_info := [] |}.

Definition compiled_world : World :=
  let w := new_WasmLinker [] 2 in
  let w := default w (snd <$> GetFunctionCode 1 w) in
  let '(c0, w) := NewCode caller_code w in
  let w := default w (Finish 0 (Some c0) w) in
  let '(c1, w) := NewCode callee_code w in
  default w (Finish 1 (Some c1) w).

Definition linked_world : World :=
  {| code_space :=
       [placeholder_object 1;
        {| kind := WASM_FUNCTION; constant_pool_offset := 0;
           relocation_info := [mkReloc 0 2; mkReloc 5 0] |};
        callee_code];
     placeholder_code_ := [None; Some 0%nat];
     function_code_ := [Some 1%nat; Some 2%nat] |}.

End Linker.

(** ** The function bytecode, read from the spec *)

Module Bytecode.

(** Modelled from the spec: the function verifier and the code generator
    (decoder.cc, tf-builder.cc) are not among the sources.  Section 4.4 of the
    spec gives the grammar of a function body; this is its I32 fragment without
    memory, globals and calls. *)
Inductive Unop := BoolNot.
Inductive Binop := I32Add | I32Sub | I32Mul | I32Eq | I32Lt.

Inductive Expr :=
| I8 (x : Z)
| I32 (x : Z)
| GetLocal (i : nat)
| Unary (op : Unop) (e : Expr)
| Binary (op : Binop) (a b : Expr)
| Ternary (c t e : Expr)
| Comma (a b : Expr).

Inductive Stmt :=
| Block (body : list Stmt)
| IfStmt (cond : Expr) (then_ : Stmt)
| IfThen (cond : Expr) (then_ else_ : Stmt)
| Loop (body : list Stmt)
| Switch (key : Expr) (cases : list Stmt)
| SwitchNf (key : Expr) (cases : list Stmt)
| Return (value : option Expr)
| SetLocal (i : nat) (value : Expr)
| Break (depth : nat)
| Continue (depth : nat)
| Nop
| ExprStmt (e : Expr).

(** Modelled from the spec: how a statement ends.  [Normal] carries the value
    of an expression used as the last statement ("fallthru"). *)
Inductive Outcome :=
| Normal (value : option Z)
| Breaking (depth : nat)
| Continuing (depth : nat)
| Returned (value : option Z).

Definition bool_to_int (b : bool) : Z := if b then 1 else 0.

Definition eval_binop (op : Binop) (a b : Z) : Z :=
  match op with
  | I32Add => int32 (a + b)
  | I32Sub => int32 (a - b)
  | I32Mul => int32 (a * b)
  | I32Eq => bool_to_int (a =? b)
  | I32Lt => bool_to_int (a <? b)
  end.

(** Modelled from the spec: expressions have no side effects in this
    fragment; I32 arithmetic wraps. *)
Fixpoint eval (locals : list Z) (e : Expr) : option Z :=
  match e with
  | I8 x => Some x
  | I32 x => Some x
  | GetLocal i => locals !! i
  | Unary BoolNot e => v ← eval locals e; Some (bool_to_int (v =? 0))
  | Binary op a b => x ← eval locals a; y ← eval locals b; Some (eval_binop op x y)
  | Ternary c t e =>
      x ← eval locals c;
      y ← eval locals t;
      z ← eval locals e;
      Some (if x =? 0 then z else y)
  | Comma a b => _ ← eval locals a; eval locals b
  end.

(** Modelled from the spec: "Switch executes the selected case and all
    following cases in order (fallthrough) ...  SwitchNf executes exactly the
    selected case.  The key is I32; out-of-range keys execute no case". *)
Definition selected_cases (fallthrough : bool) (key : Z) (cases : list Stmt) : list Stmt :=
  if (0 <=? key) && (key <? Z.of_nat (length cases)) then
    if fallthrough then drop (Z.to_nat key) cases
    else take 1 (drop (Z.to_nat key) cases)
  else [].

(** Modelled from the spec: "Depth 0 refers to the innermost enclosing
    labeled construct.  Break(d) transfers to the exit of the d-th enclosing
    labeled construct". *)
Definition leave_label (o : Outcome) : Outcome :=
  match o with
  | Breaking O => Normal None
  | Breaking (S d) => Breaking d
  | Continuing (S d) => Continuing d
  | o => o
  end.

(** Modelled from the spec: statements of section 4.4.  A block, a loop and
    a switch each introduce a label; a loop is a block around a back-edging
    body, so falling off its end or continuing starts it again and only a
    break or a return leaves it.  [fuel] bounds the number of nested and
    repeated statements; [None] is a stuck statement or no fuel left. *)
Fixpoint exec (fuel : nat) (s : Stmt) (locals : list Z) : option (Outcome * list Z) :=
  match fuel with
  | O => None
  | S fuel =>
      let seq := fix seq (ss : list Stmt) (last : option Z) (locals : list Z)
          : option (Outcome * list Z) :=
        match ss with
        | [] => Some (Normal last, locals)
        | s :: ss =>
            '(o, locals) ← exec fuel s locals;
            match o with
            | Normal v => seq ss v locals
            | _ => Some (o, locals)
            end
        end in
      match s with
      | Block body =>
          '(o, locals) ← seq body None locals;
          match o with
          | Continuing O => None
          | _ => Some (leave_label o, locals)
          end
      | Loop body =>
          '(o, locals) ← seq body None locals;
          match o with
          | Normal _ | Continuing O => exec fuel (Loop body) locals
          | _ => Some (leave_label o, locals)
          end
      | IfStmt cond then_ =>
          c ← eval locals cond;
          if c =? 0 then Some (Normal None, locals) else exec fuel then_ locals
      | IfThen cond then_ else_ =>
          c ← eval locals cond;
          if c =? 0 then exec fuel else_ locals else exec fuel then_ locals
      | Switch key cases =>
          k ← eval locals key;
          '(o, locals) ← seq (selected_cases true k cases) None locals;
          match o with
          | Continuing O => None
          | _ => Some (leave_label o, locals)
          end
      | SwitchNf key cases =>
          k ← eval locals key;
          '(o, locals) ← seq (selected_cases false k cases) None locals;
          match o with
          | Continuing O => None
          | _ => Some (leave_label o, locals)
          end
      | Return None => Some (Returned None, locals)
      | Return (Some e) => v ← eval locals e; Some (Returned (Some v), locals)
      | SetLocal i e =>
          v ← eval locals e;
          if decide (i < length locals)%nat then Some (Normal None, <[i := v]> locals)
          else None
      | Break depth => Some (Breaking depth, locals)
      | Continue depth => Some (Continuing depth, locals)
      | Nop => Some (Normal None, locals)
      | ExprStmt e => v ← eval locals e; Some (Normal (Some v), locals)
      end
  end.

(** Modelled from the spec: calling a function of signature (I32...)->I32
    whose body is one statement; the value comes from a [Return] or from the
    body's last expression. *)
Definition call (fuel : nat) (body : Stmt) (args : list Z) : option Z :=
  '(o, _) ← exec fuel body args;
  match o with
  | Returned (Some v) => Some v
  | Normal (Some v) => Some v
  | _ => None
  end.

(** The body of the test Run_Wasm_Switch4_fallthru. *)
Definition Switch4_fallthru : Stmt :=
  Block [ Switch (GetLocal 0) [Nop; Return (Some (I8 45)); Nop; Return (Some (I8 47))];
          Return (Some (GetLocal 0)) ].

(** The body of the test Run_Wasm_CountDown. *)
Definition CountDown : Stmt :=
  Block [ Loop [ IfStmt (Unary BoolNot (GetLocal 0)) (Break 0);
                 SetLocal 0 (Binary I32Sub (GetLocal 0) (I8 1)) ];
          Return (Some (GetLocal 0)) ].

End Bytecode.

(** ** The asm-to-wasm emitter: class AsmWasmBuilderImpl *)

Module AsmWasm.
Import Wasm.

Inductive WasmOpcode :=
| kExprNop | kExprBlock | kExprLoop | kExprIf | kExprIfThen | kExprBr
| kExprI32Const | kExprGetLocal | kExprSetLocal | kExprCallFunction | kExprBoolNot
| kExprI32Add | kExprI32Sub | kExprI32Mul | kExprI32DivS | kExprI32DivU
| kExprI32Ior | kExprI32Xor | kExprI32Shl | kExprI32ShrS | kExprI32ShrU
| kExprI32Eq | kExprI32LtS | kExprI32LtU | kExprI32LeS | kExprI32LeU
| kExprI32GtS | kExprI32GtU | kExprI32GeS | kExprI32GeU
| kExprF32Add | kExprF32Sub | kExprF32Mul | kExprF32Div
| kExprF32Eq | kExprF32Lt | kExprF32Le | kExprF32Gt | kExprF32Ge
| kExprF64Add | kExprF64Sub | kExprF64Mul | kExprF64Div
| kExprF64Eq | kExprF64Lt | kExprF64Le | kExprF64Gt | kExprF64Ge.

(** One byte of a function body: an opcode (the numbering lives in
    wasm-opcodes.h) or an immediate byte. *)
Inductive CodeByte := Op (opcode : WasmOpcode) | Imm (b : Z).

Inductive AsmType :=
  kAsmFixnum | kAsmSigned | kAsmUnsigned | kAsmInt | kAsmFloat | kAsmDouble | kAsmNone.

Inductive Token :=
| ADD | SUB | MUL | DIV | MOD | BIT_OR | BIT_XOR | BIT_AND | SHL | SAR | SHR
| NOT | EQ | LT | LTE | GT | GTE.

Record AstVariable := mkVar { var_id : nat; IsParameter : bool; is_function : bool }.

Inductive Expression :=
| VariableProxy (bounds : AsmType) (var : AstVariable)
| Literal (bounds : AsmType) (number : option Z)
| Assignment (bounds : AsmType) (target value : Expression)
| UnaryOperation (bounds : AsmType) (op : Token) (expression : Expression)
| BinaryOperation (bounds : AsmType) (op : Token) (left_ right_ : Expression)
| CompareOperation (bounds : AsmType) (op : Token) (left_ right_ : Expression)
| Conditional (bounds : AsmType) (condition then_expression else_expression : Expression)
| Call (bounds : AsmType) (expression : Expression) (arguments : list Expression).

Inductive Statement :=
| Block (id : nat) (statements : list Statement)
| ExpressionStatement (expression : Expression)
| EmptyStatement
| IfStatement (condition : Expression) (then_statement else_statement : Statement)
| ContinueStatement (target : nat)
| BreakStatement (target : nat)
| ReturnStatement (expression : Expression)
| WhileStatement (id : nat) (cond : Expression) (body : Statement).

Inductive CallType := OTHER_CALL | UNSUPPORTED_CALL.

(** What the visitor takes from elsewhere: the queries of the AST
    ([Statement::IsJump], [Call::GetCallType]), the macros [WASM_F32] and
    [WASM_F64] of wasm-macro-gen.h, and what [static_cast<int>] makes of a
    number outside the range of [int], which C++ leaves undefined. *)
Class AstQueries := {
  IsJump : Statement -> bool;
  GetCallType : Expression -> CallType;
  WASM_F32 : Z -> list CodeByte;
  WASM_F64 : Z -> list CodeByte;
  int_out_of_range : Z -> Z
}.

(** The visitor's fields.  [builder_] and [current_function_builder_] are
    kept as what they accumulate: the number of functions, the exported ones,
    the declared parameters and locals, and the body bytes. *)
Record AsmWasmBuilderImpl := mkBuilder
  { local_variables_ : gmap nat Z;
    functions_ : gmap nat Z;
    in_function_ : bool;
    is_set_op_ : bool;
    marking_exported : bool;
    block_depth_ : Z;
    breakable_blocks_ : list (nat * bool);
    function_count : Z;
    exported_functions : list Z;
    declared_vars : list (LocalType * bool);
    body : list CodeByte }.

(** [WasmFunctionBuilder::AddBody], [AppendCode]: append to the body. *)
Definition AddBody (code : list CodeByte) (b : AsmWasmBuilderImpl) : AsmWasmBuilderImpl :=
  {| local_variables_ := local_variables_ b; functions_ := functions_ b;
     in_function_ := in_function_ b; is_set_op_ := is_set_op_ b;
     marking_exported := marking_exported b; block_depth_ := block_depth_ b;
     breakable_blocks_ := breakable_blocks_ b; function_count := function_count b;
     exported_functions := exported_functions b; declared_vars := declared_vars b;
     body := body b ++ code |}.

Definition AppendCode (opcode : WasmOpcode) (b : AsmWasmBuilderImpl) : AsmWasmBuilderImpl :=
  AddBody [Op opcode] b.

Definition AppendByte (value : Z) (b : AsmWasmBuilderImpl) : AsmWasmBuilderImpl :=
  AddBody [Imm (value mod 256)] b.

Definition set_control (depth : Z) (blocks : list (nat * bool)) (b : AsmWasmBuilderImpl)
  : AsmWasmBuilderImpl :=
  {| local_variables_ := local_variables_ b; functions_ := functions_ b;
     in_function_ := in_function_ b; is_set_op_ := is_set_op_ b;
     marking_exported := marking_exported b; block_depth_ := depth;
     breakable_blocks_ := blocks; function_count := function_count b;
     exported_functions := exported_functions b; declared_vars := declared_vars b;
     body := body b |}.

Definition set_is_set_op (flag : bool) (b : AsmWasmBuilderImpl) : AsmWasmBuilderImpl :=
  {| local_variables_ := local_variables_ b; functions_ := functions_ b;
     in_function_ := in_function_ b; is_set_op_ := flag;
     marking_exported := marking_exported b; block_depth_ := block_depth_ b;
     breakable_blocks_ := breakable_blocks_ b; function_count := function_count b;
     exported_functions := exported_functions b; declared_vars := declared_vars b;
     body := body b |}.

Definition set_marking_exported (flag : bool) (b : AsmWasmBuilderImpl) : AsmWasmBuilderImpl :=
  {| local_variables_ := local_variables_ b; functions_ := functions_ b;
     in_function_ := in_function_ b; is_set_op_ := is_set_op_ b;
     marking_exported := flag; block_depth_ := block_depth_ b;
     breakable_blocks_ := breakable_blocks_ b; function_count := function_count b;
     exported_functions := exported_functions b; declared_vars := declared_vars b;
     body := body b |}.

(** [type->Is(cache_.kAsmX)]: the subtype test on the asm types. *)
Definition Is (t u : AsmType) : bool :=
  match u, t with
  | kAsmInt, (kAsmFixnum | kAsmSigned | kAsmUnsigned | kAsmInt) => true
  | kAsmSigned, (kAsmFixnum | kAsmSigned) => true
  | kAsmUnsigned, (kAsmFixnum | kAsmUnsigned) => true
  | kAsmFixnum, kAsmFixnum => true
  | kAsmFloat, kAsmFloat => true
  | kAsmDouble, kAsmDouble => true
  | _, _ => false
  end.

Definition bounds_of (e : Expression) : AsmType :=
  match e with
  | VariableProxy t _ | Literal t _ | Assignment t _ _ | UnaryOperation t _ _
  | BinaryOperation t _ _ _ | CompareOperation t _ _ _ | Conditional t _ _ _
  | Call t _ _ => t
  end.

Definition TypeFrom (t : AsmType) : LocalType :=
  if Is t kAsmInt then kAstI32
  else if Is t kAsmFloat then kAstF32
  else if Is t kAsmDouble then kAstF64
  else kAstStmt.

Definition TypeOf (expr : Expression) : LocalType := TypeFrom (bounds_of expr).

Definition TypeIndexOf (expr : Expression) : option nat :=
  let type := bounds_of expr in
  if Is type kAsmSigned then Some 0%nat
  else if Is type kAsmUnsigned then Some 1%nat
  else if Is type kAsmInt then Some 0%nat
  else if Is type kAsmFloat then Some 2%nat
  else if Is type kAsmDouble then Some 3%nat
  else None.

Definition TypeIndexOf2 (left_ right_ : Expression) (ignore_sign : bool) : option nat :=
  left_index ← TypeIndexOf left_;
  _ ← TypeIndexOf right_;
  Some left_index.

(** [UnsignedLEB128From] of the encoder: seven bits per byte, low bits
    first, the high bit set on all but the last byte. *)
Fixpoint UnsignedLEB128_loop (fuel : nat) (value : Z) : list CodeByte :=
  match fuel with
  | O => []
  | S fuel =>
      let out := Z.land value 127 in
      let value := Z.shiftr value 7 in
      if value =? 0 then [Imm out]
      else Imm (Z.lor out 128) :: UnsignedLEB128_loop fuel value
  end.

Definition UnsignedLEB128From (value : Z) : list CodeByte := UnsignedLEB128_loop 5 value.

(** Modelled from the spec: the macro [WASM_I32] of wasm-macro-gen.h, which
    is not among the sources; an I32 constant carries its four raw
    little-endian bytes. *)
Definition WASM_I32 (val : Z) : list CodeByte :=
  [Op kExprI32Const; Imm (val mod 256); Imm (Z.shiftr val 8 mod 256);
   Imm (Z.shiftr val 16 mod 256); Imm (Z.shiftr val 24 mod 256)].

(** A variable not yet in [local_variables_] gets the next index from
    [AddParam] or [AddLocal]. *)
Definition LookupOrInsertLocal (v : AstVariable) (type : LocalType) (b : AsmWasmBuilderImpl)
  : Z * AsmWasmBuilderImpl :=
  match local_variables_ b !! var_id v with
  | Some index => (index, b)
  | None =>
      let index := Z.of_nat (length (declared_vars b)) mod 2 ^ 16 in
      (index,
       {| local_variables_ := <[var_id v := index]> (local_variables_ b);
          functions_ := functions_ b;
          in_function_ := in_function_ b; is_set_op_ := is_set_op_ b;
          marking_exported := marking_exported b; block_depth_ := block_depth_ b;
          breakable_blocks_ := breakable_blocks_ b; function_count := function_count b;
          exported_functions := exported_functions b;
          declared_vars := declared_vars b ++ [(type, IsParameter v)];
          body := body b |})
  end.

Definition LookupOrInsertFunction (v : AstVariable) (b : AsmWasmBuilderImpl)
  : Z * AsmWasmBuilderImpl :=
  match functions_ b !! var_id v with
  | Some index => (index, b)
  | None =>
      let index := function_count b mod 2 ^ 16 in
      (index,
       {| local_variables_ := local_variables_ b;
          functions_ := <[var_id v := index]> (functions_ b);
          in_function_ := in_function_ b; is_set_op_ := is_set_op_ b;
          marking_exported := marking_exported b; block_depth_ := block_depth_ b;
          breakable_blocks_ := breakable_blocks_ b; function_count := function_count b + 1;
          exported_functions := exported_functions b;
          declared_vars := declared_vars b;
          body := body b |})
  end.

Definition mark_exported (index : Z) (b : AsmWasmBuilderImpl) : AsmWasmBuilderImpl :=
  {| local_variables_ := local_variables_ b; functions_ := functions_ b;
     in_function_ := in_function_ b; is_set_op_ := is_set_op_ b;
     marking_exported := marking_exported b; block_depth_ := block_depth_ b;
     breakable_blocks_ := breakable_blocks_ b; function_count := function_count b;
     exported_functions := exported_functions b ++ [index];
     declared_vars := declared_vars b; body := body b |}.

Definition VisitVariableProxy (expr : Expression) (var : AstVariable)
    (b : AsmWasmBuilderImpl) : option AsmWasmBuilderImpl :=
  if in_function_ b then
    if is_function var then
      let '(index, b) := LookupOrInsertFunction var b in
      Some (AddBody (UnsignedLEB128From index) b)
    else
      let b := if is_set_op_ b then b else AppendCode kExprGetLocal b in
      let var_type := TypeOf expr in
      let '(index, b) := LookupOrInsertLocal var var_type b in
      Some (AddBody (UnsignedLEB128From index) b)
  else if marking_exported b then
    if is_function var then
      let '(index, b) := LookupOrInsertFunction var b in Some (mark_exported index b)
    else Some b
  else Some b.

(** [static_cast<int>(number)] for a number without a fractional part. *)
Definition static_cast_int `{AstQueries} (number : Z) : Z :=
  if (- 2 ^ 31 <=? number) && (number <? 2 ^ 31) then number else int_out_of_range number.

(** [number] is the value of [raw_value()->AsNumber()], [None] when the
    literal is not a number; the numbers of the model are those without a
    fractional part. *)
Definition VisitLiteral `{AstQueries} (expr : Expression) (number : option Z)
    (b : AsmWasmBuilderImpl) : option AsmWasmBuilderImpl :=
  if in_function_ b then
    match number with
    | Some val =>
        match TypeOf expr with
        | kAstI32 => Some (AddBody (WASM_I32 (static_cast_int val)) b)
        | kAstF32 => Some (AddBody (WASM_F32 val) b)
        | kAstF64 => Some (AddBody (WASM_F64 val) b)
        | _ => None
        end
    | None => Some b
    end
  else Some b.

Definition NON_SIGNED_BINOP (i32 f32 f64 : WasmOpcode) : list WasmOpcode := [i32; i32; f32; f64].
Definition SIGNED_BINOP (i32s i32u f32 f64 : WasmOpcode) : list WasmOpcode := [i32s; i32u; f32; f64].
Definition NON_SIGNED_INT_BINOP (i32 : WasmOpcode) : list WasmOpcode := [i32; i32].

Definition binary_opcodes (op : Token) : option (list WasmOpcode * bool) :=
  match op with
  | ADD => Some (NON_SIGNED_BINOP kExprI32Add kExprF32Add kExprF64Add, true)
  | SUB => Some (NON_SIGNED_BINOP kExprI32Sub kExprF32Sub kExprF64Sub, true)
  | MUL => Some (NON_SIGNED_BINOP kExprI32Mul kExprF32Mul kExprF64Mul, true)
  | DIV => Some (SIGNED_BINOP kExprI32DivS kExprI32DivU kExprF32Div kExprF64Div, false)
  | BIT_OR => Some (NON_SIGNED_INT_BINOP kExprI32Ior, true)
  | BIT_XOR => Some (NON_SIGNED_INT_BINOP kExprI32Xor, true)
  | SHL => Some (NON_SIGNED_INT_BINOP kExprI32Shl, true)
  | SAR => Some (NON_SIGNED_INT_BINOP kExprI32ShrS, true)
  | SHR => Some (NON_SIGNED_INT_BINOP kExprI32ShrU, true)
  | _ => None
  end.

Definition compare_opcodes (op : Token) : option (list WasmOpcode * bool) :=
  match op with
  | EQ => Some (NON_SIGNED_BINOP kExprI32Eq kExprF32Eq kExprF64Eq, false)
  | LT => Some (SIGNED_BINOP kExprI32LtS kExprI32LtU kExprF32Lt kExprF64Lt, false)
  | LTE => Some (SIGNED_BINOP kExprI32LeS kExprI32LeU kExprF32Le kExprF64Le, false)
  | GT => Some (SIGNED_BINOP kExprI32GtS kExprI32GtU kExprF32Gt kExprF64Gt, false)
  | GTE => Some (SIGNED_BINOP kExprI32GeS kExprI32GeU kExprF32Ge kExprF64Ge, false)
  | _ => None
  end.

(** An index past the end of the opcode table ([opcodes[type]]) is [None]. *)
Definition BINOP_CASE (table : option (list WasmOpcode * bool)) (left_ right_ : Expression)
    (b : AsmWasmBuilderImpl) : option AsmWasmBuilderImpl :=
  '(opcodes, ignore_sign) ← table;
  type ← TypeIndexOf2 left_ right_ ignore_sign;
  opcode ← opcodes !! type;
  Some (AppendCode opcode b).

(** The loops of VisitContinueStatement and VisitBreakStatement, from the
    innermost breakable statement outwards. *)
Fixpoint continue_distance (target : nat) (blocks : list (nat * bool)) (block_distance : Z) : Z :=
  match blocks with
  | [] => block_distance
  | (stmt, is_loop) :: blocks =>
      if decide (stmt = target) then block_distance
      else continue_distance target blocks (block_distance + (if is_loop then 2 else 1))
  end.

Fixpoint break_distance (target : nat) (blocks : list (nat * bool)) (block_distance : Z) : Z :=
  match blocks with
  | [] => block_distance
  | (stmt, is_loop) :: blocks =>
      if decide (stmt = target) then (if is_loop then block_distance + 1 else block_distance)
      else break_distance target blocks (block_distance + (if is_loop then 2 else 1))
  end.

Definition IsEmpty (s : Statement) : bool :=
  match s with EmptyStatement => true | _ => false end.

(** The visitors of the expressions and statements below, on a run in which
    no stack overflow is signalled: [RECURSE] returns early when
    [HasStackOverflow()] holds, and the stack check that sets the flag is in
    ast.h, which is not among the sources.  [UNREACHABLE()] is [None].  The
    visitors of declarations and function literals, which switch the
    function builder and write [in_function_], are not modelled: [Visit] is
    the visitor inside one function body or at the top level. *)
Section Visitor.
Context `{AstQueries}.

Fixpoint VisitExpression (expr : Expression) (b : AsmWasmBuilderImpl) {struct expr}
  : option AsmWasmBuilderImpl :=
  match expr with
  | VariableProxy _ var => VisitVariableProxy expr var b
  | Literal _ number => VisitLiteral expr number b
  | Assignment _ target value =>
      let b := AppendCode kExprSetLocal b in
      let b := set_is_set_op true b in
      b ← VisitExpression target b;
      let b := set_is_set_op false b in
      VisitExpression value b
  | UnaryOperation _ op expression =>
      match op with
      | NOT =>
          _ ← TypeIndexOf expression;
          VisitExpression expression (AppendCode kExprBoolNot b)
      | _ => None
      end
  | BinaryOperation _ op left_ right_ =>
      b ← BINOP_CASE (binary_opcodes op) left_ right_ b;
      b ← VisitExpression left_ b;
      VisitExpression right_ b
  | CompareOperation _ op left_ right_ =>
      b ← BINOP_CASE (compare_opcodes op) left_ right_ b;
      b ← VisitExpression left_ b;
      VisitExpression right_ b
  | Conditional _ condition then_expression else_expression =>
      b ← VisitExpression condition b;
      b ← VisitExpression then_expression b;
      VisitExpression else_expression b
  | Call _ expression arguments =>
      match GetCallType expr with
      | OTHER_CALL =>
          let b := AppendCode kExprCallFunction b in
          b ← VisitExpression expression b;
          (fix args (l : list Expression) (b : AsmWasmBuilderImpl) : option AsmWasmBuilderImpl :=
             match l with
             | [] => Some b
             | arg :: l => b ← VisitExpression arg b; args l b
             end) arguments b
      | UNSUPPORTED_CALL => None
      end
  end.

Fixpoint Visit (stmt : Statement) (b : AsmWasmBuilderImpl) {struct stmt}
  : option AsmWasmBuilderImpl :=
  match stmt with
  | Block id statements =>
      let b := set_control (block_depth_ b + 1) (breakable_blocks_ b ++ [(id, false)]) b in
      let b := if in_function_ b
               then AppendByte (Z.of_nat (length statements)) (AppendCode kExprBlock b)
               else b in
      b ← (fix VisitStatements (stmts : list Statement) (b : AsmWasmBuilderImpl)
            : option AsmWasmBuilderImpl :=
             match stmts with
             | [] => Some b
             | stmt :: stmts =>
                 b ← Visit stmt b;
                 if IsJump stmt then Some b else VisitStatements stmts b
             end) statements b;
      Some (set_control (block_depth_ b - 1) (removelast (breakable_blocks_ b)) b)
  | ExpressionStatement expression => VisitExpression expression b
  | EmptyStatement => Some b
  | IfStatement condition then_statement else_statement =>
      let HasElseStatement := negb (IsEmpty else_statement) in
      let HasThenStatement := negb (IsEmpty then_statement) in
      let b := AppendCode (if HasElseStatement then kExprIfThen else kExprIf) b in
      b ← VisitExpression condition b;
      b ← (if HasThenStatement then Visit then_statement b
            else Some (AppendCode kExprNop b));
      if HasElseStatement then Visit else_statement b else Some b
  | ContinueStatement target =>
      let block_distance := continue_distance target (rev (breakable_blocks_ b)) 0 in
      Some (AppendCode kExprNop (AppendByte block_distance (AppendCode kExprBr b)))
  | BreakStatement target =>
      let block_distance := break_distance target (rev (breakable_blocks_ b)) 0 in
      Some (AppendCode kExprNop (AppendByte block_distance (AppendCode kExprBr b)))
  | ReturnStatement expression =>
      let b := if in_function_ b
               then AppendByte (block_depth_ b) (AppendCode kExprBr b)
               else set_marking_exported true b in
      b ← VisitExpression expression b;
      Some (if in_function_ b then b else set_marking_exported false b)
  | WhileStatement id cond body_stmt =>
      let b := AppendByte 1 (AppendCode kExprLoop b) in
      let b := set_control (block_depth_ b + 2) (breakable_blocks_ b ++ [(id, true)]) b in
      let b := AppendCode kExprIf b in
      b ← VisitExpression cond b;
      let b := AppendByte 0 (AppendCode kExprBr b) in
      b ← Visit body_stmt b;
      Some (set_control (block_depth_ b - 2) (removelast (breakable_blocks_ b)) b)
  end.

End Visitor.

(** [while (x) x = x - 1;] with [x] the function's int parameter. *)
Definition var_x : Expression := VariableProxy kAsmInt (mkVar 0 true false).

(** The emitter at the start of a statement inside a function. *)
Definition in_function_body : AsmWasmBuilderImpl :=
  {| local_variables_ := ∅; functions_ := ∅; in_function_ := true; is_set_op_ := false;
     marking_exported := false; block_depth_ := 0; breakable_blocks_ := [];
     function_count := 1; exported_functions := []; declared_vars := []; body := [] |}.

(** Jump statements are continue, break and return; every call is a plain
    call.  The programs below have no float constant, whose bytes are left
    empty here; a number that does not fit an [int] becomes the smallest
    [int]. *)
Definition sample_queries : AstQueries :=
  {| IsJump s := match s with
                 | ContinueStatement _ | BreakStatement _ | ReturnStatement _ => true
                 | _ => false
                 end;
     GetCallType _ := OTHER_CALL;
     WASM_F32 _ := [];
     WASM_F64 _ := [];
     int_out_of_range _ := - 2 ^ 31 |}.


(** *** Vocabulary of the statements *)


(** The bytes appended between [b] and [b']. *)
Definition emitted (b b' : AsmWasmBuilderImpl) : list CodeByte :=
  drop (length (body b)) (body b').

End AsmWasm.


(** ** The layout of a decoded module *)

Module DecoderLayout.
Import Wasm Decoder.

(** [n] bytes can be read at the position. *)
Definition available (d : ModuleDecoder) (n : Z) : Prop :=
  start_ d <= cur_ d /\ cur_ d + n <= end_ d.

(** What an operation that ends with no error latched has done: it started
    with no error latched and moved the position forward over [n] bytes of
    the module, changing nothing else; [Q] relates the decoder it started
    from, its result and [n]. *)
Definition reads {A} (m : M A) (Q : ModuleDecoder -> A -> Z -> Prop) : Prop :=
  forall d, ok (run m d).2 = true ->
    ok d = true /\
    exists n, 0 <= n /\ (n = 0 \/ available d n) /\
      (run m d).2 = set_cur d (cur_ d + n) /\ Q d (run m d).1 n.

(** The position lies inside the module. *)
Definition in_range (d : ModuleDecoder) : Prop := start_ d <= cur_ d <= end_ d.

(** An operation that, with or without an error latched, leaves the module
    bytes and bounds alone and moves the position forward inside the module. *)
Definition keeps_range {A} (m : M A) : Prop :=
  forall d, in_range d ->
    bytes (run m d).2 = bytes d /\ start_ (run m d).2 = start_ d /\
    end_ (run m d).2 = end_ d /\ cur_ d <= cur_ (run m d).2 <= end_ d.

(** Bytes taken by the entries of a module: the header of two bytes and
    three 16-bit counts, a global (name, type, exported), a signature (count,
    return type, parameters), a function (signature, name, two code offsets,
    four 16-bit local counts, two flags) and a data segment. *)
Definition sig_size (s : FunctionSig) : Z := 2 + Z.of_nat (length (sig_params s)).
Definition function_entry_size (f : WasmFunction) : Z := sig_size (Wasm.sig f) + 22.
Definition functions_size (fs : list WasmFunction) : Z :=
  foldr (fun f acc => function_entry_size f + acc) 0 fs.
Definition module_size (m : WasmModule) : Z :=
  8 + 6 * Z.of_nat (length (globals m)) + functions_size (functions m)
    + 13 * Z.of_nat (length (data_segments m)).

Definition not_void (t : LocalType) : Prop := t <> kAstStmt.

Definition sig_wf (s : FunctionSig) : Prop :=
  (length (sig_returns s) <= 1)%nat /\
  Forall not_void (sig_returns s) /\ Forall not_void (sig_params s) /\
  (length (sig_params s) < 256)%nat.

Definition global_wf (size : Z) (g : WasmGlobal) : Prop :=
  0 <= name_offset g <= size /\ Wasm.offset g = 0.

Definition function_wf (size : Z) (f : WasmFunction) : Prop :=
  sig_wf (Wasm.sig f) /\
  0 <= fn_name_offset f <= size /\
  0 <= code_start_offset f <= size /\
  0 <= code_end_offset f <= size /\
  0 <= local_int32_count f < 2 ^ 16 /\ 0 <= local_int64_count f < 2 ^ 16 /\
  0 <= local_float32_count f < 2 ^ 16 /\ 0 <= local_float64_count f < 2 ^ 16.

Definition segment_wf (size : Z) (s : WasmDataSegment) : Prop :=
  0 <= dest_addr s < 2 ^ 32 /\ 0 <= source_offset s <= size /\
  0 <= source_size s < 2 ^ 32.

(** A module of 56 bytes at address 1000: the header, one global, one
    function of signature (I32)->I32 with its four code bytes at offset 52,
    and one data segment. *)
Definition whole_module_bytes : list byte :=
  mk_bytes [4; 1; 1; 0; 1; 0; 1; 0;
            0; 0; 0; 0; 4; 1;
            1; 1; 1; 0; 0; 0; 0; 52; 0; 0; 0; 56; 0; 0; 0;
            0; 0; 0; 0; 0; 0; 0; 0; 1; 0;
            0; 0; 0; 0; 52; 0; 0; 0; 4; 0; 0; 0; 1;
            9; 9; 9; 9]%N.
Definition whole_module_decoder : ModuleDecoder :=
  new_ModuleDecoder whole_module_bytes 1000 1056.

(** A function of signature (I32, I32)->I32 alone, as DecodeSingleFunction
    reads it: the signature, four 16-bit local counts, then the code. *)
Definition sample_function_bytes : list byte :=
  mk_bytes [2; 1; 1; 1; 1; 0; 0; 0; 0; 0; 0; 0; 9; 9; 9]%N.
Definition sample_function_decoder : ModuleDecoder :=
  new_ModuleDecoder sample_function_bytes 2000 2015.

End DecoderLayout.


(** ** A compilation session on the linker *)

Module LinkerSession.
Import Linker.

(** What Instantiate and the code generator do with the linker and the code
    space before Link: ask for the code of a callee ([GetFunctionCode]),
    allocate the code object of a compiled function ([NewCode]) and install it
    ([Finish]). *)
Inductive Step :=
| RequestCode (index : Z)
| Generate (obj : Code)
| FinishFunction (index : Z) (code : nat).

Definition run_step (s : Step) (w : World) : option World :=
  match s with
  | RequestCode index => snd <$> GetFunctionCode index w
  | Generate obj => Some (NewCode obj w).2
  | FinishFunction index code => Finish index (Some code) w
  end.

(** What the callers provide: an index whose marker fits the [int] field;
    generated code that does not carry the placeholder marker and whose
    relocations point at code objects that exist (itself included); a
    finished function whose code is such a generated object. *)
Definition step_allowed (w : World) (s : Step) : Prop :=
  match s with
  | RequestCode index => 0 <= index /\ index + kPlaceholderMarker < 2 ^ 31
  | Generate obj =>
      is_placeholder obj = false /\
      Forall (fun r => (target_address r <= length (code_space w))%nat) (relocation_info obj)
  | FinishFunction index code =>
      exists obj, code_space w !! code = Some obj /\ is_placeholder obj = false
  end.

Inductive session : World -> list Step -> World -> Prop :=
| session_done w : session w [] w
| session_step w s w1 steps w2 :
    step_allowed w s -> run_step s w = Some w1 -> session w1 steps w2 ->
    session w (s :: steps) w2.

(** Every function was requested or finished. *)
Definition every_function_has_code (w : World) : Prop :=
  forall (i : nat) h, function_code_ w !! i = Some h -> h <> None.

(** What a session keeps true of the linker and the code space. *)
Definition linker_inv (w : World) : Prop :=
  length (placeholder_code_ w) = length (function_code_ w) /\
  (forall (a : nat) obj, code_space w !! a = Some obj -> is_placeholder obj = true ->
     exists i : nat,
       constant_pool_offset obj = Z.of_nat i + kPlaceholderMarker /\
       Z.of_nat i + kPlaceholderMarker < 2 ^ 31 /\
       placeholder_code_ w !! i = Some (Some a)) /\
  (forall (a : nat) obj, code_space w !! a = Some obj ->
     Forall (fun r => (target_address r < length (code_space w))%nat) (relocation_info obj)) /\
  finished_code_is_real w /\
  (forall (i a : nat), placeholder_code_ w !! i = Some (Some a) ->
     exists c, function_code_ w !! i = Some (Some c)) /\
  (forall (i c : nat), function_code_ w !! i = Some (Some c) ->
     (c < length (code_space w))%nat).

(** Two code objects that differ at most in the target addresses of their
    relocations. *)
Definition same_but_targets (obj obj' : Code) : Prop :=
  kind obj' = kind obj /\ constant_pool_offset obj' = constant_pool_offset obj /\
  rmode <$> relocation_info obj' = rmode <$> relocation_info obj.

Definition is_function_code (w : World) (c : nat) : Prop :=
  exists i : nat, function_code_ w !! i = Some (Some c).

Section Redirect.
Context `{RelocModes}.

(** A relocation after the loop body of LinkFunction has seen it. *)
Definition redirected (w : World) (r : RelocInfo) : RelocInfo :=
  match link_target w r with
  | Some (r', _) => r'
  | None => r
  end.

End Redirect.

(** Three functions: 0 calls 1 and 2 before they exist and is compiled first. *)
Definition sample_session : list Step :=
  [RequestCode 1; RequestCode 2;
   Generate (mkCode WASM_FUNCTION 0 [mkReloc 0 0; mkReloc 0 1; mkReloc 7 0]);
   FinishFunction 0 2;
   Generate (mkCode WASM_FUNCTION 0 [mkReloc 0 1]); FinishFunction 1 3;
   Generate (mkCode WASM_FUNCTION 0 []); FinishFunction 2 4].

Definition run_steps (steps : list Step) (w : World) : option World :=
  foldl (fun w s => w ← w; run_step s w) (Some w) steps.

Definition sample_session_world : World :=
  default (new_WasmLinker [] 3) (run_steps sample_session (new_WasmLinker [] 3)).

End LinkerSession.


(** ** The size of the globals area *)

Module GlobalsArea.
Import Wasm Globals.

(** The bytes the globals need without padding. *)
Definition sizes_sum (globals : list WasmGlobal) : Z :=
  foldr (fun g acc => MemSize (type g) + acc) 0 globals.

(** Two lists of globals that differ at most in the offsets. *)
Definition same_but_offsets (gs gs' : list WasmGlobal) : Prop :=
  map (fun g => set_offset g 0) gs' = map (fun g => set_offset g 0) gs.

(** The globals a test declares through the harness, and the harness before
    the first of them. *)
Definition sample_types : list MemType := [kMemI8; kMemI32; kMemU16; kMemF64].
Definition empty_TestingModule : TestingModule := {| tm_globals := []; global_offset := 0 |}.

(** Globals decoded with offsets that are not zero. *)
Definition stale_globals : list WasmGlobal :=
  [mkGlobal 14 kMemI8 77 true; mkGlobal 0 kMemF64 3 false; mkGlobal 9 kMemI16 1 false].

End GlobalsArea.


(** ** The memory after the data segments are loaded *)

Module DataSegmentsMemory.
Import Wasm DataSegments.

(** The segment is initialised and writes the byte at address [a]. *)
Definition covers (s : WasmDataSegment) (a : Z) : bool :=
  init s && (dest_addr s <=? a) && (a <? dest_addr s + source_size s).

(** The byte at address [a] after the segments are copied in order: the byte
    of the last segment that covers [a], or the byte that was there. *)
Fixpoint loaded_byte (module_bytes : list byte) (segments : list WasmDataSegment)
    (a : Z) (before : byte) : byte :=
  match segments with
  | [] => before
  | s :: rest =>
      loaded_byte module_bytes rest a
        (if covers s a
         then module_bytes !!! Z.to_nat (source_offset s + (a - dest_addr s))
         else before)
  end.

(** The fields are [uint32_t] values. *)
Definition uint32_fields (s : WasmDataSegment) : Prop :=
  0 <= dest_addr s < 2 ^ 32 /\ 0 <= source_offset s < 2 ^ 32 /\ 0 <= source_size s < 2 ^ 32.

(** An initialised segment takes its bytes from inside the module. *)
Definition source_in_module (module_bytes : list byte) (s : WasmDataSegment) : Prop :=
  init s = true -> source_offset s + source_size s <= Z.of_nat (length module_bytes).

(** Two segments that overlap in memory and one that is not initialised. *)
Definition overlapping_segments : list WasmDataSegment :=
  [mkSegment 2 8 6 true; mkSegment 4 16 3 true; mkSegment 0 0 9 false].

End DataSegmentsMemory.


(** ** Jumps in the emitter *)

Module AsmWasmJumps.
Import Wasm AsmWasm.


(** The emitter with [code] in the body before what it has there. *)
Definition prepend (code : list CodeByte) (b : AsmWasmBuilderImpl) : AsmWasmBuilderImpl :=
  {| local_variables_ := local_variables_ b; functions_ := functions_ b;
     in_function_ := in_function_ b; is_set_op_ := is_set_op_ b;
     marking_exported := marking_exported b; block_depth_ := block_depth_ b;
     breakable_blocks_ := breakable_blocks_ b; function_count := function_count b;
     exported_functions := exported_functions b; declared_vars := declared_vars b;
     body := code ++ body b |}.

(** The loop of VisitStatements: the statements in order, up to and with the
    first jump. *)
Section Statements.
Context `{AstQueries}.

Fixpoint VisitStatements_loop (stmts : list Statement) (b : AsmWasmBuilderImpl)
  : option AsmWasmBuilderImpl :=
  match stmts with
  | [] => Some b
  | stmt :: stmts =>
      b ← Visit stmt b;
      if IsJump stmt then Some b else VisitStatements_loop stmts b
  end.

End Statements.

(** [x = 1;], [return x;] and a statement the emitter has no case for,
    [+x;]. *)
Definition set_x : Statement :=
  ExpressionStatement (Assignment kAsmInt var_x (Literal kAsmFixnum (Some 1))).
Definition return_x : Statement := ReturnStatement var_x.
Definition plus_x : Statement := ExpressionStatement (UnaryOperation kAsmInt ADD var_x).

End AsmWasmJumps.


(* ================================================================== *)
(** * Part II: the proofs                                              *)
(* ================================================================== *)

(** ** Globals layout *)

Module GlobalsFacts.
Import Wasm Globals.

Lemma uint32_small z : 0 <= z < 2 ^ 32 -> uint32 z = z.
Proof. intros. unfold uint32. apply Z.mod_small; lia. Qed.

Lemma land_mask_pow2 x k :
  0 <= k <= 32 -> 0 <= x < 2 ^ 32 ->
  Z.land x (uint32 (Z.lnot (2 ^ k - 1))) = x / 2 ^ k * 2 ^ k.
Proof.
  intros Hk Hx. unfold uint32.
  rewrite <- Z.land_ones by lia.
  rewrite (Z.land_comm (Z.lnot _)), Z.land_assoc.
  rewrite (Z.land_ones x) by lia. rewrite (Z.mod_small x) by lia.
  rewrite <- Z.ldiff_land.
  replace (2 ^ k - 1) with (Z.ones k) by (rewrite Z.ones_equiv; lia).
  rewrite Z.ldiff_ones_r by lia.
  rewrite Z.shiftl_mul_pow2, Z.shiftr_div_pow2 by lia. reflexivity.
Qed.

Lemma MemSize_pow2 t : exists k, 0 <= k <= 3 /\ MemSize t = 2 ^ k.
Proof.
  destruct t; simpl;
    [exists 0|exists 0|exists 1|exists 1|exists 2|exists 2|exists 3|exists 3|exists 2|exists 3];
    split; (lia || reflexivity).
Qed.

Lemma align_round_up o t :
  0 <= o -> o + MemSize t - 1 < 2 ^ 32 ->
  align o (MemSize t) = round_up o (MemSize t).
Proof.
  intros Ho Hb. destruct (MemSize_pow2 t) as (k & Hk & E).
  unfold align, round_up. rewrite E in *.
  assert (0 < 2 ^ k) by (apply Z.pow_pos_nonneg; lia).
  rewrite (uint32_small (o + 2 ^ k - 1)) by lia.
  apply land_mask_pow2; lia.
Qed.

Lemma round_up_bounds o s : 0 < s -> o <= round_up o s < o + s.
Proof.
  intros Hs. unfold round_up.
  pose proof (Z.div_mod (o + s - 1) s ltac:(lia)) as E.
  pose proof (Z.mod_pos_bound (o + s - 1) s Hs). nia.
Qed.

Lemma round_up_divide o s : (s | round_up o s).
Proof. unfold round_up. apply Z.divide_factor_r. Qed.

Lemma round_up_least o s m : 0 < s -> (s | m) -> o <= m -> round_up o s <= m.
Proof.
  intros Hs [c ->] Hle. unfold round_up.
  assert ((o + s - 1) / s < c + 1); [|nia].
  apply Z.div_lt_upper_bound; lia.
Qed.

Lemma MemSize_range t : 1 <= MemSize t <= 8.
Proof. destruct t; simpl; lia. Qed.

Lemma MemSize_divide_8 t : (MemSize t | 8).
Proof.
  destruct t; simpl;
    [exists 8|exists 8|exists 4|exists 4|exists 2|exists 2|exists 1|exists 1|exists 2|exists 1];
    reflexivity.
Qed.

Lemma round_up_step o t :
  0 <= o ->
  let o' := round_up o (MemSize t) + MemSize t in
  o < o' /\ round_up o' 8 <= round_up o 8 + 8.
Proof.
  intros Ho o'. subst o'.
  pose proof (MemSize_range t) as Hr.
  pose proof (round_up_bounds o (MemSize t) ltac:(lia)).
  pose proof (round_up_bounds o 8 ltac:(lia)).
  split; [lia|].
  apply round_up_least; [lia| |].
  - apply Z.divide_add_r; [apply round_up_divide|exists 1; lia].
  - assert (round_up o (MemSize t) <= round_up o 8); [|lia].
    apply round_up_least; [lia| |lia].
    eapply Z.divide_trans; [apply MemSize_divide_8|apply round_up_divide].
Qed.

Lemma allocate_loop_refines gs : forall o,
  0 <= o -> round_up o 8 + 8 * Z.of_nat (length gs) < 2 ^ 32 ->
  allocate_loop o gs = assign_offsets o gs.
Proof.
  induction gs as [|g gs IH]; intros o Ho Hb; [reflexivity|].
  cbn [allocate_loop assign_offsets length] in *.
  pose proof (MemSize_range (type g)) as Hr.
  pose proof (round_up_bounds o (MemSize (type g)) ltac:(lia)).
  pose proof (round_up_bounds o 8 ltac:(lia)).
  pose proof (round_up_step o (type g) Ho) as [Hlt Hstep]. cbv zeta in *.
  rewrite align_round_up by lia.
  pose proof (round_up_bounds (round_up o (MemSize (type g)) + MemSize (type g)) 8 ltac:(lia)).
  rewrite uint32_small by lia.
  rewrite IH by lia. reflexivity.
Qed.

Lemma assign_offsets_layout gs : forall o final gs',
  0 <= o -> assign_offsets o gs = (final, gs') ->
  o <= final /\
  length gs' = length gs /\
  (forall (i : nat) g, gs' !! i = Some g ->
     (MemSize (type g) | offset g) /\ o <= offset g /\ global_end g <= final) /\
  (forall (i j : nat) gi gj, (i < j)%nat -> gs' !! i = Some gi -> gs' !! j = Some gj ->
     global_end gi <= offset gj).
Proof.
  induction gs as [|g gs IH]; intros o final gs' Ho E; cbn [assign_offsets] in E.
  - inversion E; subst. repeat split; try lia; intros; simplify_eq/=.
  - destruct (assign_offsets _ gs) as [f r] eqn:Er. inversion E; subst; clear E.
    pose proof (MemSize_range (type g)) as Hr.
    pose proof (round_up_bounds o (MemSize (type g)) ltac:(lia)) as Hb.
    apply IH in Er as (Hf & Hlen & Hall & Hord); [|lia].
    split; [lia|]. split; [simpl; lia|]. split.
    + intros [|i] g' Hg'; simpl in Hg'.
      * inversion Hg'; subst. unfold global_end; simpl.
        split; [apply round_up_divide|lia].
      * destruct (Hall _ _ Hg') as (? & ? & ?). split; [done|lia].
    + intros [|i] [|j] gi gj Hij Hi Hj; simpl in Hi, Hj; try lia.
      * inversion Hi; subst. destruct (Hall _ _ Hj) as (? & ? & ?).
        unfold global_end; simpl. lia.
      * eapply Hord; [|eassumption|eassumption]. lia.
Qed.

Lemma size_fold_max gs : forall acc,
  acc <= fold_left size_step gs acc /\
  (forall (i : nat) g, gs !! i = Some g -> uint32 (global_end g) <= fold_left size_step gs acc) /\
  (fold_left size_step gs acc = acc \/
   exists (i : nat) g, gs !! i = Some g /\ fold_left size_step gs acc = uint32 (global_end g)).
Proof.
  induction gs as [|g gs IH]; intros acc; simpl.
  - split; [lia|]. split; [intros i g Hg; simplify_eq/=|by left].
  - destruct (IH (size_step acc g)) as (Hge & Hall & Hatt).
    assert (Hs : acc <= size_step acc g /\ uint32 (global_end g) <= size_step acc g /\
                 (size_step acc g = acc \/ size_step acc g = uint32 (global_end g))).
    { unfold size_step, global_end. destruct (Z.ltb_spec acc (uint32 (offset g + MemSize (type g)))); lia. }
    destruct Hs as (Hs1 & Hs2 & Hs3).
    split; [lia|]. split.
    + intros [|i] g' Hg'; simpl in Hg'; [inversion Hg'; subst; lia|eauto].
    + destruct Hatt as [Hatt|(i & g' & Hi & Hatt)].
      * destruct Hs3 as [Hs3|Hs3]; [left; congruence|].
        right. exists 0%nat, g. split; [done|congruence].
      * right. exists (S i), g'. split; [done|congruence].
Qed.

Lemma assign_offsets_final_bound gs : forall o,
  0 <= o ->
  round_up (fst (assign_offsets o gs)) 8 <= round_up o 8 + 8 * Z.of_nat (length gs).
Proof.
  induction gs as [|g gs IH]; intros o Ho; cbn [assign_offsets length].
  - simpl. lia.
  - destruct (assign_offsets _ gs) as [f r] eqn:Er.
    pose proof (round_up_step o (type g) Ho) as [Hlt Hstep]. cbv zeta in *.
    specialize (IH (round_up o (MemSize (type g)) + MemSize (type g)) ltac:(lia)).
    rewrite Er in IH. simpl in *. lia.
Qed.

Lemma round_up_0 s : round_up 0 s = 0 \/ s <= 0.
Proof.
  destruct (Z_lt_le_dec 0 s); [left|by right].
  unfold round_up. rewrite Z.div_small by lia. lia.
Qed.

(** The test harness lays globals out exactly as AllocateGlobalsOffsets does. *)
Lemma AddGlobals_allocate ts : forall m m',
  AddGlobals ts m = Some m' ->
  exists gs',
    tm_globals m' = tm_globals m ++ gs' /\
    allocate_loop (global_offset m) (map declare ts) = (global_offset m', gs').
Proof.
  induction ts as [|t ts IH]; intros m m' Hrun; cbn [AddGlobals] in Hrun.
  - simplify_eq. exists []. by rewrite app_nil_r.
  - unfold AddGlobal in Hrun.
    destruct (uint32 (align (global_offset m) (MemSize t) + MemSize t) <? kMaxGlobalsSize);
      cbn in Hrun; [|done].
    apply IH in Hrun as (gs' & Hgs & Hloop). cbn in Hgs, Hloop.
    eexists. split; [by rewrite Hgs, <- app_assoc|].
    cbn [map allocate_loop declare type]. by rewrite Hloop.
Qed.

Lemma allocate_from_zero (gs : list WasmGlobal) :
  8 * Z.of_nat (length gs) < 2 ^ 32 -> allocate_loop 0 gs = assign_offsets 0 gs.
Proof.
  intros Hb. apply allocate_loop_refines; [lia|].
  destruct (round_up_0 8); lia.
Qed.

(** C3: AllocateGlobalsOffsets is the single pass of the spec: for each
    global in order the running offset is rounded up to the global's byte
    size, that value is the global's offset, and the running offset moves on
    by the size.  The 32-bit arithmetic of the code does not wrap for fewer
    than 2^29 globals (a module declares at most 65535). *)
Theorem AllocateGlobalsOffsets_single_pass (gs : list WasmGlobal) :
  8 * Z.of_nat (length gs) < 2 ^ 32 ->
  AllocateGlobalsOffsets (Some gs) =
    (fst (assign_offsets 0 gs), Some (snd (assign_offsets 0 gs))).
Proof.
  intros Hb. unfold AllocateGlobalsOffsets.
  rewrite allocate_from_zero by done. by destruct (assign_offsets 0 gs).
Qed.

Lemma AllocateGlobalsOffsets_single_pass_sample :
  AllocateGlobalsOffsets (Some sample_globals) =
    (24, Some [mkGlobal 0 kMemI8 0 false; mkGlobal 0 kMemI32 4 false;
               mkGlobal 0 kMemU16 8 false; mkGlobal 0 kMemF64 16 false]).
Proof.
  rewrite (AllocateGlobalsOffsets_single_pass sample_globals); [reflexivity|].
  vm_compute. reflexivity.
Defined.

(** C9: after offset assignment every global's offset is a multiple of its
    byte size, the byte ranges of distinct globals are disjoint, and
    ComputeGlobalsSize is the maximum of offset + size, so it covers every
    global (for fewer than 2^29 globals, where the 32-bit offsets do not
    wrap). *)
Theorem globals_layout_well_formed (gs gs' : list WasmGlobal) (final : Z) :
  8 * Z.of_nat (length gs) < 2 ^ 32 ->
  AllocateGlobalsOffsets (Some gs) = (final, Some gs') ->
  (forall (i : nat) g, gs' !! i = Some g ->
     (MemSize (type g) | offset g) /\ 0 <= offset g) /\
  (forall (i j : nat) gi gj, i <> j -> gs' !! i = Some gi -> gs' !! j = Some gj ->
     global_end gi <= offset gj \/ global_end gj <= offset gi) /\
  (forall (i : nat) g, gs' !! i = Some g ->
     global_end g <= ComputeGlobalsSize (Some gs')) /\
  (gs' = [] /\ ComputeGlobalsSize (Some gs') = 0 \/
   exists (i : nat) g, gs' !! i = Some g /\ ComputeGlobalsSize (Some gs') = global_end g).
Proof.
  intros Hb E. unfold AllocateGlobalsOffsets in E.
  rewrite allocate_from_zero in E by done.
  destruct (assign_offsets 0 gs) as [f r] eqn:Er.
  inversion E as [[Hf Hg]]; clear E; subst f r.
  pose proof (assign_offsets_final_bound gs 0 ltac:(lia)) as Hfb. rewrite Er in Hfb; simpl in Hfb.
  destruct (round_up_0 8) as [R0|]; [rewrite R0 in Hfb|lia].
  pose proof (assign_offsets_layout gs 0 final gs' ltac:(lia) Er) as (Hf & Hlen & Hall & Hord).
  pose proof (round_up_bounds final 8 ltac:(lia)) as Hrf.
  assert (Hsmall : forall (i : nat) g, gs' !! i = Some g -> uint32 (global_end g) = global_end g).
  { intros i g Hg. destruct (Hall _ _ Hg) as (_ & ? & ?).
    pose proof (MemSize_range (type g)). apply uint32_small. unfold global_end in *. lia. }
  destruct (size_fold_max gs' 0) as (_ & Hcov & Hatt).
  repeat split.
  - by destruct (Hall _ _ H).
  - by destruct (Hall _ _ H) as (_ & ? & _).
  - intros i j gi gj Hij Hi Hj.
    destruct (Nat.lt_total i j) as [Hlt|[->|Hlt]]; [left|done|right]; eauto.
  - intros i g Hg. rewrite <- (Hsmall _ _ Hg). eauto.
  - destruct Hatt as [Hatt|(i & g & Hg & Hatt)].
    + destruct gs' as [|g0 r]; [by left|right].
      exists 0%nat, g0. split; [done|].
      pose proof (Hcov 0%nat g0 eq_refl) as Hc. rewrite (Hsmall 0%nat g0 eq_refl) in Hc.
      destruct (Hall 0%nat g0 eq_refl) as (_ & ? & _).
      pose proof (MemSize_range (type g0)). unfold ComputeGlobalsSize, global_end in *. lia.
    + right. exists i, g. split; [done|]. unfold ComputeGlobalsSize. rewrite Hatt. eauto.
Qed.

Lemma globals_layout_well_formed_sample :
  let gs' := [mkGlobal 0 kMemI8 0 false; mkGlobal 0 kMemI32 4 false;
              mkGlobal 0 kMemU16 8 false; mkGlobal 0 kMemF64 16 false] in
  (forall (i : nat) g, gs' !! i = Some g ->
     (MemSize (type g) | offset g) /\ 0 <= offset g) /\
  (forall (i j : nat) gi gj, i <> j -> gs' !! i = Some gi -> gs' !! j = Some gj ->
     global_end gi <= offset gj \/ global_end gj <= offset gi) /\
  (forall (i : nat) g, gs' !! i = Some g ->
     global_end g <= ComputeGlobalsSize (Some gs')) /\
  (gs' = [] /\ ComputeGlobalsSize (Some gs') = 0 \/
   exists (i : nat) g, gs' !! i = Some g /\ ComputeGlobalsSize (Some gs') = global_end g).
Proof.
  apply (globals_layout_well_formed sample_globals _ 24).
  - vm_compute. reflexivity.
  - vm_compute. reflexivity.
Defined.

End GlobalsFacts.

(** ** Data segments *)

Module DataSegmentsFacts.
Import Wasm DataSegments.

Lemma LoadDataSegments_passes module_bytes segs : forall mem mem_size,
  is_Passed (LoadDataSegments module_bytes segs mem mem_size)
  = forallb (segment_passes mem_size) segs.
Proof.
  induction segs as [|s segs IH]; intros mem mem_size; [reflexivity|].
  cbn [LoadDataSegments forallb]. unfold segment_passes at 1.
  destruct (init s); cbn [negb orb]; [|apply IH].
  destruct (dest_addr s <? mem_size); cbn [negb andb]; [|reflexivity].
  destruct (source_size s <? mem_size); cbn [negb andb]; [|reflexivity].
  destruct (uint32 _ <? mem_size); cbn [negb andb]; [apply IH|reflexivity].
Qed.

Lemma memcpy_length mem dest mb src n : length (memcpy mem dest mb src n) = length mem.
Proof.
  unfold memcpy. generalize (seq 0 (Z.to_nat n)) as l. intros l. revert mem.
  induction l as [|i l IH]; intros mem; simpl; [done|].
  rewrite IH. by rewrite length_insert.
Qed.

Lemma memcpy_lookup mem dest mb src n (a : nat) :
  0 <= dest -> 0 <= src -> dest + n <= Z.of_nat (length mem) ->
  memcpy mem dest mb src n !! a =
    if decide (dest <= Z.of_nat a < dest + n)
    then Some (mb !!! Z.to_nat (src + (Z.of_nat a - dest)))
    else mem !! a.
Proof.
  intros Hd Hs Hlen. unfold memcpy.
  assert (forall (k : nat) m, (Z.of_nat k <= Z.max n 0) -> length m = length mem ->
     fold_left (fun m (i : nat) =>
               <[Z.to_nat (dest + Z.of_nat i) := mb !!! Z.to_nat (src + Z.of_nat i)]> m)
            (seq 0 k) m !! a =
     if decide (dest <= Z.of_nat a < dest + Z.of_nat k)
     then Some (mb !!! Z.to_nat (src + (Z.of_nat a - dest)))
     else m !! a) as Hk.
  { induction k as [|k IH]; intros m Hkn Hm.
    - simpl. case_decide; [lia|done].
    - rewrite seq_S, fold_left_app. cbn [fold_left Nat.add].
      destruct (decide (Z.of_nat a = dest + Z.of_nat k)) as [E|NE].
      + replace (Z.to_nat (dest + Z.of_nat k)) with a by lia.
        rewrite list_lookup_insert_eq.
        * rewrite decide_True by lia. do 2 f_equal. lia.
        * assert (length (fold_left (fun m (i : nat) =>
               <[Z.to_nat (dest + Z.of_nat i) := mb !!! Z.to_nat (src + Z.of_nat i)]> m)
            (seq 0 k) m) = length m) as ->.
          { clear. generalize (seq 0 k). intros l. revert m.
            induction l; intros; simpl; [done|]. rewrite IHl. by rewrite length_insert. }
          lia.
      + rewrite list_lookup_insert_ne by lia.
        rewrite IH by lia. repeat case_decide; try lia; done. }
  destruct (decide (0 <= n)).
  - rewrite (Hk (Z.to_nat n) mem) by (lia || done). rewrite Z2Nat.id by lia. done.
  - replace (Z.to_nat n) with 0%nat by lia. simpl. rewrite decide_False by lia. done.
Qed.

(** For fields in their [uint32_t] range and a memory of at most 2^31 bytes,
    the three checks pass exactly when the segment ends strictly below
    [mem_size]. *)
Lemma segment_passes_iff mem_size s :
  init s = true -> 0 <= dest_addr s -> 0 <= source_size s -> mem_size <= 2 ^ 31 ->
  segment_passes mem_size s = true <-> dest_addr s + source_size s < mem_size.
Proof.
  intros Hi Hd Hs Hm. unfold segment_passes. rewrite Hi. cbn [negb orb].
  rewrite !andb_true_iff, !Z.ltb_lt. split.
  - intros [[H1 H2] H3]. unfold uint32 in H3. rewrite Z.mod_small in H3 by lia. done.
  - intros Hlt. unfold uint32. rewrite Z.mod_small by lia. lia.
Qed.

(** A segment that ends exactly at [mem_size] fits the memory but fails one of
    the three checks. *)
Lemma exact_fit_is_fatal module_bytes s rest mem mem_size :
  init s = true -> 0 <= dest_addr s -> 0 <= source_size s -> mem_size <= 2 ^ 31 ->
  dest_addr s + source_size s = mem_size ->
  segment_fits mem_size s /\
  is_Passed (LoadDataSegments module_bytes (s :: rest) mem mem_size) = false.
Proof.
  intros Hi Hd Hs Hm Heq. split; [unfold segment_fits; lia|].
  rewrite LoadDataSegments_passes. cbn [forallb].
  destruct (segment_passes mem_size s) eqn:E; [|done].
  apply segment_passes_iff in E; [lia|done..].
Qed.

(** A segment that ends below [mem_size] is copied. *)
Lemma inner_segment_is_copied module_bytes s mem mem_size :
  init s = true -> 0 <= dest_addr s -> 0 <= source_size s -> mem_size <= 2 ^ 31 ->
  dest_addr s + source_size s < mem_size ->
  LoadDataSegments module_bytes [s] mem mem_size =
    Passed (memcpy mem (dest_addr s) module_bytes (source_offset s) (source_size s)).
Proof.
  intros Hi Hd Hs Hm Hlt. cbn [LoadDataSegments]. rewrite Hi. cbn [negb].
  replace (dest_addr s <? mem_size) with true by lia.
  replace (source_size s <? mem_size) with true by lia.
  unfold uint32. rewrite Z.mod_small by lia.
  replace (dest_addr s + source_size s <? mem_size) with true by lia. reflexivity.
Qed.

(** C1: the code at the input the claim accepts.  In a 16-byte memory the
    initialised segment with [dest_addr = 8] and [source_size = 8] ends exactly
    at [mem_size]: it fits, and LoadDataSegments aborts on its third
    [CHECK_LT]; the same segment one byte shorter is copied. *)
Theorem LoadDataSegments_rejects_exact_fit :
  segment_fits 16 exact_fit_segment /\
  LoadDataSegments sample_module_bytes [exact_fit_segment] zero_memory 16 =
    Fatal "CHECK_LT(segment.dest_addr + segment.source_size, mem_size)" /\
  LoadDataSegments sample_module_bytes [inner_segment] zero_memory 16 =
    Passed (mk_bytes [0; 0; 0; 0; 0; 0; 0; 0; 17; 34; 51; 68; 85; 102; 119; 0]%N).
Proof.
  split.
  - apply (exact_fit_is_fatal sample_module_bytes exact_fit_segment [] zero_memory 16);
      cbn; lia.
  - split; [reflexivity|].
    rewrite inner_segment_is_copied by (cbn; lia). reflexivity.
Qed.

End DataSegmentsFacts.

(** ** The module decoder *)

Module DecoderFacts.
Import Wasm Decoder.


Lemma byte_val_range b : 0 <= byte_val b < 256.
Proof.
  unfold byte_val. pose proof (Byte.to_N_bounded b). lia.
Qed.

Lemma deref_range d p : 0 <= deref d p < 256.
Proof. apply byte_val_range. Qed.

Lemma land_shifted_low a b n : 0 <= n -> 0 <= b < 2 ^ n -> Z.land (a * 2 ^ n) b = 0.
Proof.
  intros Hn Hb.
  rewrite <- (Z.mod_small b (2 ^ n)) by lia.
  rewrite <- Z.land_ones by lia.
  rewrite (Z.land_comm b), Z.land_assoc, Z.land_ones by lia.
  rewrite Z.mod_mul by lia. apply Z.land_0_l.
Qed.

Lemma lor_shifted_low a b n : 0 <= n -> 0 <= b < 2 ^ n -> Z.lor (a * 2 ^ n) b = a * 2 ^ n + b.
Proof.
  intros Hn Hb. pose proof (Z.add_lor_land (a * 2 ^ n) b) as E.
  rewrite land_shifted_low in E by lia. lia.
Qed.

Lemma u16_value b0 b1 :
  0 <= b0 < 256 -> 0 <= b1 < 256 ->
  Z.lor (uint16 (Z.shiftl b1 8)) b0 = b0 + 256 * b1.
Proof.
  intros H0 H1. unfold uint16. rewrite Z.shiftl_mul_pow2 by lia.
  rewrite Z.mod_small by lia.
  rewrite lor_shifted_low by lia. lia.
Qed.

Lemma u32_value b0 b1 b2 b3 :
  0 <= b0 < 256 -> 0 <= b1 < 256 -> 0 <= b2 < 256 -> 0 <= b3 < 256 ->
  Z.lor (Z.lor (Z.lor (uint32 (Z.shiftl b3 24)) (uint32 (Z.shiftl b2 16)))
               (uint32 (Z.shiftl b1 8))) b0
  = b0 + 256 * (b1 + 256 * (b2 + 256 * b3)).
Proof.
  intros H0 H1 H2 H3. unfold uint32. rewrite !Z.shiftl_mul_pow2 by lia.
  rewrite !Z.mod_small by lia.
  rewrite (lor_shifted_low b3 (b2 * 2 ^ 16) 24) by lia.
  replace (b3 * 2 ^ 24 + b2 * 2 ^ 16) with ((b3 * 2 ^ 8 + b2) * 2 ^ 16) by lia.
  rewrite (lor_shifted_low _ (b1 * 2 ^ 8) 16) by lia.
  replace ((b3 * 2 ^ 8 + b2) * 2 ^ 16 + b1 * 2 ^ 8)
    with ((b3 * 2 ^ 16 + b2 * 2 ^ 8 + b1) * 2 ^ 8) by lia.
  rewrite lor_shifted_low by lia. lia.
Qed.

Ltac run_step := unfold mbind, M_bind, mret, M_ret; cbn [run].

Lemma checkAvailable_run size d :
  run (checkAvailable size) d =
    if short d size then (false, truncated size d) else (true, d).
Proof.
  unfold checkAvailable, out_of_range, get_cur, error, truncated, short. run_step.
  destruct (_ || _); [|reflexivity]. cbn [run]. destruct (ok d); reflexivity.
Qed.

Lemma u8_run d :
  run u8 d = if short d 1 then (0, truncated 1 d)
             else (little_endian d (cur_ d) 1, set_cur d (cur_ d + 1)).
Proof.
  unfold u8. run_step. rewrite checkAvailable_run.
  destruct (short d 1); [reflexivity|]. cbn [run peek advance little_endian]. rewrite Z.add_0_r. f_equal. lia.
Qed.

Lemma u16_run d :
  run u16 d = if short d 2 then (0, truncated 2 d)
              else (little_endian d (cur_ d) 2, set_cur d (cur_ d + 2)).
Proof.
  unfold u16. run_step. rewrite checkAvailable_run.
  destruct (short d 2); [reflexivity|]. cbn [run peek advance little_endian].
  rewrite u16_value by apply deref_range. f_equal.
  rewrite Z.add_0_r. lia.
Qed.

Lemma u32_run d :
  run u32 d = if short d 4 then (0, truncated 4 d)
              else (little_endian d (cur_ d) 4, set_cur d (cur_ d + 4)).
Proof.
  unfold u32. run_step. rewrite checkAvailable_run.
  destruct (short d 4); [reflexivity|]. cbn [run peek advance little_endian].
  rewrite u32_value by apply deref_range. f_equal.
  rewrite Z.add_0_r, <- !Z.add_assoc. change (1 + (1 + 1)) with 3. change (1 + 1) with 2. lia.
Qed.

Lemma truncated_facts size d :
  cur_ (truncated size d) = cur_ d /\
  failed (truncated size d) = true /\
  (failed d = true -> truncated size d = d) /\
  (ok d = true ->
   result_ (truncated size d) =
     {| error_code := kError; start := start (result_ d);
        error_pc := Some (cur_ d); error_pt := None;
        error_msg := Some ("expected " ++ decimal size ++ " bytes, fell off end")%string |}).
Proof.
  unfold truncated, failed. destruct (ok d) eqn:E; cbn; rewrite ?E; repeat split; try done.
Qed.

Lemma failed_result d d' : result_ d' = result_ d -> failed d' = failed d.
Proof. unfold failed, ok. by intros ->. Qed.

Lemma few_ret {A} (a : A) : first_error_wins (mret a).
Proof. by intros d Hd. Qed.

Lemma few_bind {A B} (m : M A) (k : A -> M B) :
  first_error_wins m -> (forall a, first_error_wins (k a)) -> first_error_wins (m ≫= k).
Proof.
  intros Hm Hk d Hd. run_step. specialize (Hm d Hd).
  destruct (run m d) as [a d'] eqn:E. cbn [snd] in Hm.
  rewrite (Hk a d'); [done|]. by rewrite (failed_result _ _ Hm).
Qed.

Lemma few_error pc msg pt : first_error_wins (error pc msg pt).
Proof.
  intros d Hd. unfold error. cbn [run]. unfold failed in Hd.
  destruct (ok d); [done|reflexivity].
Qed.

Lemma few_state {A} (f : ModuleDecoder -> A) (g : ModuleDecoder -> ModuleDecoder) :
  (forall d, result_ (g d) = result_ d) -> first_error_wins (Act (fun d => (f d, g d))).
Proof. intros Hg d _. apply Hg. Qed.

Lemma few_guard (c : bool) (m : M unit) :
  first_error_wins (good ← is_ok; if (good : bool) && c then m else mret tt).
Proof.
  intros d Hd. unfold is_ok. run_step. unfold failed in Hd.
  destruct (ok d); [done|reflexivity].
Qed.

Lemma few_guard_ok (m : M unit) (k : M unit) :
  first_error_wins k ->
  first_error_wins (good ← is_ok; if (good : bool) then m else k).
Proof.
  intros Hk d Hd. unfold is_ok. run_step. unfold failed in Hd.
  destruct (ok d) eqn:E; [done|]. apply Hk. unfold failed. by rewrite E.
Qed.

Lemma few_guard_then {B} (c : bool) (m : M unit) (k : M B) :
  first_error_wins k ->
  first_error_wins (good ← is_ok; (if (good : bool) && c then m else mret tt);; k).
Proof.
  intros Hk d Hd. unfold is_ok. run_step. pose proof Hd as Hd'. unfold failed in Hd'.
  destruct (ok d); [done|]. cbn [andb run]. by apply Hk.
Qed.

Create HintDb few discriminated.
#[local] Hint Resolve few_ret few_error : few.

Ltac few_prim := apply few_state; intros; reflexivity.
Ltac few :=
  repeat first
    [ apply few_ret
    | apply few_error
    | apply few_bind; [|intros ?]
    | few_prim
    | match goal with
      | |- first_error_wins (match ?x with _ => _ end) => destruct x
      end
    | solve [eauto with few] ].

Lemma few_checkAvailable size : first_error_wins (checkAvailable size).
Proof. unfold checkAvailable, out_of_range, get_cur. few. Qed.
#[local] Hint Resolve few_checkAvailable : few.

Lemma few_u8 : first_error_wins u8.
Proof. unfold u8, peek, advance. few. Qed.
Lemma few_u16 : first_error_wins u16.
Proof. unfold u16, peek, advance. few. Qed.
Lemma few_u32 : first_error_wins u32.
Proof. unfold u32, peek, advance. few. Qed.
#[local] Hint Resolve few_u8 few_u16 few_u32 : few.

Lemma few_offset : first_error_wins offset.
Proof. unfold offset, extent, get_cur. few. Qed.
#[local] Hint Resolve few_offset : few.

Section DecoderLatch.
Context `{WasmExternals}.

Lemma few_local_type : first_error_wins local_type.
Proof. unfold local_type, get_cur. few. Qed.

Lemma few_mem_type : first_error_wins mem_type.
Proof. unfold mem_type, get_cur. few. Qed.

Lemma few_sig_params_loop n : first_error_wins (sig_params_loop n).
Proof.
  induction n as [|n IH]; cbn [sig_params_loop]; [few|].
  apply few_bind; [apply few_local_type|intros param].
  apply few_bind; [unfold get_cur; few|intros _].
  apply few_bind; [exact IH|intros rest]. few.
Qed.

Lemma few_sig : first_error_wins sig.
Proof.
  unfold sig. apply few_bind; [few|intros count].
  apply few_bind; [apply few_local_type|intros r].
  apply few_bind; [apply few_sig_params_loop|intros p]. few.
Qed.

Lemma few_DecodeGlobalInModule : first_error_wins DecodeGlobalInModule.
Proof.
  unfold DecodeGlobalInModule, string_.
  apply few_bind; [few|intros ?]. apply few_bind; [apply few_mem_type|intros ?]. few.
Qed.

Lemma few_DecodeFunctionInModule : first_error_wins DecodeFunctionInModule.
Proof.
  unfold DecodeFunctionInModule, string_.
  apply few_bind; [apply few_sig|intros ?]. few.
Qed.

Lemma few_DecodeDataSegmentInModule : first_error_wins DecodeDataSegmentInModule.
Proof. unfold DecodeDataSegmentInModule. few. Qed.

Lemma few_decode_globals n : forall acc, first_error_wins (decode_globals n acc).
Proof.
  induction n as [|n IH]; intros acc; cbn [decode_globals]; [few|].
  apply few_bind; [unfold is_failed; few|intros stop]. destruct stop; [few|].
  apply few_bind; [apply few_DecodeGlobalInModule|intros g]. apply IH.
Qed.

Lemma few_decode_segments n : forall acc, first_error_wins (decode_segments n acc).
Proof.
  induction n as [|n IH]; intros acc; cbn [decode_segments]; [few|].
  apply few_bind; [unfold is_failed; few|intros stop]. destruct stop; [few|].
  apply few_bind; [apply few_DecodeDataSegmentInModule|intros g]. apply IH.
Qed.

Lemma few_decode_functions v module n : forall i acc,
  first_error_wins (decode_functions v module n i acc).
Proof.
  induction n as [|n IH]; intros i acc; cbn [decode_functions]; [few|].
  apply few_bind; [unfold is_failed; few|intros stop]. destruct stop; [few|].
  apply few_bind; [apply few_DecodeFunctionInModule|intros f].
  apply few_guard_then, IH.
Qed.

End DecoderLatch.

Lemma few_guard_ok_then {B} (m : M unit) (k : M B) :
  first_error_wins k ->
  first_error_wins (good ← is_ok; (if (good : bool) then m else mret tt);; k).
Proof.
  intros Hk d Hd. unfold is_ok. run_step. pose proof Hd as Hd'. unfold failed in Hd'.
  destruct (ok d); [done|]. cbn [andb run]. by apply Hk.
Qed.

Section DecoderEntryPoints.
Context `{WasmExternals}.

Lemma few_DecodeModule v : first_error_wins (DecodeModule v).
Proof.
  unfold DecodeModule, get_start, get_end, rewind_to, get_result.
  do 8 (apply few_bind; [few|intros ?]).
  apply few_bind; [apply few_decode_globals|intros ?].
  apply few_bind; [apply few_decode_functions|intros ?].
  apply few_bind; [apply few_decode_segments|intros ?]. few.
Qed.

Lemma few_DecodeSingleFunction env : first_error_wins (DecodeSingleFunction env).
Proof.
  unfold DecodeSingleFunction, get_start, get_end, rewind_to, get_result, get_cur.
  do 3 (apply few_bind; [few|intros ?]).
  apply few_bind; [apply few_sig|intros ?].
  do 5 (apply few_bind; [few|intros ?]).
  apply few_guard_ok_then. few.
Qed.

Lemma few_DecodeFunctionSignature p : first_error_wins (DecodeFunctionSignature p).
Proof.
  unfold DecodeFunctionSignature, rewind_to, is_ok.
  apply few_bind; [few|intros ?].
  apply few_bind; [apply few_sig|intros ?]. few.
Qed.

Lemma reports_bind {A B} (m : M A) (k : A -> M (B * Result)) :
  (forall a, reports_latch (k a)) -> reports_latch (m ≫= k).
Proof.
  intros Hk d. run_step. destruct (run m d) as [a d']. apply Hk.
Qed.

Lemma reports_get_result {A} (a : A) :
  reports_latch (result ← get_result; mret (a, result)).
Proof. by intros d. Qed.

Lemma reports_DecodeModule v : reports_latch (DecodeModule v).
Proof.
  unfold DecodeModule. repeat first [apply reports_get_result | apply reports_bind; intros ?].
Qed.

Lemma reports_DecodeSingleFunction env : reports_latch (DecodeSingleFunction env).
Proof.
  unfold DecodeSingleFunction. repeat first [apply reports_get_result | apply reports_bind; intros ?].
Qed.

End DecoderEntryPoints.

(** C2 (as the code has it): a read that finds fewer bytes than its width
    returns 0, leaves the position where it is and latches the truncation
    error unless an error is latched already; a read that finds its bytes
    returns their little-endian value and advances by its width, whether or
    not an error is latched. *)
Theorem reads_latch_on_shortage (d : ModuleDecoder) :
  run u8 d = (if short d 1 then (0, truncated 1 d)
              else (little_endian d (cur_ d) 1, set_cur d (cur_ d + 1))) /\
  run u16 d = (if short d 2 then (0, truncated 2 d)
               else (little_endian d (cur_ d) 2, set_cur d (cur_ d + 2))) /\
  run u32 d = (if short d 4 then (0, truncated 4 d)
               else (little_endian d (cur_ d) 4, set_cur d (cur_ d + 4))) /\
  (forall size,
     cur_ (truncated size d) = cur_ d /\
     failed (truncated size d) = true /\
     (failed d = true -> truncated size d = d) /\
     (ok d = true ->
      result_ (truncated size d) =
        {| error_code := kError; start := start (result_ d);
           error_pc := Some (cur_ d); error_pt := None;
           error_msg := Some ("expected " ++ decimal size ++ " bytes, fell off end")%string |})).
Proof.
  split; [apply u8_run|]. split; [apply u16_run|]. split; [apply u32_run|].
  intros size. apply truncated_facts.
Qed.

(** C2 fails as stated: after the out-of-bounds offset has latched its error,
    [u8] still returns the next byte, 42, and advances. *)
Lemma reads_do_not_short_circuit :
  failed after_bad_offset = true /\
  run u8 after_bad_offset = (42, set_cur after_bad_offset 1005) /\
  run u16 after_bad_offset = (298, set_cur after_bad_offset 1006) /\
  ~ reads_short_circuit after_bad_offset.
Proof.
  assert (Hf : failed after_bad_offset = true) by reflexivity.
  assert (H8 : run u8 after_bad_offset = (42, set_cur after_bad_offset 1005))
    by (rewrite u8_run; reflexivity).
  split; [exact Hf|]. split; [exact H8|]. split; [rewrite u16_run; reflexivity|].
  intros Hc. destruct (Hc Hf) as (E & _). rewrite H8 in E. discriminate E.
Qed.

(** C7: with no error latched and four bytes available, [offset] returns the
    little-endian u32 at the position and advances by four; it latches
    its out-of-bounds error exactly when that value is greater than
    [end_ - start_], a value equal to it is accepted, and the recorded pc is
    the position the u32 was read from. *)
Theorem offset_bounds_check (d : ModuleDecoder) :
  ok d = true -> short d 4 = false ->
  let value := little_endian d (cur_ d) 4 in
  let extent := end_ d - start_ d in
  let out_of_bounds :=
    set_result (set_cur d (cur_ d + 4))
      {| error_code := kError; start := start (result_ d);
         error_pc := Some (cur_ d); error_pt := None;
         error_msg := Some "offset out of bounds of module"%string |} in
  0 <= value < 2 ^ 32 /\
  (value <= extent -> run offset d = (value, set_cur d (cur_ d + 4))) /\
  (value > extent -> run offset d = (value, out_of_bounds)) /\
  (failed (run offset d).2 = true <-> value > extent).
Proof.
  intros Hok Hav value ext oob.
  assert (Hrange : 0 <= value < 2 ^ 32).
  { subst value. cbn [little_endian].
    pose proof (deref_range d (cur_ d)). pose proof (deref_range d (cur_ d + 1)).
    pose proof (deref_range d (cur_ d + 1 + 1)). pose proof (deref_range d (cur_ d + 1 + 1 + 1)).
    lia. }
  assert (Hrun : run offset d =
                 (value, if ext <? value then oob else set_cur d (cur_ d + 4))).
  { unfold offset. run_step. rewrite u32_run, Hav. cbn [run extent set_cur end_ start_].
    fold ext. fold value. destruct (ext <? value); [|reflexivity].
    unfold get_cur, error. run_step. unfold ok in Hok |- *. cbn [set_cur result_ cur_].
    destruct (error_code (result_ d)); [|discriminate Hok].
    subst oob. replace (cur_ d + 4 - 4) with (cur_ d) by lia. reflexivity. }
  split; [exact Hrange|]. rewrite Hrun.
  destruct (Z.ltb_spec ext value) as [Hlt|Hge].
  - split; [lia|]. split; [done|]. split; [lia|by intros _].
  - split; [done|]. split; [lia|]. cbn [snd].
    change (failed (set_cur d (cur_ d + 4))) with (negb (ok d)). rewrite Hok.
    split; [intros E; discriminate E|lia].
Qed.

Lemma offset_bounds_check_at_full_offset :
  ok at_full_offset = true /\ short at_full_offset 4 = false /\
  run offset at_full_offset = (8, set_cur at_full_offset 1004) /\
  failed (run offset at_full_offset).2 = false.
Proof.
  pose proof (offset_bounds_check at_full_offset eq_refl eq_refl) as (Hr & Hle & Hgt & Hiff).
  split; [reflexivity|]. split; [reflexivity|].
  assert (Hrun : run offset at_full_offset = (8, set_cur at_full_offset 1004)).
  { apply Hle. vm_compute. intros E. discriminate E. }
  split; [exact Hrun|]. rewrite Hrun. reflexivity.
Defined.

Lemma offset_bounds_check_past_the_end :
  let d := new_ModuleDecoder bad_offset_bytes 1000 1008 in
  run offset d =
    (4294967295,
     set_result (set_cur d 1004)
       {| error_code := kError; start := 1000; error_pc := Some 1000; error_pt := None;
          error_msg := Some "offset out of bounds of module"%string |}).
Proof. vm_compute. reflexivity. Qed.

End DecoderFacts.


(** ** The decoder step by step *)

Module DecoderStepsFacts.
Import Wasm Decoder DecoderSteps DecoderFacts.

(** *** The scripts are the member functions *)

Lemma same_refl {A} (m : M A) : same m m.
Proof. by intros d. Qed.

Lemma same_bind {A B} (m m' : M A) (k k' : A -> M B) :
  same m m' -> (forall a, same (k a) (k' a)) -> same (m ≫= k) (m' ≫= k').
Proof.
  intros Hm Hk d. run_step. rewrite (Hm d). destruct (run m' d) as [a d']. apply Hk.
Qed.

Lemma perform_bind {A B} (p : Script A) (k : A -> Script B) :
  perform (p ≫= k) = perform p ≫= fun a => perform (k a).
Proof. reflexivity. Qed.

Lemma perform_ret {A} (a : A) : perform (mret a) = mret a.
Proof. reflexivity. Qed.

Ltac same_step :=
  first
    [ apply same_refl
    | rewrite perform_bind; apply same_bind; [|intros ?]
    | match goal with
      | |- same (perform (if ?c then _ else _)) _ => destruct c
      | |- same (perform (match ?c with _ => _ end)) _ => destruct c
      end ].

Lemma same_checkAvailable size : same (perform (checkAvailable_steps size)) (checkAvailable size).
Proof. unfold checkAvailable_steps, checkAvailable. repeat same_step. Qed.

Lemma same_u8 : same (perform u8_steps) u8.
Proof.
  unfold u8_steps, u8. rewrite perform_bind. apply same_bind; [apply same_checkAvailable|].
  intros ?. repeat same_step.
Qed.

Lemma same_u16 : same (perform u16_steps) u16.
Proof.
  unfold u16_steps, u16. rewrite perform_bind. apply same_bind; [apply same_checkAvailable|].
  intros ?. repeat same_step.
Qed.

Lemma same_u32 : same (perform u32_steps) u32.
Proof.
  unfold u32_steps, u32. rewrite perform_bind. apply same_bind; [apply same_checkAvailable|].
  intros ?. repeat same_step.
Qed.

Lemma same_offset : same (perform offset_steps) offset.
Proof.
  unfold offset_steps, offset. rewrite perform_bind. apply same_bind; [apply same_u32|].
  intros ?. repeat same_step.
Qed.

Section Same.
Context `{WasmExternals}.

Lemma same_local_type : same (perform local_type_steps) local_type.
Proof.
  unfold local_type_steps, local_type. rewrite perform_bind. apply same_bind; [apply same_u8|].
  intros ?. repeat same_step.
Qed.

Lemma same_mem_type : same (perform mem_type_steps) mem_type.
Proof.
  unfold mem_type_steps, mem_type. rewrite perform_bind. apply same_bind; [apply same_u8|].
  intros ?. repeat same_step.
Qed.

Lemma same_sig_params_loop count :
  same (perform (sig_params_loop_steps count)) (sig_params_loop count).
Proof.
  induction count as [|count IH]; cbn [sig_params_loop_steps sig_params_loop];
    [apply same_refl|].
  rewrite perform_bind. apply same_bind; [apply same_local_type|]. intros param.
  rewrite perform_bind. apply same_bind; [repeat same_step|]. intros _.
  rewrite perform_bind. apply same_bind; [exact IH|]. intros ?. apply same_refl.
Qed.

Lemma same_sig : same (perform sig_steps) sig.
Proof.
  unfold sig_steps, sig. rewrite perform_bind. apply same_bind; [apply same_u8|]. intros ?.
  rewrite perform_bind. apply same_bind; [apply same_local_type|]. intros ?.
  rewrite perform_bind. apply same_bind; [apply same_sig_params_loop|]. intros ?.
  apply same_refl.
Qed.

Ltac same_seq :=
  repeat first
    [ rewrite perform_bind; apply same_bind;
      [first [ apply same_u8 | apply same_u16 | apply same_u32 | apply same_offset
             | apply same_sig | apply same_mem_type | apply same_local_type
             | apply same_refl ]
      | intros ? ]
    | apply same_refl ].

Lemma same_DecodeGlobalInModule :
  same (perform DecodeGlobalInModule_steps) DecodeGlobalInModule.
Proof. unfold DecodeGlobalInModule_steps, DecodeGlobalInModule, string_steps, string_. same_seq. Qed.

Lemma same_DecodeFunctionInModule :
  same (perform DecodeFunctionInModule_steps) DecodeFunctionInModule.
Proof.
  unfold DecodeFunctionInModule_steps, DecodeFunctionInModule, string_steps, string_. same_seq.
Qed.

Lemma same_DecodeDataSegmentInModule :
  same (perform DecodeDataSegmentInModule_steps) DecodeDataSegmentInModule.
Proof. unfold DecodeDataSegmentInModule_steps, DecodeDataSegmentInModule. same_seq. Qed.

Lemma same_VerifyFunctionBody i env f :
  same (perform (VerifyFunctionBody_steps i env f)) (VerifyFunctionBody i env f).
Proof.
  unfold VerifyFunctionBody_steps, VerifyFunctionBody. cbv zeta.
  rewrite perform_bind. apply same_bind; [apply same_refl|]. intros mem.
  rewrite perform_bind. apply same_bind; [apply same_refl|]. intros base.
  destruct (error_code _); apply same_refl.
Qed.

Lemma same_decode_globals count : forall globals,
  same (perform (decode_globals_steps count globals)) (decode_globals count globals).
Proof.
  induction count as [|count IH]; intros globals; cbn [decode_globals_steps decode_globals];
    [apply same_refl|].
  rewrite perform_bind. apply same_bind; [apply same_refl|]. intros [|]; [apply same_refl|].
  rewrite perform_bind. apply same_bind; [apply same_DecodeGlobalInModule|]. intros ?. apply IH.
Qed.

Lemma same_decode_segments count : forall segments,
  same (perform (decode_segments_steps count segments)) (decode_segments count segments).
Proof.
  induction count as [|count IH]; intros segments;
    cbn [decode_segments_steps decode_segments]; [apply same_refl|].
  rewrite perform_bind. apply same_bind; [apply same_refl|]. intros [|]; [apply same_refl|].
  rewrite perform_bind. apply same_bind; [apply same_DecodeDataSegmentInModule|].
  intros ?. apply IH.
Qed.

Lemma same_decode_functions v module count : forall i functions,
  same (perform (decode_functions_steps v module count i functions))
       (decode_functions v module count i functions).
Proof.
  induction count as [|count IH]; intros i functions;
    cbn [decode_functions_steps decode_functions]; [apply same_refl|].
  rewrite perform_bind. apply same_bind; [apply same_refl|]. intros [|]; [apply same_refl|].
  rewrite perform_bind. apply same_bind; [apply same_DecodeFunctionInModule|].
  intros function. cbv zeta.
  rewrite perform_bind. apply same_bind; [apply same_refl|]. intros good.
  rewrite perform_bind. apply same_bind; [|intros _; apply IH].
  destruct (good && v); [|apply same_refl].
  destruct (external function); [apply same_refl|apply same_VerifyFunctionBody].
Qed.

Lemma same_DecodeModule v : same (perform (DecodeModule_steps v)) (DecodeModule v).
Proof.
  unfold DecodeModule_steps, DecodeModule.
  do 3 (rewrite perform_bind; apply same_bind; [apply same_refl|intros ?]).
  rewrite perform_bind; apply same_bind; [apply same_u8|intros ?].
  rewrite perform_bind; apply same_bind; [apply same_u8|intros ?].
  do 3 (rewrite perform_bind; apply same_bind; [apply same_u16|intros ?]).
  rewrite perform_bind; apply same_bind; [apply same_decode_globals|intros ?]. cbv zeta.
  rewrite perform_bind; apply same_bind; [apply same_decode_functions|intros ?].
  rewrite perform_bind; apply same_bind; [apply same_decode_segments|intros ?].
  rewrite perform_bind; apply same_bind; [apply same_refl|intros ?]. apply same_refl.
Qed.

Lemma same_DecodeSingleFunction env :
  same (perform (DecodeSingleFunction_steps env)) (DecodeSingleFunction env).
Proof.
  unfold DecodeSingleFunction_steps, DecodeSingleFunction.
  do 3 (rewrite perform_bind; apply same_bind; [apply same_refl|intros ?]).
  rewrite perform_bind; apply same_bind; [apply same_sig|intros ?].
  rewrite perform_bind; apply same_bind; [apply same_refl|intros ?]. cbv zeta.
  do 4 (rewrite perform_bind; apply same_bind; [apply same_u16|intros ?]).
  rewrite perform_bind; apply same_bind; [apply same_refl|intros good].
  rewrite perform_bind; apply same_bind;
    [destruct good; [apply same_VerifyFunctionBody|apply same_refl]|intros ?].
  rewrite perform_bind; apply same_bind; [apply same_refl|intros ?]. apply same_refl.
Qed.

Lemma same_DecodeFunctionSignature start :
  same (perform (DecodeFunctionSignature_steps start)) (DecodeFunctionSignature start).
Proof.
  unfold DecodeFunctionSignature_steps, DecodeFunctionSignature.
  rewrite perform_bind; apply same_bind; [apply same_refl|intros ?].
  rewrite perform_bind; apply same_bind; [apply same_sig|intros ?].
  rewrite perform_bind; apply same_bind; [apply same_refl|intros ?]. apply same_refl.
Qed.

End Same.

(** *** An error once latched is there to stay *)

Lemma chain_app d l1 l2 :
  chain d (l1 ++ l2) <-> chain d l1 /\ chain (default d (last l1)) l2.
Proof.
  revert d. induction l1 as [|d1 l1 IH]; intros d; cbn [app chain].
  - cbn. tauto.
  - rewrite IH. destruct l1 as [|d2 l1]; [cbn; tauto|].
    rewrite last_cons_cons. cbn [last default]. unfold default. cbn [chain].
    destruct (last (d2 :: l1)) eqn:El; [tauto|]. by apply last_None in El.
Qed.

Lemma chain_last d l :
  chain d l -> forall d1, d1 ∈ d :: l -> failed d1 = true ->
  result_ (default d (last l)) = result_ d1.
Proof.
  revert d. induction l as [|d2 l IH]; intros d Hc d1 Hin Hf.
  - apply list_elem_of_singleton in Hin as ->. reflexivity.
  - destruct Hc as [Hk Hc]. specialize (IH d2 Hc).
    assert (default d (last (d2 :: l)) = default d2 (last l)) as ->.
    { destruct l as [|d3 l]; [done|]. rewrite last_cons_cons.
      destruct (last (d3 :: l)) eqn:El; [done|]. by apply last_None in El. }
    apply elem_of_cons in Hin as [->|Hin]; [|by apply IH].
    rewrite (IH d2); [by apply Hk|apply elem_of_cons; by left|].
    unfold failed, ok in *. by rewrite (Hk Hf).
Qed.

Lemma perform_final {A} (p : Script A) : forall d,
  (run (perform p) d).2 = default d (last (states p d)).
Proof.
  induction p as [A a|A a|A B p IHp k IHk]; intros d; cbn [perform states]; [done|done|].
  run_step. destruct (run (perform p) d) as [a d'] eqn:E. cbn [fst snd].
  rewrite IHk. pose proof (IHp d) as Hp. rewrite E in Hp. cbn [snd] in Hp.
  rewrite last_app. destruct (last (states (k a) d')); [done|]. cbn. exact Hp.
Qed.

Lemma steady_latched {A} (p : Script A) d :
  steady p d -> forall d1, d1 ∈ d :: states p d -> failed d1 = true ->
  result_ (run (perform p) d).2 = result_ d1.
Proof. intros Hs d1 Hin Hf. rewrite perform_final. by apply chain_last. Qed.

Lemma steady_ret {A} (a : A) d : steady (mret a) d.
Proof. exact I. Qed.

Lemma steady_bind {A B} (p : Script A) (k : A -> Script B) d :
  steady p d -> steady (k (run (perform p) d).1) (run (perform p) d).2 ->
  steady (p ≫= k) d.
Proof.
  intros Hp Hk. unfold steady. change (p ≫= k) with (Seq p k). cbn [states].
  apply chain_app. split; [exact Hp|]. by rewrite <- perform_final.
Qed.

Lemma steady_Do {A} (a : Access A) d :
  writes_result a = false -> steady (Do a) d.
Proof.
  intros Ha. unfold steady. cbn [states chain]. split; [|done]. intros Hf.
  destruct a; try done; cbn [access]; try reflexivity.
  by apply few_error.
Qed.

(** A direct write of the result is in order while no error is latched. *)
Lemma steady_PutResult r d : ok d = true -> steady (Do (PutResult r)) d.
Proof.
  intros Hok. unfold steady. cbn [states chain]. split; [|done].
  unfold failed. by rewrite Hok.
Qed.

Lemma steady_all_bind {A B} (p : Script A) (k : A -> Script B) :
  steady_all p -> (forall a, steady_all (k a)) -> steady_all (p ≫= k).
Proof. intros Hp Hk d. apply steady_bind; [apply Hp|apply Hk]. Qed.

Lemma steady_all_Do {A} (a : Access A) : writes_result a = false -> steady_all (Do a).
Proof. intros Ha d. by apply steady_Do. Qed.

Lemma steady_all_ret {A} (a : A) : steady_all (mret a).
Proof. intros d. apply steady_ret. Qed.

Ltac steady_step :=
  first
    [ apply steady_all_ret
    | apply steady_all_Do; reflexivity
    | apply steady_all_bind; [|intros ?]
    | match goal with
      | |- steady_all (if ?c then _ else _) => destruct c
      | |- steady_all (match ?c with _ => _ end) => destruct c
      end ].

Lemma steady_checkAvailable size : steady_all (checkAvailable_steps size).
Proof. unfold checkAvailable_steps. repeat steady_step. Qed.

Lemma steady_u8 : steady_all u8_steps.
Proof.
  unfold u8_steps. apply steady_all_bind; [apply steady_checkAvailable|intros ?].
  repeat steady_step.
Qed.

Lemma steady_u16 : steady_all u16_steps.
Proof.
  unfold u16_steps. apply steady_all_bind; [apply steady_checkAvailable|intros ?].
  repeat steady_step.
Qed.

Lemma steady_u32 : steady_all u32_steps.
Proof.
  unfold u32_steps. apply steady_all_bind; [apply steady_checkAvailable|intros ?].
  repeat steady_step.
Qed.

Lemma steady_offset : steady_all offset_steps.
Proof.
  unfold offset_steps. apply steady_all_bind; [apply steady_u32|intros ?].
  repeat steady_step.
Qed.

Section Steady.
Context `{WasmExternals}.

Lemma steady_local_type : steady_all local_type_steps.
Proof.
  unfold local_type_steps. apply steady_all_bind; [apply steady_u8|intros ?].
  repeat steady_step.
Qed.

Lemma steady_mem_type : steady_all mem_type_steps.
Proof.
  unfold mem_type_steps. apply steady_all_bind; [apply steady_u8|intros ?].
  repeat steady_step.
Qed.

Lemma steady_sig_params_loop count : steady_all (sig_params_loop_steps count).
Proof.
  induction count as [|count IH]; cbn [sig_params_loop_steps]; [apply steady_all_ret|].
  apply steady_all_bind; [apply steady_local_type|intros param].
  apply steady_all_bind; [repeat steady_step|intros _].
  apply steady_all_bind; [exact IH|intros ?]. apply steady_all_ret.
Qed.

Lemma steady_sig : steady_all sig_steps.
Proof.
  unfold sig_steps. apply steady_all_bind; [apply steady_u8|intros ?].
  apply steady_all_bind; [apply steady_local_type|intros ?].
  apply steady_all_bind; [apply steady_sig_params_loop|intros ?]. apply steady_all_ret.
Qed.

Ltac steady_seq :=
  repeat first
    [ apply steady_all_ret
    | apply steady_all_Do; reflexivity
    | apply steady_all_bind;
      [first [ apply steady_u8 | apply steady_u16 | apply steady_u32 | apply steady_offset
             | apply steady_sig | apply steady_mem_type | apply steady_local_type
             | apply steady_all_Do; reflexivity ]
      | intros ? ] ].

Lemma steady_DecodeGlobalInModule : steady_all DecodeGlobalInModule_steps.
Proof. unfold DecodeGlobalInModule_steps, string_steps. steady_seq. Qed.

Lemma steady_DecodeFunctionInModule : steady_all DecodeFunctionInModule_steps.
Proof. unfold DecodeFunctionInModule_steps, string_steps. steady_seq. Qed.

Lemma steady_DecodeDataSegmentInModule : steady_all DecodeDataSegmentInModule_steps.
Proof. unfold DecodeDataSegmentInModule_steps. steady_seq. Qed.

(** The verifier's failure is written over the result directly: that keeps
    the first error only from a decoder with no error latched. *)
Lemma steady_VerifyFunctionBody i env f d :
  ok d = true -> steady (VerifyFunctionBody_steps i env f) d.
Proof.
  intros Hok. unfold VerifyFunctionBody_steps. cbv zeta.
  apply steady_bind; [by apply steady_Do|]. cbn [perform access run get_bytes fst snd].
  apply steady_bind; [by apply steady_Do|]. cbn [perform access run get_start fst snd].
  destruct (error_code _); [apply steady_ret|by apply steady_PutResult].
Qed.

(** The call of the verifier under its test of the result. *)
Lemma steady_if_ok {B} (body : bool -> Script unit) (rest : Script B) :
  (forall d, ok d = true -> steady (body true) d) ->
  steady_all (body false) -> steady_all rest ->
  steady_all (good ← Do IsOk; body good;; rest).
Proof.
  intros Hbody Hskip Hrest d.
  apply steady_bind; [by apply steady_Do|]. cbn [perform access run is_ok fst snd].
  apply steady_bind; [|apply Hrest].
  destruct (ok d) eqn:Hok; [by apply Hbody|apply Hskip].
Qed.

Lemma steady_decode_globals count : forall globals,
  steady_all (decode_globals_steps count globals).
Proof.
  induction count as [|count IH]; intros globals; cbn [decode_globals_steps];
    [apply steady_all_ret|].
  apply steady_all_bind; [by apply steady_all_Do|]. intros [|]; [apply steady_all_ret|].
  apply steady_all_bind; [apply steady_DecodeGlobalInModule|]. intros ?. apply IH.
Qed.

Lemma steady_decode_segments count : forall segments,
  steady_all (decode_segments_steps count segments).
Proof.
  induction count as [|count IH]; intros segments; cbn [decode_segments_steps];
    [apply steady_all_ret|].
  apply steady_all_bind; [by apply steady_all_Do|]. intros [|]; [apply steady_all_ret|].
  apply steady_all_bind; [apply steady_DecodeDataSegmentInModule|]. intros ?. apply IH.
Qed.

Lemma steady_decode_functions v module count : forall i functions,
  steady_all (decode_functions_steps v module count i functions).
Proof.
  induction count as [|count IH]; intros i functions; cbn [decode_functions_steps];
    [apply steady_all_ret|].
  apply steady_all_bind; [by apply steady_all_Do|]. intros [|]; [apply steady_all_ret|].
  apply steady_all_bind; [apply steady_DecodeFunctionInModule|]. intros function. cbv zeta.
  apply (steady_if_ok
           (fun good : bool =>
              if good && v then
                if external function then mret tt
                else VerifyFunctionBody_steps i
                       (Some (mkModule (module_start module) (module_end module)
                                (mem_size_log2 module) (mem_export module)
                                (mem_external module) (functions ++ [function])
                                (globals module) []))
                       function
              else mret tt)).
  - intros d Hok. cbn [andb]. destruct v; [|apply steady_ret].
    destruct (external function); [apply steady_ret|by apply steady_VerifyFunctionBody].
  - apply steady_all_ret.
  - apply IH.
Qed.

Lemma steady_DecodeModule v : steady_all (DecodeModule_steps v).
Proof.
  unfold DecodeModule_steps.
  do 3 (apply steady_all_bind; [by apply steady_all_Do|intros ?]).
  do 2 (apply steady_all_bind; [apply steady_u8|intros ?]).
  do 3 (apply steady_all_bind; [apply steady_u16|intros ?]).
  apply steady_all_bind; [apply steady_decode_globals|intros ?]. cbv zeta.
  apply steady_all_bind; [apply steady_decode_functions|intros ?].
  apply steady_all_bind; [apply steady_decode_segments|intros ?].
  apply steady_all_bind; [by apply steady_all_Do|intros ?]. apply steady_all_ret.
Qed.

Lemma steady_DecodeSingleFunction env : steady_all (DecodeSingleFunction_steps env).
Proof.
  unfold DecodeSingleFunction_steps.
  do 3 (apply steady_all_bind; [by apply steady_all_Do|intros ?]).
  apply steady_all_bind; [apply steady_sig|intros ?].
  apply steady_all_bind; [by apply steady_all_Do|intros ?]. cbv zeta.
  do 4 (apply steady_all_bind; [apply steady_u16|intros ?]).
  match goal with
  | |- steady_all (_ ← Do IsOk; (if _ then VerifyFunctionBody_steps ?i ?e ?f else _);; ?rest) =>
      apply (steady_if_ok
               (fun good : bool => if good then VerifyFunctionBody_steps i e f else mret tt))
  end.
  - intros d Hok. by apply steady_VerifyFunctionBody.
  - apply steady_all_ret.
  - apply steady_all_bind; [by apply steady_all_Do|intros ?]. apply steady_all_ret.
Qed.

Lemma steady_DecodeFunctionSignature start : steady_all (DecodeFunctionSignature_steps start).
Proof.
  unfold DecodeFunctionSignature_steps.
  apply steady_all_bind; [by apply steady_all_Do|intros ?].
  apply steady_all_bind; [apply steady_sig|intros ?].
  apply steady_all_bind; [by apply steady_all_Do|intros ?]. apply steady_all_ret.
Qed.

Lemma loops_stop_globals count globals d :
  failed d = true -> run (decode_globals count globals) d = (globals, d).
Proof. intros Hf. destruct count; cbn [decode_globals]; [done|]. unfold is_failed. run_step.
  by rewrite Hf.
Qed.

Lemma loops_stop_functions v module count i functions d :
  failed d = true -> run (decode_functions v module count i functions) d = (functions, d).
Proof. intros Hf. destruct count; cbn [decode_functions]; [done|]. unfold is_failed. run_step.
  by rewrite Hf.
Qed.

Lemma loops_stop_segments count segments d :
  failed d = true -> run (decode_segments count segments) d = (segments, d).
Proof. intros Hf. destruct count; cbn [decode_segments]; [done|]. unfold is_failed. run_step.
  by rewrite Hf.
Qed.

Lemma failed_stays_failed d d' : failed d = true -> result_ d' = result_ d -> failed d' = true.
Proof. unfold failed, ok. by intros Hf ->. Qed.

(** C8: the first error wins.  [error] records the pc, the point of interest
    and the message when no error is latched, and nothing otherwise.  No
    operation of the decoder, started with an error latched, changes the
    latched result.  Read access by access, the three entry points never
    change a result once it holds an error, whichever access latched it: the
    reads through [error], or the verifier, whose failure is written over the
    result directly but only while no error is latched.  So the result an
    entry point reports is the first error of the run, DecodeFunctionSignature
    returns no signature after an error, and the loops over globals,
    functions and data segments decode nothing more once an error is latched. *)
Theorem decoder_first_error_wins :
  (forall pc msg pt d, ok d = true ->
     result_ (run (error pc msg pt) d).2 =
       {| error_code := kError; start := start (result_ d); error_pc := Some pc;
          error_pt := pt; error_msg := Some msg |}) /\
  (forall pc msg pt, first_error_wins (error pc msg pt)) /\
  (forall size, first_error_wins (checkAvailable size)) /\
  first_error_wins u8 /\ first_error_wins u16 /\ first_error_wins u32 /\
  first_error_wins offset /\ first_error_wins string_ /\
  first_error_wins local_type /\ first_error_wins mem_type /\ first_error_wins sig /\
  first_error_wins DecodeGlobalInModule /\
  first_error_wins DecodeFunctionInModule /\
  first_error_wins DecodeDataSegmentInModule /\
  (forall verify_functions, first_error_wins (DecodeModule verify_functions)) /\
  (forall module_env, first_error_wins (DecodeSingleFunction module_env)) /\
  (forall start, first_error_wins (DecodeFunctionSignature start)) /\
  (forall verify_functions d, failed d = true ->
     (run (DecodeModule verify_functions) d).1.2 = result_ d) /\
  (forall module_env d, failed d = true ->
     (run (DecodeSingleFunction module_env) d).1.2 = result_ d) /\
  (forall verify_functions,
     same (perform (DecodeModule_steps verify_functions)) (DecodeModule verify_functions)) /\
  (forall module_env,
     same (perform (DecodeSingleFunction_steps module_env)) (DecodeSingleFunction module_env)) /\
  (forall start,
     same (perform (DecodeFunctionSignature_steps start)) (DecodeFunctionSignature start)) /\
  (forall verify_functions d d1,
     d1 ∈ d :: states (DecodeModule_steps verify_functions) d -> failed d1 = true ->
     (run (DecodeModule verify_functions) d).1.2 = result_ d1) /\
  (forall module_env d d1,
     d1 ∈ d :: states (DecodeSingleFunction_steps module_env) d -> failed d1 = true ->
     (run (DecodeSingleFunction module_env) d).1.2 = result_ d1) /\
  (forall start d d1,
     d1 ∈ d :: states (DecodeFunctionSignature_steps start) d -> failed d1 = true ->
     result_ (run (DecodeFunctionSignature start) d).2 = result_ d1 /\
     (run (DecodeFunctionSignature start) d).1 = None) /\
  (forall count globals d, failed d = true ->
     run (decode_globals count globals) d = (globals, d)) /\
  (forall verify_functions module count i functions d, failed d = true ->
     run (decode_functions verify_functions module count i functions) d = (functions, d)) /\
  (forall count segments d, failed d = true ->
     run (decode_segments count segments) d = (segments, d)).
Proof.
  split.
  { intros pc msg pt d Hok. unfold error. cbn [run]. by rewrite Hok. }
  do 16 (split; [intros;
    eauto using few_error, few_checkAvailable, few_u8, few_u16, few_u32, few_offset,
      few_local_type, few_mem_type, few_sig, few_DecodeGlobalInModule,
      few_DecodeFunctionInModule, few_DecodeDataSegmentInModule, few_DecodeModule,
      few_DecodeSingleFunction, few_DecodeFunctionSignature|]).
  split; [intros v d Hf; rewrite reports_DecodeModule; by apply few_DecodeModule|].
  split; [intros env d Hf; rewrite reports_DecodeSingleFunction;
          by apply few_DecodeSingleFunction|].
  split; [apply same_DecodeModule|]. split; [apply same_DecodeSingleFunction|].
  split; [apply same_DecodeFunctionSignature|].
  split.
  { intros v d d1 Hin Hf. rewrite reports_DecodeModule, <- (same_DecodeModule v d).
    by apply (steady_latched _ _ (steady_DecodeModule v d)). }
  split.
  { intros env d d1 Hin Hf.
    rewrite reports_DecodeSingleFunction, <- (same_DecodeSingleFunction env d).
    by apply (steady_latched _ _ (steady_DecodeSingleFunction env d)). }
  split.
  { intros start d d1 Hin Hf.
    pose proof (steady_latched _ _ (steady_DecodeFunctionSignature start d) d1 Hin Hf) as Hr.
    rewrite (same_DecodeFunctionSignature start d) in Hr. split; [exact Hr|].
    pose proof (failed_stays_failed d1 _ Hf Hr) as Hend. revert Hend.
    unfold DecodeFunctionSignature, rewind_to, is_ok. run_step.
    destruct (run sig (set_cur d start)) as [s d2]. cbn [fst snd]. unfold failed.
    by destruct (ok d2). }
  split; [intros; by apply loops_stop_globals|].
  split; [intros; by apply loops_stop_functions|].
  intros; by apply loops_stop_segments.
Qed.

End Steady.

(** The module whose function has its name offset out of bounds, decoded with
    a verifier that rejects every body: the offset error is latched by the
    37th access and reported; with the name offset in bounds the verifier's
    error is.  Of the two errors of the module with a bad name offset and a
    bad memory type the first is reported. *)
Lemma decoder_first_error_wins_sample :
  let trace := states (DecodeModule_steps (H := strict_externals) true) bad_name_decoder in
  let bad := (run (DecodeModule (H := strict_externals) true) bad_name_decoder).1.2 in
  let good := (run (DecodeModule (H := strict_externals) true) good_name_decoder).1.2 in
  (failed <$> trace !! 35%nat) = Some false /\
  (result_ <$> trace !! 36%nat) = Some bad /\
  error_pc bad = Some 10 /\ error_msg bad = Some "offset out of bounds of module"%string /\
  error_pc good = Some 32 /\
  error_pc (run (DecodeModule (H := sample_externals) true) two_errors_decoder).1.2 = Some 8.
Proof.
  intros trace bad good.
  pose proof (decoder_first_error_wins (H := strict_externals)) as Hall.
  destruct Hall as (_&_&_&_&_&_&_&_&_&_&_&_&_&_&_&_&_&_&_&_&_&_& Hfirst & _).
  destruct (trace !! 36%nat) as [d1|] eqn:E; [|vm_compute in E; discriminate E].
  assert (Hf : failed d1 = true) by (vm_compute in E; injection E as <-; reflexivity).
  assert (Hin : d1 ∈ bad_name_decoder :: trace).
  { apply elem_of_cons. right. by eapply list_elem_of_lookup_2. }
  pose proof (Hfirst true bad_name_decoder d1 Hin Hf) as Hr. fold bad in Hr.
  split; [vm_compute; reflexivity|]. split; [by rewrite Hr|].
  rewrite Hr. clear Hr Hin Hf. vm_compute in E. injection E as <-.
  split; [reflexivity|]. split; [reflexivity|]. split; vm_compute; reflexivity.
Defined.

End DecoderStepsFacts.

(** ** The linker *)

Module LinkerFacts.
Import Linker.

Lemma int32_uint32_small z : 0 <= z < 2 ^ 31 -> int32 (uint32 z) = z.
Proof.
  intros Hz. unfold int32, uint32. rewrite Z.mod_mod by lia.
  rewrite Z.mod_small by lia. destruct (Z.ltb_spec z (2 ^ 31)); lia.
Qed.

(** *** GetFunctionCode *)

Lemma GetFunctionCode_existing index code w :
  function_code_ w !! Z.to_nat index = Some (Some code) ->
  GetFunctionCode index w = Some (Some code, w).
Proof. intros E. unfold GetFunctionCode. by rewrite E. Qed.

Lemma run_call_keeps_code index code call w w' :
  function_code_ w !! Z.to_nat index = Some (Some code) ->
  ~ finishes index call ->
  run_call call w = Some w' ->
  function_code_ w' !! Z.to_nat index = Some (Some code).
Proof.
  intros E Hnf Hrun. destruct call as [j|j c]; cbn [run_call finishes] in *.
  - unfold GetFunctionCode in Hrun.
    destruct (function_code_ w !! Z.to_nat j) as [[cj|]|] eqn:Ej; simplify_eq/=; [done|].
    rewrite list_lookup_insert_ne; [done|]. intros Heq. congruence.
  - unfold Finish in Hrun. case_decide; simplify_eq/=.
    by rewrite list_lookup_insert_ne.
Qed.

Lemma run_calls_keep_code index code calls : forall w w',
  function_code_ w !! Z.to_nat index = Some (Some code) ->
  Forall (fun c => ~ finishes index c) calls ->
  run_calls calls w = Some w' ->
  function_code_ w' !! Z.to_nat index = Some (Some code).
Proof.
  induction calls as [|c calls IH]; intros w w' E Hall Hrun; cbn [run_calls] in Hrun.
  - by simplify_eq.
  - inversion Hall as [|? ? Hc Hcs]; subst.
    destruct (run_call c w) as [w1|] eqn:E1; simplify_eq/=.
    eapply IH; [|done|done]. eapply run_call_keeps_code; eauto.
Qed.

(** C10: for a valid index with no code yet, GetFunctionCode allocates exactly
    one code object, the placeholder marked with index + kPlaceholderMarker,
    stores its handle in both tables and returns it; after any further calls
    of GetFunctionCode (any index) and Finish (other indices), GetFunctionCode
    of the same index returns that same handle and changes nothing.  The
    marker sum is a 32-bit sum kept in an [int]: it is the plain sum for every
    index below 2^31 - 10^9. *)
Theorem GetFunctionCode_idempotent (w : World) (index : Z) :
  0 <= index -> index + kPlaceholderMarker < 2 ^ 31 ->
  length (placeholder_code_ w) = length (function_code_ w) ->
  function_code_ w !! Z.to_nat index = Some None ->
  let code := length (code_space w) in
  exists w1,
    GetFunctionCode index w = Some (Some code, w1) /\
    code_space w1 =
      code_space w ++ [{| kind := WASM_FUNCTION;
                          constant_pool_offset := index + kPlaceholderMarker;
                          relocation_info := [] |}] /\
    placeholder_code_ w1 !! Z.to_nat index = Some (Some code) /\
    function_code_ w1 !! Z.to_nat index = Some (Some code) /\
    (forall calls w2,
       Forall (fun c => ~ finishes index c) calls ->
       run_calls calls w1 = Some w2 ->
       GetFunctionCode index w2 = Some (Some code, w2)).
Proof.
  intros Hi Hfit Hlen Hnull code.
  pose proof (lookup_lt_Some _ _ _ Hnull) as Hlt.
  eexists. split; [unfold GetFunctionCode; rewrite Hnull; reflexivity|].
  cbn [code_space placeholder_code_ function_code_ NewCode].
  split.
  { unfold placeholder_object. rewrite int32_uint32_small; [done|].
    unfold kPlaceholderMarker in *. lia. }
  split; [apply list_lookup_insert_eq; lia|].
  split; [by apply list_lookup_insert_eq|].
  intros calls w2 Hall Hrun. apply GetFunctionCode_existing.
  eapply run_calls_keep_code; [|done|done].
  cbn [function_code_]. by apply list_lookup_insert_eq.
Qed.

Lemma GetFunctionCode_idempotent_sample :
  exists w1,
    GetFunctionCode 1 (new_WasmLinker [] 2) = Some (Some 0%nat, w1) /\
    code_space w1 =
      [] ++ [{| kind := WASM_FUNCTION; constant_pool_offset := 1 + kPlaceholderMarker;
                relocation_info := [] |}] /\
    placeholder_code_ w1 !! Z.to_nat 1 = Some (Some 0%nat) /\
    function_code_ w1 !! Z.to_nat 1 = Some (Some 0%nat) /\
    (forall calls w2,
       Forall (fun c => ~ finishes 1 c) calls ->
       run_calls calls w1 = Some w2 ->
       GetFunctionCode 1 w2 = Some (Some 0%nat, w2)).
Proof.
  apply (GetFunctionCode_idempotent (new_WasmLinker [] 2) 1).
  - lia.
  - vm_compute. reflexivity.
  - reflexivity.
  - reflexivity.
Defined.

(** *** What Link leaves unchanged *)

Lemma same_static_refl w : same_static w w.
Proof. by repeat split. Qed.

Lemma same_static_sym w w' : same_static w w' -> same_static w' w.
Proof. intros (F & P & Mk). split; [done|]. split; [done|]. intros c. by rewrite Mk. Qed.

Lemma same_static_trans w1 w2 w3 :
  same_static w1 w2 -> same_static w2 w3 -> same_static w1 w3.
Proof.
  intros (F1 & P1 & M1) (F2 & P2 & M2).
  split; [congruence|]. split; [congruence|]. intros c. by rewrite M2, M1.
Qed.

Lemma same_static_store w code relocs : same_static w (store_relocs w code relocs).
Proof.
  split; [done|]. split; [done|]. intros c. cbn [store_relocs code_space].
  destruct (decide (c = code)) as [->|Hne].
  - rewrite list_lookup_alter_eq. by destruct (code_space w !! code).
  - by rewrite list_lookup_alter_ne.
Qed.

Lemma is_placeholder_marking o o' : marking o = marking o' -> is_placeholder o = is_placeholder o'.
Proof. unfold marking, is_placeholder. intros [= -> ->]. done. Qed.

Lemma real_code_static w w' c :
  same_static w w' ->
  (exists obj, code_space w !! c = Some obj /\ is_placeholder obj = false) ->
  exists obj, code_space w' !! c = Some obj /\ is_placeholder obj = false.
Proof.
  intros (_ & _ & Mk) (obj & Hobj & Hreal).
  specialize (Mk c). rewrite Hobj in Mk.
  destruct (code_space w' !! c) as [obj'|] eqn:E; [|done].
  exists obj'. split; [done|]. apply (inj Some) in Mk.
  by rewrite (is_placeholder_marking _ _ Mk).
Qed.

Lemma finished_code_is_real_static w w' :
  same_static w w' -> finished_code_is_real w -> finished_code_is_real w'.
Proof.
  intros Hs Hwf i c Hf Hp. pose proof Hs as (F & P & _). rewrite F in Hf. rewrite P in Hp.
  eapply real_code_static; eauto.
Qed.

Lemma all_compiled_static w w' : same_static w w' -> all_compiled w -> all_compiled w'.
Proof.
  intros Hs Hall i h Hf. pose proof Hs as (F & _ & _). rewrite F in Hf.
  destruct (Hall i h Hf) as (c & obj & -> & Hobj & Hreal).
  destruct (real_code_static w w' c Hs) as (obj' & ? & ?); [eauto|]. eauto.
Qed.

Lemma all_compiled_real w : all_compiled w -> finished_code_is_real w.
Proof.
  intros Hall i c Hf _. destruct (Hall i _ Hf) as (c' & obj & [= <-] & Hobj & Hreal). eauto.
Qed.

(** *** The linker's calls keep finished code real *)

Lemma new_WasmLinker_real heap size : finished_code_is_real (new_WasmLinker heap size).
Proof.
  intros i c Hf _. cbn in Hf. apply lookup_replicate in Hf as [[=] _].
Qed.

Lemma NewCode_real obj w :
  finished_code_is_real w -> finished_code_is_real (NewCode obj w).2.
Proof.
  intros Hwf i c Hf Hp. cbn in *. destruct (Hwf i c Hf Hp) as (o & Ho & Hreal).
  exists o. split; [|done]. by apply lookup_app_l_Some.
Qed.

Lemma GetFunctionCode_real index w h w' :
  length (placeholder_code_ w) = length (function_code_ w) ->
  finished_code_is_real w ->
  GetFunctionCode index w = Some (h, w') -> finished_code_is_real w'.
Proof.
  intros Hlen Hwf Hrun. unfold GetFunctionCode in Hrun.
  destruct (function_code_ w !! Z.to_nat index) as [[code|]|] eqn:E; simplify_eq/=; [done|].
  intros i c Hf Hp. cbn in *.
  destruct (decide (i = Z.to_nat index)) as [->|Hne].
  - pose proof (lookup_lt_Some _ _ _ E) as Hlt.
    rewrite list_lookup_insert_eq in Hf by done. simplify_eq.
    rewrite list_lookup_insert_eq in Hp by lia. done.
  - rewrite list_lookup_insert_ne in Hf by done.
    rewrite list_lookup_insert_ne in Hp by done.
    destruct (Hwf i c Hf Hp) as (o & Ho & Hreal).
    exists o. split; [|done]. by apply lookup_app_l_Some.
Qed.

Lemma Finish_real index c obj w w' :
  finished_code_is_real w ->
  code_space w !! c = Some obj -> is_placeholder obj = false ->
  Finish index (Some c) w = Some w' -> finished_code_is_real w'.
Proof.
  intros Hwf Hobj Hreal Hrun. unfold Finish in Hrun. case_decide; simplify_eq/=.
  intros i c' Hf Hp. cbn in *.
  destruct (decide (i = Z.to_nat index)) as [->|Hne].
  - rewrite list_lookup_insert_eq in Hf by done. simplify_eq. eauto.
  - rewrite list_lookup_insert_ne in Hf by done. eauto.
Qed.

(** *** Link *)

Section LinkProofs.
Context `{RelocModes}.

Lemma link_target_static w w' r :
  same_static w w' -> link_target w' r = link_target w r.
Proof.
  intros (F & P & Mk). unfold link_target. rewrite F, P.
  destruct (_ && _); [|done].
  specialize (Mk (target_address r)).
  destruct (code_space w' !! target_address r) as [o'|], (code_space w !! target_address r) as [o|];
    cbn in Mk |- *; try done.
  apply (inj Some) in Mk. rewrite (is_placeholder_marking _ _ Mk).
  unfold marking in Mk. injection Mk as _ ->. done.
Qed.

Lemma link_target_unpatched w r r' : link_target w r = Some (r', false) -> r' = r.
Proof.
  unfold link_target. intros Hl.
  repeat (case_match; simplify_option_eq; try done).
Qed.

Lemma link_target_stable w r r' patched :
  finished_code_is_real w ->
  link_target w r = Some (r', patched) -> stable w r'.
Proof.
  intros Hwf Hl. unfold stable. destruct patched.
  2:{ by pose proof (link_target_unpatched _ _ _ Hl) as ->. }
  unfold link_target in Hl |- *.
  destruct (kCodeTargetMask (rmode r) && IsCodeTarget (rmode r)) eqn:Em; [|by simplify_eq].
  destruct (code_space w !! target_address r) as [target|] eqn:Et; cbn in Hl; [|done].
  destruct (is_placeholder target) eqn:Ep; [|by simplify_eq].
  case_match; [|done].
  destruct (function_code_ w !! _) as [[new_target|]|] eqn:Ef; cbn in Hl; try done.
  case_decide; [by simplify_eq|].
  destruct (placeholder_code_ w !! _) as [[ph|]|] eqn:Eph; cbn in Hl; try done.
  case_decide; [|done]. simplify_eq/=. rewrite Em.
  destruct (Hwf _ _ Ef) as (obj & Hobj & Hreal).
  { rewrite Eph. intros [= E]. done. }
  rewrite Hobj. cbn. by rewrite Hreal.
Qed.

Lemma link_target_resolved w r r' patched :
  all_compiled w ->
  link_target w r = Some (r', patched) -> resolved w r'.
Proof.
  intros Hall Hl Hmode. unfold link_target in Hl.
  destruct (kCodeTargetMask (rmode r) && IsCodeTarget (rmode r)) eqn:Em.
  2:{ simplify_eq. congruence. }
  destruct (code_space w !! target_address r) as [target|] eqn:Et; cbn in Hl; [|done].
  destruct (is_placeholder target) eqn:Ep; [|simplify_eq; eauto].
  case_match; [|done].
  destruct (function_code_ w !! _) as [h|] eqn:Ef; cbn in Hl; [|done].
  destruct (Hall _ _ Ef) as (c & obj & -> & Hobj & Hreal). cbn in Hl.
  case_decide; [simplify_eq; congruence|].
  destruct (placeholder_code_ w !! _) as [[ph|]|] eqn:Eph; cbn in Hl; try done.
  case_decide; [|done]. simplify_eq/=. eauto.
Qed.

Lemma settled_static w w' r : same_static w w' -> settled w r -> settled w' r.
Proof.
  intros Hs [Hst Hres]. split.
  - unfold stable. by rewrite (link_target_static _ _ _ Hs).
  - intros Hall Hmode.
    apply (real_code_static w w' _ Hs), Hres; [|done].
    apply (all_compiled_static w' w); [by apply same_static_sym|done].
Qed.

Lemma link_target_settled w r r' patched :
  finished_code_is_real w ->
  link_target w r = Some (r', patched) -> settled w r'.
Proof.
  intros Hwf Hl. split; [by eapply link_target_stable|].
  intros Hall. by eapply link_target_resolved.
Qed.

Lemma relocs_of_store w code relocs old :
  relocs_of w code = Some old -> relocs_of (store_relocs w code relocs) code = Some relocs.
Proof.
  unfold relocs_of. cbn [store_relocs code_space]. rewrite list_lookup_alter_eq.
  destruct (code_space w !! code); [done|discriminate].
Qed.

Lemma store_relocs_other w code relocs c :
  c <> code -> code_space (store_relocs w code relocs) !! c = code_space w !! c.
Proof. intros Hne. cbn [store_relocs code_space]. by rewrite list_lookup_alter_ne. Qed.

(** The relocation loop: the entries it has left behind are settled. *)
Lemma link_relocs_spec code pending : forall visited modified w w' modified',
  finished_code_is_real w ->
  relocs_of w code = Some (visited ++ pending) ->
  link_relocs code visited pending modified w = Some (w', modified') ->
  same_static w w' /\
  (forall c, c <> code -> code_space w' !! c = code_space w !! c) /\
  exists pending',
    relocs_of w' code = Some (visited ++ pending') /\ Forall (settled w') pending'.
Proof.
  induction pending as [|r pending IH]; intros visited modified w w' modified' Hwf Hrel Hrun;
    cbn [link_relocs] in Hrun.
  - simplify_eq. split; [apply same_static_refl|]. split; [done|]. by exists [].
  - destruct (link_target w r) as [[r' patched]|] eqn:Hl; cbn in Hrun; [|done].
    set (w1 := if patched then store_relocs w code (visited ++ r' :: pending) else w) in *.
    assert (Hs1 : same_static w w1).
    { subst w1. destruct patched; [apply same_static_store|apply same_static_refl]. }
    assert (Hrel1 : relocs_of w1 code = Some ((visited ++ [r']) ++ pending)).
    { subst w1. rewrite <- app_assoc. cbn [app]. destruct patched.
      - eapply relocs_of_store, Hrel.
      - by rewrite (link_target_unpatched _ _ _ Hl). }
    assert (Hne1 : forall c, c <> code -> code_space w1 !! c = code_space w !! c).
    { intros c Hc. subst w1. destruct patched; [by apply store_relocs_other|done]. }
    destruct (IH _ _ _ _ _ (finished_code_is_real_static _ _ Hs1 Hwf) Hrel1 Hrun)
      as (Hs & Hne & pending' & Hrel' & Hst).
    split; [eapply same_static_trans; eauto|].
    split; [intros c Hc; rewrite Hne, Hne1; done|].
    exists (r' :: pending'). split.
    + rewrite Hrel'. by rewrite <- app_assoc.
    + constructor; [|done].
      apply (settled_static w w'); [exact (same_static_trans _ _ _ Hs1 Hs)|].
      exact (link_target_settled _ _ _ _ Hwf Hl).
Qed.

(** On settled entries the loop patches nothing and stores nothing. *)
Lemma link_relocs_fixed code pending : forall visited modified w,
  relocs_of w code = Some (visited ++ pending) ->
  Forall (settled w) pending ->
  link_relocs code visited pending modified w = Some (w, modified).
Proof.
  induction pending as [|r pending IH]; intros visited modified w Hrel Hst;
    cbn [link_relocs]; [done|].
  inversion Hst as [|? ? [Hr _] Hrest]; subst. rewrite Hr. cbn.
  rewrite orb_false_r. apply IH; [|done]. by rewrite <- app_assoc.
Qed.

Lemma LinkFunction_spec code w w' modified :
  finished_code_is_real w ->
  LinkFunction code w = Some (w', modified) ->
  same_static w w' /\
  (exists c, code = Some c /\ code_settled w' c) /\
  (forall c, code_settled w c -> code_settled w' c).
Proof.
  intros Hwf Hrun. unfold LinkFunction in Hrun.
  destruct code as [c|]; cbn in Hrun; [|done].
  destruct (code_space w !! c) as [obj|] eqn:Hobj; cbn in Hrun; [|done].
  apply link_relocs_spec in Hrun as (Hs & Hne & pending' & Hrel' & Hst);
    [|done|unfold relocs_of; by rewrite Hobj].
  split; [done|]. split; [exists c; split; [done|]; by exists pending'|].
  intros c' (relocs & Hrel & Hall).
  destruct (decide (c' = c)) as [->|Hc]; [by exists pending'|].
  exists relocs. split.
  - unfold relocs_of in *. by rewrite Hne.
  - eapply Forall_impl; [exact Hall|]. intros r. by apply settled_static.
Qed.

Lemma LinkFunction_fixed c w :
  code_settled w c -> LinkFunction (Some c) w = Some (w, false).
Proof.
  intros (relocs & Hrel & Hall). unfold LinkFunction. cbn.
  unfold relocs_of in Hrel.
  destruct (code_space w !! c) as [obj|] eqn:Hobj; [|done]. cbn in Hrel |- *.
  simplify_eq. apply link_relocs_fixed; [|done]. unfold relocs_of. by rewrite Hobj.
Qed.

Lemma Link_from_spec n : forall i w w' flushed,
  finished_code_is_real w ->
  Link_from i n w = Some (w', flushed) ->
  same_static w w' /\
  (forall c, code_settled w c -> code_settled w' c) /\
  (forall j, (i <= j < i + n)%nat ->
     exists c, function_code_ w !! j = Some (Some c) /\ code_settled w' c).
Proof.
  induction n as [|n IH]; intros i w w' flushed Hwf Hrun; cbn [Link_from] in Hrun.
  - simplify_eq. split; [apply same_static_refl|]. split; [done|]. intros j Hj. lia.
  - destruct (function_code_ w !! i) as [h|] eqn:Hh; cbn in Hrun; [|done].
    destruct (LinkFunction h w) as [[w1 m]|] eqn:Hlf; cbn in Hrun; [|done].
    destruct (Link_from (S i) n w1) as [[w2 ms]|] eqn:Hrest; cbn in Hrun; [|done].
    simplify_eq.
    destruct (LinkFunction_spec _ _ _ _ Hwf Hlf) as (Hs1 & (c & -> & Hc) & Hkeep1).
    destruct (IH _ _ _ _ (finished_code_is_real_static _ _ Hs1 Hwf) Hrest)
      as (Hs2 & Hkeep2 & Hall).
    split; [eapply same_static_trans; eauto|].
    split; [intros c' Hc'; eauto|].
    intros j Hj. destruct (decide (j = i)) as [->|Hne].
    + exists c. split; [done|]. by apply Hkeep2.
    + destruct (Hall j ltac:(lia)) as (c' & Hf & Hst).
      exists c'. split; [|done]. destruct Hs1 as (F & _). by rewrite <- F.
Qed.

Lemma Link_from_fixed n : forall i w,
  (forall j, (i <= j < i + n)%nat ->
     exists c, function_code_ w !! j = Some (Some c) /\ code_settled w c) ->
  Link_from i n w = Some (w, replicate n false).
Proof.
  induction n as [|n IH]; intros i w Hall; cbn [Link_from replicate]; [done|].
  destruct (Hall i ltac:(lia)) as (c & Hf & Hst).
  rewrite Hf. cbn [mbind option_bind]. rewrite (LinkFunction_fixed _ _ Hst).
  cbn [mbind option_bind]. rewrite IH; [done|]. intros j Hj. apply Hall. lia.
Qed.

(** C4: Link reaches a fixed point.  When the code installed by Finish is real
    code (it does not carry the placeholder marker), a Link that ran to its
    end leaves a world on which a second Link patches nothing: it reports no
    function as modified and returns the world unchanged.  When moreover
    every function was compiled, no direct-call relocation of any function
    still has a placeholder as its target. *)
Theorem Link_fixed_point (w w' : World) (flushed : list bool) :
  finished_code_is_real w ->
  Link w = Some (w', flushed) ->
  Link w' = Some (w', replicate (length (function_code_ w')) false) /\
  (all_compiled w ->
   forall (i : nat) c relocs,
     function_code_ w' !! i = Some (Some c) ->
     relocs_of w' c = Some relocs ->
     Forall (resolved w') relocs).
Proof.
  intros Hwf Hrun. unfold Link in *.
  destruct (Link_from_spec _ _ _ _ _ Hwf Hrun) as (Hs & _ & Hall).
  pose proof Hs as (F & P & Mk). split.
  - apply Link_from_fixed. intros j Hj. rewrite F in *.
    destruct (Hall j Hj) as (c & Hf & Hst). eauto.
  - intros Hcomp i c relocs Hf Hrel. rewrite F in Hf.
    pose proof (lookup_lt_Some _ _ _ Hf) as Hlt.
    destruct (Hall i ltac:(lia)) as (c' & Hf' & relocs' & Hrel' & Hst).
    simplify_eq. eapply Forall_impl; [exact Hst|].
    intros r [_ Hres]. apply Hres. by apply (all_compiled_static w w').
Qed.

End LinkProofs.

(** Function 0 calls function 1 through its placeholder: the first Link
    patches function 0, the second patches nothing. *)
Lemma Link_fixed_point_sample :
  Link (H := sample_modes) compiled_world = Some (linked_world, [true; false]) /\
  Link (H := sample_modes) linked_world = Some (linked_world, [false; false]).
Proof.
  assert (Hrun : Link (H := sample_modes) compiled_world = Some (linked_world, [true; false]))
    by (vm_compute; reflexivity).
  split; [exact Hrun|].
  refine (proj1 (Link_fixed_point (H := sample_modes) compiled_world linked_world _ _ Hrun)).
  intros i c Hf _. vm_compute in Hf.
  destruct i as [|[|i]]; [| |discriminate Hf];
    injection Hf as <-; eexists; (split; [vm_compute; reflexivity|reflexivity]).
Defined.

End LinkerFacts.

(** ** The switch with fallthrough *)

Module BytecodeFacts.
Import Bytecode.

Lemma selected_cases_out_of_range fallthrough key cases :
  key < 0 \/ Z.of_nat (length cases) <= key -> selected_cases fallthrough key cases = [].
Proof.
  intros Hk. unfold selected_cases.
  destruct (Z.leb_spec 0 key), (Z.ltb_spec key (Z.of_nat (length cases))); cbn; try done; lia.
Qed.

(** With fallthrough the cases from the selected one on are run. *)
Lemma selected_cases_fallthrough key cases :
  0 <= key < Z.of_nat (length cases) ->
  selected_cases true key cases = drop (Z.to_nat key) cases.
Proof.
  intros Hk. unfold selected_cases.
  destruct (Z.leb_spec 0 key), (Z.ltb_spec key (Z.of_nat (length cases))); cbn; try done; lia.
Qed.

Lemma Switch4_fallthru_result (n : nat) (x : Z) :
  call (3 + n) Switch4_fallthru [x] =
    Some (if (0 <=? x) && (x <? 2) then 45
          else if (2 <=? x) && (x <? 4) then 47
          else x).
Proof.
  destruct (decide (x < 0 \/ 4 <= x)) as [Hout|Hin].
  - replace ((0 <=? x) && (x <? 2)) with false by lia.
    replace ((2 <=? x) && (x <? 4)) with false by lia.
    unfold call, Switch4_fallthru. cbn [Nat.add exec eval mbind option_bind lookup list_lookup].
    rewrite selected_cases_out_of_range by (cbn; lia). reflexivity.
  - assert (x = 0 \/ x = 1 \/ x = 2 \/ x = 3) as Hx by lia.
    destruct Hx as [Hx|[Hx|[Hx|Hx]]]; subst x; reflexivity.
Qed.

(** C5: the function (I32)->I32 whose body is the switch with fallthrough on
    local 0 over the cases (Nop, Return I8 45, Nop, Return I8 47), followed by
    Return (GetLocal 0), returns -1 for -1, 45 for 0 and for 1, 47 for 2 and
    for 3, and 4 for 4, whatever fuel beyond three nested statements it is
    given; for every key outside 0..3 no case runs and the key is returned. *)
Theorem Switch4_fallthru_returns (n : nat) :
  call (3 + n) Switch4_fallthru [-1] = Some (-1) /\
  call (3 + n) Switch4_fallthru [0] = Some 45 /\
  call (3 + n) Switch4_fallthru [1] = Some 45 /\
  call (3 + n) Switch4_fallthru [2] = Some 47 /\
  call (3 + n) Switch4_fallthru [3] = Some 47 /\
  call (3 + n) Switch4_fallthru [4] = Some 4 /\
  forall x : Z, x < 0 \/ 4 <= x -> call (3 + n) Switch4_fallthru [x] = Some x.
Proof.
  split; [apply Switch4_fallthru_result|].
  split; [apply Switch4_fallthru_result|].
  split; [apply Switch4_fallthru_result|].
  split; [apply Switch4_fallthru_result|].
  split; [apply Switch4_fallthru_result|].
  split; [apply Switch4_fallthru_result|].
  intros x Hx. rewrite Switch4_fallthru_result.
  replace ((0 <=? x) && (x <? 2)) with false by lia.
  replace ((2 <=? x) && (x <? 4)) with false by lia. reflexivity.
Qed.

(** The loop of the test Run_Wasm_CountDown counts down to zero. *)
Lemma CountDown_from_ten : call 100 CountDown [10] = Some 0.
Proof. vm_compute. reflexivity. Qed.

End BytecodeFacts.

(** ** The lowering of while statements *)

Module AsmWasmFacts.
Import Wasm AsmWasm.

(** *** The visitor only appends to the body *)













Section VisitorProofs.
Context `{AstQueries}.








End VisitorProofs.


End AsmWasmFacts.


(** ** The layout of a decoded module *)

Module DecoderLayoutFacts.
Import Wasm Decoder DecoderLayout DecoderFacts.

Lemma set_cur_0 d : set_cur d (cur_ d + 0) = d.
Proof. destruct d. unfold set_cur. cbn. f_equal. lia. Qed.

Lemma set_cur_set_cur d p q : set_cur (set_cur d p) q = set_cur d q.
Proof. reflexivity. Qed.

Lemma short_available d n : short d n = false <-> available d n.
Proof. unfold short, available. rewrite orb_false_iff, !Z.ltb_ge. lia. Qed.

Lemma ok_failed d : ok d = true <-> failed d = false.
Proof. unfold failed. destruct (ok d); cbn; split; congruence. Qed.

Lemma ok_truncated size d : ok (truncated size d) = false.
Proof.
  destruct (truncated_facts size d) as (_ & Hf & _). unfold failed in Hf.
  by destruct (ok (truncated size d)).
Qed.

(** A latched error stays latched. *)
Lemma failed_stays {A} (m : M A) d :
  first_error_wins m -> failed d = true -> failed (run m d).2 = true.
Proof. intros Hm Hd. rewrite (failed_result _ _ (Hm d Hd)). exact Hd. Qed.

Lemma reads_ret {A} (a : A) : reads (mret a) (fun _ a' n => a' = a /\ n = 0).
Proof.
  intros d Hok. cbn in *. split; [done|]. exists 0.
  split; [lia|]. split; [by left|]. by rewrite set_cur_0.
Qed.

Lemma reads_weaken {A} (m : M A) (Q Q' : ModuleDecoder -> A -> Z -> Prop) :
  reads m Q ->
  (forall d a n, ok d = true -> 0 <= n -> n = 0 \/ available d n -> Q d a n -> Q' d a n) ->
  reads m Q'.
Proof.
  intros Hm HQ d Hok. destruct (Hm d Hok) as (Hd & n & Hn & Hav & E & Hq).
  split; [done|]. exists n. eauto 10.
Qed.

Lemma reads_bind {A B} (m : M A) (k : A -> M B) Q1 Q2 :
  reads m Q1 -> (forall a, reads (k a) (Q2 a)) ->
  reads (m ≫= k)
    (fun d b n => exists a n1 n2,
       n = n1 + n2 /\ 0 <= n1 /\ 0 <= n2 /\
       Q1 d a n1 /\ Q2 a (set_cur d (cur_ d + n1)) b n2).
Proof.
  intros Hm Hk d Hok. revert Hok. run_step.
  destruct (run m d) as [a d1] eqn:E1. intros Hok.
  destruct (Hk a d1 Hok) as (Hd1 & n2 & Hn2 & Hav2 & E2 & Hq2).
  pose proof (Hm d) as Hm'. rewrite E1 in Hm'. cbn [fst snd] in Hm'.
  destruct (Hm' Hd1) as (Hd & n1 & Hn1 & Hav1 & E1' & Hq1). subst d1.
  split; [done|]. exists (n1 + n2). split; [lia|]. split.
  { unfold available in *. cbn [set_cur start_ cur_ end_] in *.
    destruct Hav1 as [->|?], Hav2 as [->|?]; [left|right|right|right]; lia. }
  split.
  { rewrite E2. unfold set_cur. cbn. f_equal. lia. }
  exists a, n1, n2. eauto 10.
Qed.

Lemma reads_get {A} (f : ModuleDecoder -> A) :
  reads (Act (fun d => (f d, d))) (fun d a n => a = f d /\ n = 0).
Proof.
  intros d Hok. cbn in *. split; [done|]. exists 0.
  split; [lia|]. split; [by left|]. by rewrite set_cur_0.
Qed.

Lemma reads_error {A} pc msg pt (Q : ModuleDecoder -> A -> Z -> Prop) (k : M A) :
  first_error_wins k -> reads (error pc msg pt;; k) Q.
Proof.
  intros Hk d Hok. exfalso. revert Hok. run_step. unfold error. cbn [run].
  destruct (ok d) eqn:E.
  - set (d1 := set_result d _). intros Hok.
    assert (failed d1 = true) as Hf by reflexivity.
    apply (failed_stays k) in Hf; [|done]. unfold failed in Hf.
    destruct (run k d1) as [a d2]. cbn [snd] in *. rewrite Hok in Hf. discriminate Hf.
  - intros Hok. assert (failed d = true) as Hf by (unfold failed; by rewrite E).
    apply (failed_stays k) in Hf; [|done]. unfold failed in Hf.
    destruct (run k d) as [a d2]. cbn [snd] in *. rewrite Hok in Hf. discriminate Hf.
Qed.

Lemma reads_is_failed : reads is_failed (fun _ stop n => stop = false /\ n = 0).
Proof.
  intros d Hok. cbn in *. split; [done|]. exists 0.
  split; [lia|]. split; [by left|]. rewrite set_cur_0. unfold failed. by rewrite Hok.
Qed.

Lemma reads_is_ok : reads is_ok (fun _ good n => good = true /\ n = 0).
Proof.
  intros d Hok. cbn in *. split; [done|]. exists 0.
  split; [lia|]. split; [by left|]. by rewrite set_cur_0.
Qed.

Lemma reads_u8 :
  reads u8 (fun d v n => n = 1 /\ v = deref d (cur_ d) /\ 0 <= v < 256).
Proof.
  intros d. rewrite u8_run. destruct (short d 1) eqn:E; cbn [fst snd].
  - by rewrite ok_truncated.
  - intros Hok. split; [exact Hok|]. exists 1. apply short_available in E.
    split; [lia|]. split; [by right|]. split; [done|].
    cbn [little_endian]. pose proof (deref_range d (cur_ d)). split; [done|]. split; lia.
Qed.

Lemma little_endian_range d p w : 0 <= little_endian d p w < 256 ^ Z.of_nat w.
Proof.
  revert p. induction w as [|w IH]; intros p; cbn [little_endian]; [simpl; lia|].
  pose proof (deref_range d p). specialize (IH (p + 1)).
  rewrite Nat2Z.inj_succ, Z.pow_succ_r by lia. lia.
Qed.

Lemma reads_u16 :
  reads u16 (fun d v n => n = 2 /\ v = little_endian d (cur_ d) 2 /\ 0 <= v < 2 ^ 16).
Proof.
  intros d. rewrite u16_run. destruct (short d 2) eqn:E; cbn [fst snd].
  - by rewrite ok_truncated.
  - intros Hok. split; [exact Hok|]. exists 2. apply short_available in E.
    split; [lia|]. split; [by right|]. split; [done|].
    pose proof (little_endian_range d (cur_ d) 2). split; [done|]. split; [done|]. simpl in *. lia.
Qed.

Lemma reads_u32 :
  reads u32 (fun d v n => n = 4 /\ v = little_endian d (cur_ d) 4 /\ 0 <= v < 2 ^ 32).
Proof.
  intros d. rewrite u32_run. destruct (short d 4) eqn:E; cbn [fst snd].
  - by rewrite ok_truncated.
  - intros Hok. split; [exact Hok|]. exists 4. apply short_available in E.
    split; [lia|]. split; [by right|]. split; [done|].
    pose proof (little_endian_range d (cur_ d) 4). split; [done|]. split; [done|]. simpl in *. lia.
Qed.

Lemma reads_bind_w {A B} (m : M A) (k : A -> M B) Q1 Q2
    (Q : ModuleDecoder -> B -> Z -> Prop) :
  reads m Q1 -> (forall a, reads (k a) (Q2 a)) ->
  (forall d a n1 b n2, ok d = true -> 0 <= n1 -> 0 <= n2 ->
     n1 = 0 \/ available d n1 -> n2 = 0 \/ available (set_cur d (cur_ d + n1)) n2 ->
     Q1 d a n1 -> Q2 a (set_cur d (cur_ d + n1)) b n2 -> Q d b (n1 + n2)) ->
  reads (m ≫= k) Q.
Proof.
  intros Hm Hk HQ d Hok. revert Hok. run_step.
  destruct (run m d) as [a d1] eqn:E1. intros Hok.
  destruct (Hk a d1 Hok) as (Hd1 & n2 & Hn2 & Hav2 & E2 & Hq2).
  pose proof (Hm d) as Hm'. rewrite E1 in Hm'. cbn [fst snd] in Hm'.
  destruct (Hm' Hd1) as (Hd & n1 & Hn1 & Hav1 & E1' & Hq1). subst d1.
  split; [done|]. exists (n1 + n2). split; [lia|]. split.
  { unfold available in *. cbn [set_cur start_ cur_ end_] in *.
    destruct Hav1 as [->|?], Hav2 as [->|?]; [left|right|right|right]; lia. }
  split.
  { rewrite E2. unfold set_cur. cbn. f_equal. lia. }
  eauto.
Qed.

(** An operation that cannot end without an error latched. *)
Lemma reads_never {A} (m : M A) (Q : ModuleDecoder -> A -> Z -> Prop) :
  (forall d, ok (run m d).2 = false) -> reads m Q.
Proof. intros Hm d Hok. rewrite Hm in Hok. discriminate Hok. Qed.

Lemma ok_error {A} pc msg pt (a : A) d : ok (run (error pc msg pt;; mret a) d).2 = false.
Proof.
  run_step. unfold error. cbn [run]. destruct (ok d) eqn:E; cbn; [done|exact E].
Qed.

Lemma reads_offset :
  reads offset (fun d v n =>
    n = 4 /\ v = little_endian d (cur_ d) 4 /\ 0 <= v <= end_ d - start_ d).
Proof.
  unfold offset.
  apply (reads_bind_w _ _ _ (fun v d r n => r = v /\ n = 0 /\ v <= end_ d - start_ d)
           _ reads_u32).
  - intros v d. run_step. cbn [run extent fst snd].
    destruct (Z.ltb_spec (end_ d - start_ d) v).
    + run_step. cbn [run get_cur fst snd]. intros Hok. exfalso.
      pose proof (ok_error (cur_ d - 4) "offset out of bounds of module" None v d) as E.
      revert E. run_step. rewrite Hok. discriminate.
    + cbn. intros Hok. split; [done|]. exists 0. rewrite set_cur_0.
      split; [lia|]. split; [by left|]. done.
  - cbn. intros d a n1 b n2 _ _ _ _ _ (-> & -> & Hv) (-> & -> & Hle). split; [lia|].
    split; [done|]. lia.
Qed.

Lemma ok_after_failed {A} (m : M A) d :
  first_error_wins m -> ok d = false -> ok (run m d).2 = false.
Proof.
  intros Hm Hd. assert (failed d = true) as Hf by (unfold failed; by rewrite Hd).
  apply (failed_stays m) in Hf; [|done]. unfold failed in Hf.
  by destruct (ok (run m d).2).
Qed.

(** After [error], whatever follows ends with the error latched. *)
Lemma ok_error_then {A} pc msg pt (k : M A) d :
  first_error_wins k -> ok (run (error pc msg pt;; k) d).2 = false.
Proof.
  intros Hk. run_step. unfold error. cbn [run].
  destruct (ok d) eqn:E; apply ok_after_failed; done.
Qed.

Lemma ok_error_at_cur_then {A} (f : Z -> Z) msg pt (k : unit -> M A) d :
  (forall u, first_error_wins (k u)) ->
  ok (run ((pc ← get_cur; error (f pc) msg pt) ≫= k) d).2 = false.
Proof.
  intros Hk. run_step. unfold get_cur, error. cbn [run].
  destruct (ok d) eqn:E; apply ok_after_failed; done.
Qed.

Section Reading.
Context `{WasmExternals}.

Lemma reads_local_type :
  reads local_type (fun d t n => n = 1 /\ LocalType_of_byte (deref d (cur_ d)) = Some t).
Proof.
  unfold local_type.
  apply (reads_bind_w _ _ _ (fun v d r n => n = 0 /\ LocalType_of_byte v = Some r)
           _ reads_u8).
  - intros v. destruct (LocalType_of_byte v) as [t|] eqn:E.
    + eapply reads_weaken; [apply reads_ret|]. cbn. intros ? ? ? _ _ _ [-> ->]. done.
    + apply reads_never. intros d. unfold get_cur. run_step.
      apply (ok_error (cur_ d - 1) "invalid local type" None kAstStmt d).
  - cbn. intros d a n1 b n2 _ _ _ _ _ (-> & -> & _) (-> & E). done.
Qed.

Lemma reads_mem_type :
  reads mem_type (fun d t n => n = 1 /\ MemType_of_byte (deref d (cur_ d)) = Some t).
Proof.
  unfold mem_type.
  apply (reads_bind_w _ _ _ (fun v d r n => n = 0 /\ MemType_of_byte v = Some r)
           _ reads_u8).
  - intros v. destruct (MemType_of_byte v) as [t|] eqn:E.
    + eapply reads_weaken; [apply reads_ret|]. cbn. intros ? ? ? _ _ _ [-> ->]. done.
    + apply reads_never. intros d. unfold get_cur. run_step.
      apply (ok_error (cur_ d - 1) "invalid memory type" None kMemI32 d).
  - cbn. intros d a n1 b n2 _ _ _ _ _ (-> & -> & _) (-> & E). done.
Qed.

Lemma reads_sig_params_loop count :
  reads (sig_params_loop count) (fun _ ps n =>
    n = Z.of_nat count /\ length ps = count /\ Forall not_void ps).
Proof.
  induction count as [|count IH]; cbn [sig_params_loop].
  - eapply reads_weaken; [apply reads_ret|]. cbn. intros ? ? ? _ _ _ [-> ->]. done.
  - apply (reads_bind_w _ _ _
             (fun param _ ps n => n = Z.of_nat count /\ length ps = S count /\ Forall not_void ps)
             _ reads_local_type).
    + intros param.
      assert (param = kAstStmt \/ param <> kAstStmt) as [->|Hp]
        by (destruct param; (by left) || (by right)).
      * apply reads_never. intros d.
        apply (ok_error_at_cur_then (fun pc => pc - 1)). intros _.
        apply few_bind; [apply few_sig_params_loop|intros ?; apply few_ret].
      * apply (reads_bind_w _ _ (fun _ _ n => n = 0)
                 (fun _ _ ps n => n = Z.of_nat count /\ length ps = S count /\ Forall not_void ps)).
        -- destruct param; try done;
             (eapply reads_weaken; [apply reads_ret|]; cbn; intros; intuition).
        -- intros _.
           apply (reads_bind_w _ _ _ (fun rest _ ps n => n = 0 /\ ps = param :: rest) _ IH).
           ++ intros rest. eapply reads_weaken; [apply reads_ret|].
              cbn. intros ? ? ? _ _ _ [-> ->]. done.
           ++ cbn. intros d a n1 b n2 _ _ _ _ _ (-> & Hl & Hv) (-> & ->).
              split; [lia|]. split; [by rewrite <- Hl|]. by constructor.
        -- cbn. intros d a n1 b n2 _ _ _ _ _ -> (-> & ? & ?). done.
    + cbn. intros d a n1 b n2 _ _ _ _ _ (-> & _) (-> & ? & ?). split; [lia|done].
Qed.

Lemma reads_sig :
  reads sig (fun d s n =>
    n = sig_size s /\ sig_wf s /\ Z.of_nat (length (sig_params s)) = deref d (cur_ d)).
Proof.
  unfold sig.
  apply (reads_bind_w _ _ _
           (fun count _ s n => n = 1 + Z.of_nat (length (sig_params s)) /\
              (length (sig_returns s) <= 1)%nat /\
              Forall not_void (sig_returns s) /\ Forall not_void (sig_params s) /\
              length (sig_params s) = Z.to_nat count)
           _ reads_u8).
  - intros count.
    apply (reads_bind_w _ _ _
             (fun ret _ s n => n = Z.of_nat (length (sig_params s)) /\
                               sig_returns s = (if ret is kAstStmt then [] else [ret]) /\
                               Forall not_void (sig_params s) /\
                               length (sig_params s) = Z.to_nat count)
             _ reads_local_type).
    + intros ret.
      apply (reads_bind_w _ _ _
               (fun params _ s n => n = 0 /\
                  s = mkSig (if ret is kAstStmt then [] else [ret]) params)
               _ (reads_sig_params_loop _)).
      * intros params. eapply reads_weaken; [apply reads_ret|].
        cbn. intros ? ? ? _ _ _ [-> ->]. done.
      * cbn. intros d a n1 b n2 _ _ _ _ _ (-> & Hl & Hv) (-> & ->). cbn.
        split; [lia|]. done.
    + cbn. intros d a n1 b n2 _ _ _ _ _ (-> & _) (-> & Hr & Hp & Hl).
      split; [lia|]. rewrite Hr.
      destruct a; cbn; (split; [lia|]); (split; [|done]);
        first [apply Forall_nil_2 | apply Forall_singleton; discriminate].
  - cbn. intros d a n1 b n2 _ _ _ _ _ (-> & -> & Hr) (-> & Hl1 & Hv1 & Hv2 & Hl).
    unfold sig_size, sig_wf. split; [lia|]. split; [|lia]. repeat split; try done; lia.
Qed.

End Reading.

Ltac reads_chain lem :=
  repeat (eapply reads_bind; [first [apply reads_u8 | apply reads_u16 | apply reads_u32
                                    | apply reads_offset | lem ]|intros ?]);
  apply reads_ret.

Ltac reads_split :=
  cbn [set_cur start_ end_ cur_ bytes result_] in *;
  repeat match goal with
         | H : exists _, _ |- _ => destruct H
         | H : _ /\ _ |- _ => destruct H
         end; subst.

Section Entries.
Context `{WasmExternals}.

Lemma reads_DecodeGlobalInModule :
  reads DecodeGlobalInModule (fun d g n => n = 6 /\ global_wf (end_ d - start_ d) g).
Proof.
  eapply reads_weaken.
  - unfold DecodeGlobalInModule, string_. reads_chain ltac:(apply reads_mem_type).
  - intros d a n Hok Hn Hav HQ. reads_split. split; [lia|]. unfold global_wf. cbn [name_offset Wasm.offset]. lia.
Qed.

Lemma reads_DecodeDataSegmentInModule :
  reads DecodeDataSegmentInModule (fun d s n => n = 13 /\ segment_wf (end_ d - start_ d) s).
Proof.
  eapply reads_weaken.
  - unfold DecodeDataSegmentInModule. reads_chain fail.
  - intros d a n Hok Hn Hav HQ. reads_split. split; [lia|]. unfold segment_wf.
    cbn [dest_addr source_offset source_size]. lia.
Qed.

Lemma reads_DecodeFunctionInModule :
  reads DecodeFunctionInModule (fun d f n =>
    n = function_entry_size f /\ function_wf (end_ d - start_ d) f).
Proof.
  eapply reads_weaken.
  - unfold DecodeFunctionInModule, string_. reads_chain ltac:(apply reads_sig).
  - intros d a n Hok Hn Hav HQ. reads_split.
    unfold function_entry_size, function_wf.
    cbn [Wasm.sig fn_name_offset code_start_offset code_end_offset local_int32_count
         local_int64_count local_float32_count local_float64_count].
    split; [lia|]. split; [done|]. lia.
Qed.

End Entries.

Lemma run_bind {A B} (m : M A) (k : A -> M B) d :
  run (m ≫= k) d = run (k (run m d).1) (run m d).2.
Proof. run_step. by destruct (run m d). Qed.

Section Loops.
Context `{WasmExternals}.

Lemma reads_VerifyFunctionBody i menv f :
  reads (VerifyFunctionBody i menv f) (fun _ _ n => n = 0).
Proof.
  intros d. unfold VerifyFunctionBody, get_bytes, get_start, put_result. run_step.
  destruct (error_code (VerifyWasmCode _ _ _ _ _)) eqn:E; cbn [run fst snd].
  - intros Hok. split; [done|]. exists 0. rewrite set_cur_0. split; [lia|]. split; [by left|done].
  - unfold ok. cbn [result_ set_result error_code]. discriminate.
Qed.

Lemma reads_decode_globals count : forall acc,
  reads (decode_globals count acc) (fun d gs n =>
    exists new, gs = acc ++ new /\ length new = count /\ n = 6 * Z.of_nat count /\
                Forall (global_wf (end_ d - start_ d)) new).
Proof.
  induction count as [|count IH]; intros acc; cbn [decode_globals].
  - eapply reads_weaken; [apply reads_ret|]. cbn. intros ? ? ? _ _ _ [-> ->].
    exists []. by rewrite app_nil_r.
  - apply (reads_bind_w _ _ _
             (fun (stop : bool) d gs n => stop = false ->
                exists new, gs = acc ++ new /\ length new = S count /\
                  n = 6 * Z.of_nat (S count) /\ Forall (global_wf (end_ d - start_ d)) new)
             _ reads_is_failed).
    + intros [|].
      * eapply reads_weaken; [apply reads_ret|]. intros; discriminate.
      * eapply reads_weaken; [apply (reads_bind _ _ _ _ reads_DecodeGlobalInModule
                                       (fun g => IH (acc ++ [g])))|].
        intros d gs n _ _ _ HQ _. reads_split.
        eexists (_ :: _). rewrite <- app_assoc. split; [reflexivity|].
        split; [cbn; lia|]. split; [lia|]. by constructor.
    + cbn. intros d a n1 b n2 _ _ _ _ _ (-> & ->) HQ. replace (cur_ d + 0) with (cur_ d) in HQ by lia.
      rewrite Z.add_0_l. cbn in HQ. by apply HQ.
Qed.

Lemma reads_decode_segments count : forall acc,
  reads (decode_segments count acc) (fun d ss n =>
    exists new, ss = acc ++ new /\ length new = count /\ n = 13 * Z.of_nat count /\
                Forall (segment_wf (end_ d - start_ d)) new).
Proof.
  induction count as [|count IH]; intros acc; cbn [decode_segments].
  - eapply reads_weaken; [apply reads_ret|]. cbn. intros ? ? ? _ _ _ [-> ->].
    exists []. by rewrite app_nil_r.
  - apply (reads_bind_w _ _ _
             (fun (stop : bool) d ss n => stop = false ->
                exists new, ss = acc ++ new /\ length new = S count /\
                  n = 13 * Z.of_nat (S count) /\ Forall (segment_wf (end_ d - start_ d)) new)
             _ reads_is_failed).
    + intros [|].
      * eapply reads_weaken; [apply reads_ret|]. intros; discriminate.
      * eapply reads_weaken; [apply (reads_bind _ _ _ _ reads_DecodeDataSegmentInModule
                                       (fun s => IH (acc ++ [s])))|].
        intros d ss n _ _ _ HQ _. reads_split.
        eexists (_ :: _). rewrite <- app_assoc. split; [reflexivity|].
        split; [cbn; lia|]. split; [lia|]. by constructor.
    + cbn. intros d a n1 b n2 _ _ _ _ _ (-> & ->) HQ. replace (cur_ d + 0) with (cur_ d) in HQ by lia.
      rewrite Z.add_0_l. cbn in HQ. by apply HQ.
Qed.

Lemma reads_decode_functions v module count : forall i acc,
  reads (decode_functions v module count i acc) (fun d fs n =>
    exists new, fs = acc ++ new /\ length new = count /\ n = functions_size new /\
                Forall (function_wf (end_ d - start_ d)) new).
Proof.
  induction count as [|count IH]; intros i acc; cbn [decode_functions].
  - eapply reads_weaken; [apply reads_ret|]. cbn. intros ? ? ? _ _ _ [-> ->].
    exists []. by rewrite app_nil_r.
  - apply (reads_bind_w _ _ _
             (fun (stop : bool) d fs n => stop = false ->
                exists new, fs = acc ++ new /\ length new = S count /\
                  n = functions_size new /\ Forall (function_wf (end_ d - start_ d)) new)
             _ reads_is_failed).
    + intros [|].
      * eapply reads_weaken; [apply reads_ret|]. intros; discriminate.
      * eapply reads_weaken.
        { eapply reads_bind; [apply reads_DecodeFunctionInModule|intros f].
          eapply reads_bind; [apply reads_is_ok|intros good].
          eapply (reads_bind _ _ (fun _ _ n => n = 0)); [|intros ?; apply IH].
          destruct (good && v); [destruct (external f)|];
            first [apply reads_VerifyFunctionBody
                  |eapply reads_weaken; [apply reads_ret|]; cbn; intros; intuition]. }
        intros d fs n _ _ _ HQ _. reads_split.
        eexists (_ :: _). rewrite <- app_assoc. split; [reflexivity|].
        split; [cbn; lia|]. split; [cbn [functions_size foldr]; unfold functions_size; lia|].
        by constructor.
    + cbn. intros d a n1 b n2 _ _ _ _ _ (-> & ->) HQ. replace (cur_ d + 0) with (cur_ d) in HQ by lia.
      rewrite Z.add_0_l. cbn in HQ. by apply HQ.
Qed.

End Loops.

Section EntryPoints.
Context `{WasmExternals}.

Lemma little_endian_indep d' d p q w :
  bytes d' = bytes d -> start_ d' = start_ d -> p = q ->
  little_endian d' p w = little_endian d q w.
Proof.
  intros Hb Hs ->. revert q. induction w as [|w IH]; intros q; cbn [little_endian]; [done|].
  rewrite IH. unfold deref. by rewrite Hb, Hs.
Qed.

Lemma deref_indep d' d p q :
  bytes d' = bytes d -> start_ d' = start_ d -> p = q -> deref d' p = deref d q.
Proof. intros Hb Hs ->. unfold deref. by rewrite Hb, Hs. Qed.

Lemma functions_size_nonneg fs : 0 <= functions_size fs.
Proof.
  unfold functions_size. induction fs as [|f fs IH]; cbn [fold_right]; [lia|].
  assert (22 <= function_entry_size f) by (unfold function_entry_size, sig_size; lia). lia.
Qed.

Lemma module_size_header m : 8 <= module_size m.
Proof. unfold module_size. pose proof (functions_size_nonneg (functions m)). lia. Qed.

(** A successful DecodeModule: what it has read and where it stopped. *)
Lemma DecodeModule_success v d :
  ok (run (DecodeModule v) d).2 = true ->
  let m := (run (DecodeModule v) d).1.1 in
  ok d = true /\
  (run (DecodeModule v) d).1.2 = result_ d /\
  (run (DecodeModule v) d).2 = set_cur d (start_ d + module_size m) /\
  start_ d + module_size m <= end_ d /\
  module_start m = start_ d /\ module_end m = end_ d /\
  mem_size_log2 m = deref d (start_ d) /\
  mem_export m = nonzero (deref d (start_ d + 1)) /\
  mem_external m = false /\
  Z.of_nat (length (globals m)) = little_endian d (start_ d + 2) 2 /\
  Z.of_nat (length (functions m)) = little_endian d (start_ d + 4) 2 /\
  Z.of_nat (length (data_segments m)) = little_endian d (start_ d + 6) 2 /\
  Forall (global_wf (end_ d - start_ d)) (globals m) /\
  Forall (function_wf (end_ d - start_ d)) (functions m) /\
  Forall (segment_wf (end_ d - start_ d)) (data_segments m).
Proof.
  unfold DecodeModule. rewrite !(run_bind get_start), !(run_bind get_end), !(run_bind (rewind_to _)).
  cbn [run get_start get_end rewind_to fst snd].
  match goal with
  | |- context [run ?tail (set_cur d (start_ d))] => set (m0 := tail)
  end.
  set (d0 := set_cur d (start_ d)).
  assert (Hr : reads m0 (fun d1 r n =>
    let m := r.1 in
    r.2 = result_ d1 /\
    n = module_size m /\
    module_start m = start_ d /\ module_end m = end_ d /\ mem_external m = false /\
    mem_size_log2 m = deref d1 (cur_ d1) /\
    mem_export m = nonzero (deref d1 (cur_ d1 + 1)) /\
    Z.of_nat (length (globals m)) = little_endian d1 (cur_ d1 + 2) 2 /\
    Z.of_nat (length (functions m)) = little_endian d1 (cur_ d1 + 4) 2 /\
    Z.of_nat (length (data_segments m)) = little_endian d1 (cur_ d1 + 6) 2 /\
    Forall (global_wf (end_ d1 - start_ d1)) (globals m) /\
    Forall (function_wf (end_ d1 - start_ d1)) (functions m) /\
    Forall (segment_wf (end_ d1 - start_ d1)) (data_segments m))).
  { subst m0. eapply reads_weaken.
    - do 5 (eapply reads_bind; [first [apply reads_u8|apply reads_u16]|intros ?]).
      eapply reads_bind; [apply reads_decode_globals|intros ?].
      eapply reads_bind; [apply reads_decode_functions|intros ?].
      eapply reads_bind; [apply reads_decode_segments|intros ?].
      eapply reads_bind; [apply (reads_get result_)|intros ?].
      apply reads_ret.
    - intros d1 r n _ _ _ HQ. reads_split.
      cbn [fst snd globals functions data_segments mem_size_log2 mem_export
           module_start module_end mem_external app] in *.
      unfold module_size. cbn [globals functions data_segments].
      repeat match goal with
             | Hl : length ?l = Z.to_nat _ |- _ => rewrite Hl in *
             end.
      rewrite !Z2Nat.id by lia.
      split; [done|]. split; [lia|]. do 3 (split; [done|]). split; [done|].
      split; [reflexivity|].
      split; [apply little_endian_indep; [done|done|lia]|].
      split; [apply little_endian_indep; [done|done|lia]|].
      split; [apply little_endian_indep; [done|done|lia]|].
      done. }
  intros Hok. destruct (Hr d0 Hok) as (Hd & n & Hn & Hav & E & HQ).
  cbv zeta in HQ. destruct HQ as (Hres & -> & HQ).
  split; [exact Hd|]. split; [exact Hres|]. split; [exact E|].
  split.
  { destruct Hav as [Hav|[_ Hav]]; [|exact Hav].
    pose proof (module_size_header (run m0 d0).1.1). lia. }
  simpl in HQ. intuition.
Qed.


Lemma ok_of_result (d : ModuleDecoder) (result : Result) :
  result = result_ d -> error_code result = kSuccess -> ok d = true.
Proof. intros -> E. unfold ok. by rewrite E. Qed.

(** X1: a module that DecodeModule accepts is laid out as the decoder read it:
    the header's two bytes and three 16-bit counts give the memory size, the
    export flag and the numbers of globals, functions and data segments that
    were decoded; the entries follow one another without gaps, 6 bytes per
    global, 24 bytes plus one per parameter for a function and 13 per data
    segment; the decoder stops right behind the last entry, inside the
    module.  A module shorter than its 8-byte header is never accepted. *)
Theorem DecodeModule_layout (verify_functions : bool) (d d' : ModuleDecoder)
    (m : WasmModule) (result : Result) :
  run (DecodeModule verify_functions) d = (m, result, d') ->
  error_code result = kSuccess ->
  cur_ d' = start_ d + module_size m /\
  8 <= module_size m <= end_ d - start_ d /\
  module_start m = start_ d /\ module_end m = end_ d /\
  mem_size_log2 m = deref d (start_ d) /\
  mem_export m = nonzero (deref d (start_ d + 1)) /\
  mem_external m = false /\
  Z.of_nat (length (globals m)) = little_endian d (start_ d + 2) 2 /\
  Z.of_nat (length (functions m)) = little_endian d (start_ d + 4) 2 /\
  Z.of_nat (length (data_segments m)) = little_endian d (start_ d + 6) 2 /\
  Z.of_nat (length (globals m)) < 2 ^ 16 /\
  Z.of_nat (length (functions m)) < 2 ^ 16 /\
  Z.of_nat (length (data_segments m)) < 2 ^ 16.
Proof.
  intros Hrun Hres.
  pose proof (reports_DecodeModule verify_functions d) as Hrep.
  pose proof (DecodeModule_success verify_functions d) as Hs.
  rewrite Hrun in Hrep, Hs. cbn [fst snd] in Hrep, Hs.
  destruct (Hs (ok_of_result _ _ Hrep Hres))
    as (_ & _ & -> & Hend & Hms & Hme & Hlog & Hexp & Hext & Hg & Hf & Hseg & _).
  pose proof (module_size_header m).
  pose proof (little_endian_range d (start_ d + 2) 2) as R2.
  pose proof (little_endian_range d (start_ d + 4) 2) as R4.
  pose proof (little_endian_range d (start_ d + 6) 2) as R6.
  change (256 ^ Z.of_nat 2) with 65536 in *.
  split; [reflexivity|]. split; [lia|]. do 8 (split; [assumption|]). lia.
Qed.

(** X2: in a module that DecodeModule accepts every offset field lies
    inside the module (name offsets, code start and end offsets, data source
    offsets are at most the module's length), every signature has at most
    one return type and no void return or parameter type, the local counts
    fit 16 bits, data segment addresses and sizes fit 32 bits, and the
    globals' offsets are still zero. *)
Theorem DecodeModule_entries_in_bounds (verify_functions : bool) (d d' : ModuleDecoder)
    (m : WasmModule) (result : Result) :
  run (DecodeModule verify_functions) d = (m, result, d') ->
  error_code result = kSuccess ->
  Forall (global_wf (end_ d - start_ d)) (globals m) /\
  Forall (function_wf (end_ d - start_ d)) (functions m) /\
  Forall (segment_wf (end_ d - start_ d)) (data_segments m).
Proof.
  intros Hrun Hres.
  pose proof (reports_DecodeModule verify_functions d) as Hrep.
  pose proof (DecodeModule_success verify_functions d) as Hs.
  rewrite Hrun in Hrep, Hs. cbn [fst snd] in Hrep, Hs.
  destruct (Hs (ok_of_result _ _ Hrep Hres))
    as (_ & _ & _ & _ & _ & _ & _ & _ & _ & _ & _ & _ & Hwf).
  exact Hwf.
Qed.

End EntryPoints.

Lemma DecodeModule_layout_sample :
  let run_ := run (DecodeModule (H := sample_externals) true) whole_module_decoder in
  error_code run_.1.2 = kSuccess /\
  cur_ run_.2 = 1052 /\ module_size run_.1.1 = 52 /\
  length (globals run_.1.1) = 1%nat /\ length (functions run_.1.1) = 1%nat /\
  length (data_segments run_.1.1) = 1%nat.
Proof.
  intros run_.
  assert (Hres : error_code run_.1.2 = kSuccess) by (vm_compute; reflexivity).
  assert (Hrun : run (DecodeModule (H := sample_externals) true) whole_module_decoder
                 = (run_.1.1, run_.1.2, run_.2))
    by (subst run_; by destruct (run (DecodeModule true) whole_module_decoder) as [[? ?] ?]).
  destruct (DecodeModule_layout (H := sample_externals) true _ _ _ _ Hrun Hres)
    as (Hcur & Hsize & _).
  split; [exact Hres|]. split; [rewrite Hcur; vm_compute; reflexivity|].
  vm_compute. repeat split.
Defined.

Lemma DecodeModule_entries_in_bounds_sample :
  let run_ := run (DecodeModule (H := sample_externals) true) whole_module_decoder in
  error_code run_.1.2 = kSuccess /\
  Forall (function_wf 56) (functions run_.1.1) /\
  code_start_offset <$> functions run_.1.1 = [52].
Proof.
  intros run_.
  assert (Hres : error_code run_.1.2 = kSuccess) by (vm_compute; reflexivity).
  assert (Hrun : run (DecodeModule (H := sample_externals) true) whole_module_decoder
                 = (run_.1.1, run_.1.2, run_.2))
    by (subst run_; by destruct (run (DecodeModule true) whole_module_decoder) as [[? ?] ?]).
  destruct (DecodeModule_entries_in_bounds (H := sample_externals) true _ _ _ _ Hrun Hres)
    as (_ & Hf & _).
  split; [exact Hres|]. split; [exact Hf|]. vm_compute. reflexivity.
Defined.

Section SingleFunction.
Context `{WasmExternals}.

Lemma run_DecodeFunctionSignature p d :
  run (DecodeFunctionSignature p) d =
    (if ok (run sig (set_cur d p)).2 then Some (run sig (set_cur d p)).1 else None,
     (run sig (set_cur d p)).2).
Proof.
  unfold DecodeFunctionSignature, rewind_to, is_ok. run_step.
  by destruct (run sig (set_cur d p)) as [r d1].
Qed.

(** X3: DecodeFunctionSignature returns a signature only when no error is
    latched before or by the read; the signature then has as many parameters
    as the count byte at [start] says, at most one return type and no void
    return or parameter type, and its [2 + count] bytes lie inside the
    module, where the decoder stops. *)
Theorem DecodeFunctionSignature_some (start : Z) (d : ModuleDecoder) (s : FunctionSig) :
  (run (DecodeFunctionSignature start) d).1 = Some s ->
  ok d = true /\ sig_wf s /\
  Z.of_nat (length (sig_params s)) = deref d start /\
  start_ d <= start /\ start + sig_size s <= end_ d /\
  cur_ (run (DecodeFunctionSignature start) d).2 = start + sig_size s.
Proof.
  rewrite run_DecodeFunctionSignature. cbn [fst snd].
  destruct (ok (run sig (set_cur d start)).2) eqn:Hok; [|discriminate].
  destruct (reads_sig _ Hok) as (Hd & n & Hn & Hav & E & Hn' & Hwf & Hc).
  subst n. unfold available in Hav.
  set (r := run sig (set_cur d start)) in *. clearbody r.
  intros [= <-]. rewrite E.
  cbn [set_cur cur_ start_ end_] in Hav, Hc |- *.
  split; [exact Hd|]. split; [exact Hwf|]. split; [exact Hc|].
  destruct Hav as [Hav|[? ?]]; [unfold sig_size in Hav; lia|].
  split; [lia|]. split; [lia|]. reflexivity.
Qed.

(** A successful DecodeSingleFunction. *)
Lemma DecodeSingleFunction_success env d :
  ok (run (DecodeSingleFunction env) d).2 = true ->
  let f := (run (DecodeSingleFunction env) d).1.1 in
  ok d = true /\
  (run (DecodeSingleFunction env) d).2 = set_cur d (start_ d + sig_size (Wasm.sig f) + 8) /\
  start_ d + sig_size (Wasm.sig f) + 8 <= end_ d /\
  sig_wf (Wasm.sig f) /\
  Z.of_nat (length (sig_params (Wasm.sig f))) = deref d (start_ d) /\
  fn_name_offset f = 0 /\
  code_start_offset f = sig_size (Wasm.sig f) + 8 /\
  code_end_offset f = uint32 (end_ d - start_ d) /\
  local_int32_count f = little_endian d (start_ d + sig_size (Wasm.sig f)) 2 /\
  local_int64_count f = little_endian d (start_ d + sig_size (Wasm.sig f) + 2) 2 /\
  local_float32_count f = little_endian d (start_ d + sig_size (Wasm.sig f) + 4) 2 /\
  local_float64_count f = little_endian d (start_ d + sig_size (Wasm.sig f) + 6) 2 /\
  fn_exported f = false /\ external f = false.
Proof.
  unfold DecodeSingleFunction.
  rewrite !(run_bind get_start), !(run_bind get_end), !(run_bind (rewind_to _)).
  cbn [run get_start get_end rewind_to fst snd].
  match goal with
  | |- context [run ?tail (set_cur d (start_ d))] => set (m0 := tail)
  end.
  set (d0 := set_cur d (start_ d)).
  assert (Hr : reads m0 (fun d1 r n =>
    let f := r.1 in
    n = sig_size (Wasm.sig f) + 8 /\
    sig_wf (Wasm.sig f) /\
    Z.of_nat (length (sig_params (Wasm.sig f))) = deref d1 (cur_ d1) /\
    fn_name_offset f = 0 /\
    code_start_offset f = uint32 (cur_ d1 + sig_size (Wasm.sig f) + 8 - start_ d) /\
    code_end_offset f = uint32 (end_ d - start_ d) /\
    local_int32_count f = little_endian d1 (cur_ d1 + sig_size (Wasm.sig f)) 2 /\
    local_int64_count f = little_endian d1 (cur_ d1 + sig_size (Wasm.sig f) + 2) 2 /\
    local_float32_count f = little_endian d1 (cur_ d1 + sig_size (Wasm.sig f) + 4) 2 /\
    local_float64_count f = little_endian d1 (cur_ d1 + sig_size (Wasm.sig f) + 6) 2 /\
    fn_exported f = false /\ external f = false)).
  { subst m0. eapply reads_weaken.
    - eapply reads_bind; [apply reads_sig|intros ?].
      eapply reads_bind; [apply (reads_get cur_)|intros ?].
      do 4 (eapply reads_bind; [apply reads_u16|intros ?]).
      eapply reads_bind; [apply reads_is_ok|intros good].
      eapply (reads_bind _ _ (fun _ _ n => n = 0)).
      { destruct good; [apply reads_VerifyFunctionBody|].
        eapply reads_weaken; [apply reads_ret|]. cbn. intros; intuition. }
      intros ?. eapply reads_bind; [apply (reads_get result_)|intros ?].
      apply reads_ret.
    - intros d1 r n _ _ _ HQ. reads_split.
      cbn [fst snd Wasm.sig fn_name_offset code_start_offset code_end_offset
           local_int32_count local_int64_count local_float32_count local_float64_count
           fn_exported external] in *.
      split; [lia|]. split; [done|]. split; [done|]. split; [done|].
      split; [f_equal; lia|]. split; [done|].
      split; [apply little_endian_indep; [done|done|lia]|].
      split; [apply little_endian_indep; [done|done|lia]|].
      split; [apply little_endian_indep; [done|done|lia]|].
      split; [apply little_endian_indep; [done|done|lia]|]. done. }
  intros Hok. destruct (Hr d0 Hok) as (Hd & n & Hn & Hav & E & HQ).
  cbv zeta in HQ. destruct HQ as (-> & Hwf & Hc & Hname & Hcs & HQ).
  assert (Hend : start_ d + sig_size (Wasm.sig (run m0 d0).1.1) + 8 <= end_ d).
  { destruct Hav as [Hav|[_ Hav]]; [unfold sig_size in Hav; lia|].
    subst d0. cbn [set_cur cur_ end_] in Hav. lia. }
  split; [exact Hd|]. split; [rewrite E; subst d0; cbn; f_equal; lia|].
  split; [exact Hend|]. split; [exact Hwf|]. split; [exact Hc|]. split; [exact Hname|].
  split.
  { rewrite Hcs. subst d0. cbn [set_cur cur_]. destruct Hwf as (_ & _ & _ & Hl).
    unfold uint32, sig_size in *. rewrite Z.mod_small; lia. }
  exact HQ.
Qed.

(** X4: a function that DecodeSingleFunction accepts starts with its
    signature (well formed, as many parameters as its first byte says) and
    four 16-bit local counts; its code is what follows: the code start offset
    is the offset at which the decoder stops, [2 + parameters + 8], inside the
    function's bytes, and the code end offset is the length of the bytes (as a
    uint32).  The name offset is 0 and the function is neither exported nor
    external. *)
Theorem DecodeSingleFunction_layout (module_env : option WasmModule) (d d' : ModuleDecoder)
    (f : WasmFunction) (result : Result) :
  run (DecodeSingleFunction module_env) d = (f, result, d') ->
  error_code result = kSuccess ->
  sig_wf (Wasm.sig f) /\
  Z.of_nat (length (sig_params (Wasm.sig f))) = deref d (start_ d) /\
  code_start_offset f = sig_size (Wasm.sig f) + 8 /\
  cur_ d' = start_ d + code_start_offset f /\
  code_start_offset f <= end_ d - start_ d /\
  code_end_offset f = uint32 (end_ d - start_ d) /\
  local_int32_count f = little_endian d (start_ d + sig_size (Wasm.sig f)) 2 /\
  local_int64_count f = little_endian d (start_ d + sig_size (Wasm.sig f) + 2) 2 /\
  local_float32_count f = little_endian d (start_ d + sig_size (Wasm.sig f) + 4) 2 /\
  local_float64_count f = little_endian d (start_ d + sig_size (Wasm.sig f) + 6) 2 /\
  fn_name_offset f = 0 /\ fn_exported f = false /\ external f = false.
Proof.
  intros Hrun Hres.
  pose proof (reports_DecodeSingleFunction module_env d) as Hrep.
  pose proof (DecodeSingleFunction_success module_env d) as Hs.
  rewrite Hrun in Hrep, Hs. cbn [fst snd] in Hrep, Hs.
  destruct (Hs (ok_of_result _ _ Hrep Hres))
    as (_ & -> & Hend & Hwf & Hc & Hname & Hcs & Hce & H32 & H64 & F32 & F64 & Hex & Hext).
  rewrite Hcs. cbn [set_cur cur_].
  split; [done|]. split; [done|]. split; [done|]. split; [lia|]. split; [lia|].
  do 5 (split; [assumption|]). done.
Qed.

End SingleFunction.

Lemma DecodeFunctionSignature_some_sample :
  (run (DecodeFunctionSignature (H := sample_externals) 2000) sample_function_decoder).1
    = Some (mkSig [kAstI32] [kAstI32; kAstI32]) /\
  cur_ (run (DecodeFunctionSignature (H := sample_externals) 2000) sample_function_decoder).2
    = 2004.
Proof.
  assert (Hrun : (run (DecodeFunctionSignature (H := sample_externals) 2000)
                    sample_function_decoder).1
                 = Some (mkSig [kAstI32] [kAstI32; kAstI32])) by (vm_compute; reflexivity).
  split; [exact Hrun|].
  destruct (DecodeFunctionSignature_some (H := sample_externals) _ _ _ Hrun) as (_ & _ & _ & _ & _ & ->).
  reflexivity.
Defined.

Lemma DecodeSingleFunction_layout_sample :
  let run_ := run (DecodeSingleFunction (H := sample_externals) None) sample_function_decoder in
  error_code run_.1.2 = kSuccess /\
  code_start_offset run_.1.1 = 12 /\ cur_ run_.2 = 2012 /\ code_end_offset run_.1.1 = 15.
Proof.
  intros run_.
  assert (Hres : error_code run_.1.2 = kSuccess) by (vm_compute; reflexivity).
  assert (Hrun : run (DecodeSingleFunction (H := sample_externals) None) sample_function_decoder
                 = (run_.1.1, run_.1.2, run_.2))
    by (subst run_;
        by destruct (run (DecodeSingleFunction None) sample_function_decoder) as [[? ?] ?]).
  destruct (DecodeSingleFunction_layout (H := sample_externals) None _ _ _ _ Hrun Hres)
    as (_ & _ & _ & Hcur & _ & Hce & _).
  split; [exact Hres|]. split; [vm_compute; reflexivity|].
  split; [rewrite Hcur; vm_compute; reflexivity|]. rewrite Hce. vm_compute. reflexivity.
Defined.

(** *** The position never leaves the module *)

Lemma kr_ret {A} (a : A) : keeps_range (mret a).
Proof. intros d Hd. cbn. unfold in_range in Hd. repeat split; lia. Qed.

Lemma kr_bind {A B} (m : M A) (k : A -> M B) :
  keeps_range m -> (forall a, keeps_range (k a)) -> keeps_range (m ≫= k).
Proof.
  intros Hm Hk d Hd. rewrite run_bind.
  destruct (Hm d Hd) as (Hb & Hs & He & Hc).
  destruct (Hk (run m d).1 (run m d).2) as (Hb' & Hs' & He' & Hc').
  { unfold in_range in *. lia. }
  rewrite Hb', Hs', He', Hb, Hs, He. repeat split; lia.
Qed.

Lemma kr_state {A} (f : ModuleDecoder -> A) (g : ModuleDecoder -> ModuleDecoder) :
  (forall d, bytes (g d) = bytes d /\ start_ (g d) = start_ d /\ end_ (g d) = end_ d /\
             cur_ (g d) = cur_ d) ->
  keeps_range (Act (fun d => (f d, g d))).
Proof.
  intros Hg d Hd. cbn. destruct (Hg d) as (-> & -> & -> & ->).
  unfold in_range in Hd. repeat split; lia.
Qed.

Lemma kr_error pc msg pt : keeps_range (error pc msg pt).
Proof.
  intros d Hd. unfold error. cbn [run]. unfold in_range in Hd.
  destruct (ok d); cbn; repeat split; lia.
Qed.

Lemma truncated_same size d :
  bytes (truncated size d) = bytes d /\ start_ (truncated size d) = start_ d /\
  end_ (truncated size d) = end_ d /\ cur_ (truncated size d) = cur_ d.
Proof. unfold truncated. by destruct (ok d). Qed.

Lemma kr_read (m : M Z) (size : Z) (value : ModuleDecoder -> Z) :
  0 <= size ->
  (forall d, run m d = if short d size then (0, truncated size d)
                       else (value d, set_cur d (cur_ d + size))) ->
  keeps_range m.
Proof.
  intros Hsize Hrun d Hd. rewrite Hrun. destruct (short d size) eqn:E; cbn [snd].
  - destruct (truncated_same size d) as (-> & -> & -> & ->).
    unfold in_range in Hd. repeat split; lia.
  - apply short_available in E. destruct E. cbn. repeat split; lia.
Qed.

Lemma kr_u8 : keeps_range u8.
Proof. apply (kr_read _ 1 (fun d => little_endian d (cur_ d) 1)); [lia|apply u8_run]. Qed.
Lemma kr_u16 : keeps_range u16.
Proof. apply (kr_read _ 2 (fun d => little_endian d (cur_ d) 2)); [lia|apply u16_run]. Qed.
Lemma kr_u32 : keeps_range u32.
Proof. apply (kr_read _ 4 (fun d => little_endian d (cur_ d) 4)); [lia|apply u32_run]. Qed.

Ltac kr_prim := apply kr_state; intros; repeat split; reflexivity.
Ltac kr :=
  repeat first
    [ apply kr_ret | apply kr_error | apply kr_u8 | apply kr_u16 | apply kr_u32
    | apply kr_bind; [|intros ?]
    | kr_prim
    | match goal with
      | |- keeps_range (match ?x with _ => _ end) => destruct x
      end
    | assumption ].

Lemma kr_offset : keeps_range offset.
Proof. unfold offset, extent, get_cur. kr. Qed.

Section KeepsRange.
Context `{WasmExternals}.

Lemma kr_local_type : keeps_range local_type.
Proof. unfold local_type, get_cur. kr. Qed.

Lemma kr_mem_type : keeps_range mem_type.
Proof. unfold mem_type, get_cur. kr. Qed.

Lemma kr_sig_params_loop n : keeps_range (sig_params_loop n).
Proof.
  induction n as [|n IH]; cbn [sig_params_loop]; [kr|].
  apply kr_bind; [apply kr_local_type|intros param].
  apply kr_bind; [unfold get_cur; kr|intros _].
  apply kr_bind; [exact IH|intros rest]. kr.
Qed.

Lemma kr_sig : keeps_range sig.
Proof.
  unfold sig. apply kr_bind; [kr|intros count].
  apply kr_bind; [apply kr_local_type|intros r].
  apply kr_bind; [apply kr_sig_params_loop|intros p]. kr.
Qed.

Lemma kr_DecodeGlobalInModule : keeps_range DecodeGlobalInModule.
Proof.
  unfold DecodeGlobalInModule, string_.
  apply kr_bind; [apply kr_offset|intros ?]. apply kr_bind; [apply kr_mem_type|intros ?]. kr.
Qed.

Lemma kr_DecodeFunctionInModule : keeps_range DecodeFunctionInModule.
Proof.
  unfold DecodeFunctionInModule, string_.
  apply kr_bind; [apply kr_sig|intros ?].
  do 3 (apply kr_bind; [apply kr_offset|intros ?]). kr.
Qed.

Lemma kr_DecodeDataSegmentInModule : keeps_range DecodeDataSegmentInModule.
Proof.
  unfold DecodeDataSegmentInModule.
  apply kr_bind; [kr|intros ?]. apply kr_bind; [apply kr_offset|intros ?]. kr.
Qed.

Lemma kr_VerifyFunctionBody i menv f : keeps_range (VerifyFunctionBody i menv f).
Proof. unfold VerifyFunctionBody, get_bytes, get_start, put_result. kr. Qed.

Lemma kr_decode_globals n : forall acc, keeps_range (decode_globals n acc).
Proof.
  induction n as [|n IH]; intros acc; cbn [decode_globals]; [kr|].
  apply kr_bind; [unfold is_failed; kr|intros stop]. destruct stop; [kr|].
  apply kr_bind; [apply kr_DecodeGlobalInModule|intros g]. apply IH.
Qed.

Lemma kr_decode_segments n : forall acc, keeps_range (decode_segments n acc).
Proof.
  induction n as [|n IH]; intros acc; cbn [decode_segments]; [kr|].
  apply kr_bind; [unfold is_failed; kr|intros stop]. destruct stop; [kr|].
  apply kr_bind; [apply kr_DecodeDataSegmentInModule|intros g]. apply IH.
Qed.

Lemma kr_decode_functions v module n : forall i acc,
  keeps_range (decode_functions v module n i acc).
Proof.
  induction n as [|n IH]; intros i acc; cbn [decode_functions]; [kr|].
  apply kr_bind; [unfold is_failed; kr|intros stop]. destruct stop; [kr|].
  apply kr_bind; [apply kr_DecodeFunctionInModule|intros f].
  apply kr_bind; [unfold is_ok; kr|intros good].
  apply kr_bind; [|intros _; apply IH].
  destruct (good && v); [destruct (external f)|]; first [apply kr_VerifyFunctionBody|kr].
Qed.

Lemma new_ModuleDecoder_bounds mem s e :
  let d := new_ModuleDecoder mem s e in
  bytes d = mem /\ start_ d = s /\ cur_ d = s /\ end_ d = Z.max s e.
Proof.
  unfold new_ModuleDecoder. destruct (Z.ltb_spec e s); cbn; repeat split; lia.
Qed.

(** An entry point rewinds to [start_] and goes forward from there. *)
Lemma kr_rewound {A} (k : Z -> Z -> M A) d :
  (forall base limit, keeps_range (k base limit)) ->
  start_ d <= end_ d ->
  let d' := (run (base ← get_start; limit ← get_end; rewind_to base;; k base limit) d).2 in
  bytes d' = bytes d /\ start_ d' = start_ d /\ end_ d' = end_ d /\
  start_ d <= cur_ d' <= end_ d.
Proof.
  intros Hk Hd. rewrite (run_bind get_start), (run_bind get_end), (run_bind (rewind_to _)).
  cbn [run get_start get_end rewind_to fst snd].
  destruct (Hk (start_ d) (end_ d) (set_cur d (start_ d))) as (Hb & Hs & He & Hc).
  { unfold in_range. cbn. lia. }
  cbn [set_cur bytes start_ end_ cur_] in Hb, Hs, He, Hc. cbv zeta.
  rewrite Hb, Hs, He. repeat split; lia.
Qed.

Lemma DecodeModule_stays v d :
  start_ d <= end_ d ->
  let d' := (run (DecodeModule v) d).2 in
  bytes d' = bytes d /\ start_ d' = start_ d /\ end_ d' = end_ d /\
  start_ d <= cur_ d' <= end_ d.
Proof.
  apply (kr_rewound (fun base limit => _)). intros base limit.
  do 5 (apply kr_bind; [kr|intros ?]).
  apply kr_bind; [apply kr_decode_globals|intros ?].
  apply kr_bind; [apply kr_decode_functions|intros ?].
  apply kr_bind; [apply kr_decode_segments|intros ?].
  unfold get_result. kr.
Qed.

Lemma DecodeSingleFunction_stays env d :
  start_ d <= end_ d ->
  let d' := (run (DecodeSingleFunction env) d).2 in
  bytes d' = bytes d /\ start_ d' = start_ d /\ end_ d' = end_ d /\
  start_ d <= cur_ d' <= end_ d.
Proof.
  apply (kr_rewound (fun base limit => _)). intros base limit.
  apply kr_bind; [apply kr_sig|intros ?].
  apply kr_bind; [unfold get_cur; kr|intros ?].
  do 4 (apply kr_bind; [kr|intros ?]).
  apply kr_bind; [unfold is_ok; kr|intros good].
  apply kr_bind; [destruct good; [apply kr_VerifyFunctionBody|kr]|intros ?].
  unfold get_result. kr.
Qed.

(** X5: whatever bytes and bounds the decoder is constructed with, and
    whichever errors are latched on the way, DecodeModule and
    DecodeSingleFunction leave the module bytes and bounds as the constructor
    set them ([end_] is raised to [start_] when it was below) and stop with the
    position inside the module, between [start_] and [end_]. *)
Theorem decoder_stays_in_module (mem : list byte) (module_start module_end : Z)
    (verify_functions : bool) (module_env : option WasmModule) :
  let d := new_ModuleDecoder mem module_start module_end in
  let stays (d' : ModuleDecoder) :=
    bytes d' = mem /\ start_ d' = module_start /\
    end_ d' = Z.max module_start module_end /\
    module_start <= cur_ d' <= Z.max module_start module_end in
  stays d /\
  stays (run (DecodeModule verify_functions) d).2 /\
  stays (run (DecodeSingleFunction module_env) d).2.
Proof.
  intros d stays.
  destruct (new_ModuleDecoder_bounds mem module_start module_end) as (Hb & Hs & Hc & He).
  fold d in Hb, Hs, Hc, He.
  assert (Hle : start_ d <= end_ d) by lia.
  pose proof (DecodeModule_stays verify_functions d Hle) as Hm.
  pose proof (DecodeSingleFunction_stays module_env d Hle) as Hf.
  cbv zeta in Hm, Hf. rewrite Hb, Hs, He in Hm, Hf. unfold stays.
  split; [rewrite Hb, Hs, Hc, He; repeat split; lia|]. split; assumption.
Qed.

End KeepsRange.

Section ReversedBounds.
Context `{WasmExternals}.

(** X6: a decoder constructed with [module_end] below [module_start] has
    the error "end is less than start" latched at [module_start] and an empty
    module; DecodeModule on it reads nothing, decodes no entry and reports
    that error. *)
Theorem DecodeModule_reversed_bounds (mem : list byte) (module_start module_end : Z)
    (verify_functions : bool) :
  module_end < module_start ->
  let result :=
    {| error_code := kError; start := module_start; error_pc := Some module_start;
       error_pt := None; error_msg := Some "end is less than start"%string |} in
  let d := {| bytes := mem; start_ := module_start; cur_ := module_start;
              end_ := module_start; result_ := result |} in
  new_ModuleDecoder mem module_start module_end = d /\
  run (DecodeModule verify_functions) d =
    (mkModule module_start module_start 0 false false [] [] [], result, d).
Proof.
  intros Hlt result d. split.
  { unfold new_ModuleDecoder. replace (module_end <? module_start) with true by lia.
    reflexivity. }
  assert (Hshort : forall size, 0 < size -> short d size = true).
  { intros size Hsize. unfold short. cbn [d cur_ start_ end_].
    replace (module_start <? module_start + size) with true by lia. apply orb_true_r. }
  assert (H8 : run u8 d = (0, d)) by (rewrite u8_run, Hshort by lia; reflexivity).
  assert (H16 : run u16 d = (0, d)) by (rewrite u16_run, Hshort by lia; reflexivity).
  unfold DecodeModule. rewrite (run_bind get_start), (run_bind get_end), (run_bind (rewind_to _)).
  cbn [run get_start get_end rewind_to fst snd].
  change (set_cur d (start_ d)) with d.
  rewrite (run_bind u8), H8. cbn [fst snd].
  rewrite (run_bind u8), H8. cbn [fst snd].
  rewrite (run_bind u16), H16. cbn [fst snd].
  rewrite (run_bind u16), H16. cbn [fst snd].
  rewrite (run_bind u16), H16. cbn [fst snd].
  reflexivity.
Qed.

End ReversedBounds.

Lemma DecodeModule_reversed_bounds_sample :
  (run (DecodeModule (H := sample_externals) true) (new_ModuleDecoder [] 8 0)).1 =
    (mkModule 8 8 0 false false [] [] [],
     {| error_code := kError; start := 8; error_pc := Some 8;
        error_pt := None; error_msg := Some "end is less than start"%string |}).
Proof.
  destruct (DecodeModule_reversed_bounds (H := sample_externals) [] 8 0 true ltac:(lia))
    as [-> ->].
  reflexivity.
Defined.

End DecoderLayoutFacts.


(** ** Compilation sessions and Link *)

Module LinkerSessionFacts.
Import Linker LinkerSession LinkerFacts.

(** *** The placeholder marker *)

(** X7: the index of a function survives the trip through the placeholder's
    constant-pool-offset field exactly when [index + kPlaceholderMarker] fits
    an [int]: for an index below 2^31 - 10^9 the placeholder is recognised
    and LinkFunction reads the index back; for any other 32-bit index the
    object GetFunctionCode allocates is not recognised as a placeholder. *)
Theorem placeholder_marker_round_trip (index : Z) :
  0 <= index < 2 ^ 32 ->
  is_placeholder (placeholder_object index) = (index <? 2 ^ 31 - kPlaceholderMarker) /\
  (index < 2 ^ 31 - kPlaceholderMarker ->
   uint32 (constant_pool_offset (placeholder_object index) - kPlaceholderMarker) = index).
Proof.
  intros Hi. unfold placeholder_object, is_placeholder, kPlaceholderMarker.
  cbn [kind constant_pool_offset]. unfold int32, uint32. rewrite Z.mod_mod by lia.
  destruct (Z.ltb_spec index (2 ^ 31 - 1000000000)) as [Hlt|Hge].
  - rewrite (Z.mod_small (index + 1000000000)) by lia.
    replace (index + 1000000000 <? 2 ^ 31) with true by lia.
    split; [lia|]. intros _. rewrite Z.mod_small by lia. lia.
  - split; [|lia].
    destruct (Z.ltb_spec (index + 1000000000) (2 ^ 32)) as [Hlt|Hw].
    + rewrite (Z.mod_small (index + 1000000000)) by lia.
      replace (index + 1000000000 <? 2 ^ 31) with false by lia. lia.
    + replace ((index + 1000000000) mod 2 ^ 32) with (index + 1000000000 - 2 ^ 32).
      2:{ apply Z.mod_unique with 1; lia. }
      replace (index + 1000000000 - 2 ^ 32 <? 2 ^ 31) with true by lia. lia.
Qed.

Lemma placeholder_marker_round_trip_sample :
  is_placeholder (placeholder_object 7) = true /\
  uint32 (constant_pool_offset (placeholder_object 7) - kPlaceholderMarker) = 7 /\
  is_placeholder (placeholder_object 1147483648) = false.
Proof.
  destruct (placeholder_marker_round_trip 7 ltac:(lia)) as [Hp Hd].
  destruct (placeholder_marker_round_trip 1147483648 ltac:(lia)) as [Hq _].
  split; [rewrite Hp; reflexivity|]. split; [apply Hd; vm_compute; reflexivity|].
  rewrite Hq. reflexivity.
Defined.

(** *** What Link changes *)

Section LinkFrame.
Context `{RelocModes}.

Lemma link_target_mode w r r' p : link_target w r = Some (r', p) -> rmode r' = rmode r.
Proof.
  unfold link_target. intros Hl.
  repeat (case_match; simplify_option_eq; try done).
Qed.

Lemma link_target_redirected w r r' p : link_target w r = Some (r', p) -> redirected w r = r'.
Proof. unfold redirected. by intros ->. Qed.

Lemma redirected_static w w' r : same_static w w' -> redirected w' r = redirected w r.
Proof. intros Hs. unfold redirected. by rewrite (link_target_static _ _ _ Hs). Qed.

Lemma store_relocs_length w code relocs :
  length (code_space (store_relocs w code relocs)) = length (code_space w).
Proof. cbn [store_relocs code_space]. apply length_alter. Qed.

Lemma link_relocs_frame code pending : forall visited modified w w' modified',
  relocs_of w code = Some (visited ++ pending) ->
  link_relocs code visited pending modified w = Some (w', modified') ->
  same_static w w' /\
  (forall c, c <> code -> code_space w' !! c = code_space w !! c) /\
  length (code_space w') = length (code_space w) /\
  relocs_of w' code = Some (visited ++ map (redirected w) pending).
Proof.
  induction pending as [|r pending IH]; intros visited modified w w' modified' Hrel Hrun;
    cbn [link_relocs] in Hrun.
  - simplify_eq. split; [apply same_static_refl|]. done.
  - destruct (link_target w r) as [[r' patched]|] eqn:Hl; cbn in Hrun; [|done].
    set (w1 := if patched then store_relocs w code (visited ++ r' :: pending) else w) in *.
    assert (Hs1 : same_static w w1).
    { subst w1. destruct patched; [apply same_static_store|apply same_static_refl]. }
    assert (Hrel1 : relocs_of w1 code = Some ((visited ++ [r']) ++ pending)).
    { subst w1. rewrite <- app_assoc. cbn [app]. destruct patched.
      - eapply relocs_of_store, Hrel.
      - by rewrite (link_target_unpatched _ _ _ Hl). }
    assert (Hne1 : forall c, c <> code -> code_space w1 !! c = code_space w !! c).
    { intros c Hc. subst w1. destruct patched; [by apply store_relocs_other|done]. }
    assert (Hlen1 : length (code_space w1) = length (code_space w)).
    { subst w1. destruct patched; [apply store_relocs_length|done]. }
    destruct (IH _ _ _ _ _ Hrel1 Hrun) as (Hs & Hne & Hlen & Hrel').
    split; [eapply same_static_trans; eauto|].
    split; [intros c Hc; rewrite Hne, Hne1; done|].
    split; [lia|].
    rewrite Hrel', <- app_assoc. cbn [app map].
    rewrite (link_target_redirected _ _ _ _ Hl). do 3 f_equal.
    apply map_ext. intros r0. by apply redirected_static.
Qed.

Lemma LinkFunction_frame c w w' modified :
  LinkFunction (Some c) w = Some (w', modified) ->
  same_static w w' /\
  (forall c', c' <> c -> code_space w' !! c' = code_space w !! c') /\
  length (code_space w') = length (code_space w) /\
  exists relocs, relocs_of w c = Some relocs /\
                 relocs_of w' c = Some (map (redirected w) relocs).
Proof.
  unfold LinkFunction. cbn [mbind option_bind].
  destruct (code_space w !! c) as [obj|] eqn:Hobj; cbn [mbind option_bind]; [|done].
  intros Hrun. apply link_relocs_frame in Hrun as (Hs & Hne & Hlen & Hrel);
    [|unfold relocs_of; by rewrite Hobj].
  split; [done|]. split; [done|]. split; [done|].
  exists (relocation_info obj). split; [unfold relocs_of; by rewrite Hobj|done].
Qed.

Lemma redirected_mode w r : rmode (redirected w r) = rmode r.
Proof.
  unfold redirected. destruct (link_target w r) as [[r' p]|] eqn:E; [|done].
  by apply link_target_mode in E.
Qed.

Lemma same_but_targets_refl obj : same_but_targets obj obj.
Proof. by repeat split. Qed.

Lemma same_but_targets_trans o1 o2 o3 :
  same_but_targets o1 o2 -> same_but_targets o2 o3 -> same_but_targets o1 o3.
Proof.
  intros (K1 & C1 & F1) (K2 & C2 & F2). split; [congruence|]. split; congruence.
Qed.

Lemma relocs_redirected_same_but_targets w w' c obj obj' relocs :
  same_static w w' ->
  code_space w !! c = Some obj -> code_space w' !! c = Some obj' ->
  relocs_of w c = Some relocs -> relocs_of w' c = Some (map (redirected w) relocs) ->
  same_but_targets obj obj'.
Proof.
  intros (_ & _ & Mk) Hobj Hobj' Hrel Hrel'. specialize (Mk c).
  rewrite Hobj, Hobj' in Mk. cbn in Mk. unfold marking in Mk. injection Mk as K C.
  unfold relocs_of in *. rewrite Hobj in Hrel. rewrite Hobj' in Hrel'. simplify_eq/=.
  split; [done|]. split; [done|]. rewrite Hrel'.
  rewrite <- list_fmap_compose. apply list_fmap_ext. intros i r _. apply redirected_mode.
Qed.

Lemma Link_from_frame n : forall i w w' flushed,
  Link_from i n w = Some (w', flushed) ->
  same_static w w' /\
  length flushed = n /\
  length (code_space w') = length (code_space w) /\
  (forall c obj', code_space w' !! c = Some obj' ->
     exists obj, code_space w !! c = Some obj /\ same_but_targets obj obj') /\
  (forall c, (forall j, (i <= j < i + n)%nat -> function_code_ w !! j <> Some (Some c)) ->
     code_space w' !! c = code_space w !! c).
Proof.
  induction n as [|n IH]; intros i w w' flushed Hrun; cbn [Link_from] in Hrun.
  - simplify_eq. split; [apply same_static_refl|]. split; [done|]. split; [done|].
    split; [|done]. intros c obj' Hobj. exists obj'. split; [done|apply same_but_targets_refl].
  - destruct (function_code_ w !! i) as [h|] eqn:Hh; cbn in Hrun; [|done].
    destruct (LinkFunction h w) as [[w1 m]|] eqn:Hlf; cbn in Hrun; [|done].
    destruct (Link_from (S i) n w1) as [[w2 ms]|] eqn:Hrest; cbn in Hrun; [|done].
    simplify_eq. destruct h as [c0|]; [|done].
    destruct (LinkFunction_frame _ _ _ _ Hlf) as (Hs1 & Hne1 & Hlen1 & relocs & Hr & Hr1).
    destruct (IH _ _ _ _ Hrest) as (Hs2 & Hfl & Hlen2 & Hobj2 & Hun2).
    split; [eapply same_static_trans; eauto|]. split; [cbn; lia|]. split; [lia|].
    split.
    + intros c obj' Hobj'. destruct (Hobj2 c obj' Hobj') as (obj1 & Hobj1 & Hsb).
      destruct (decide (c = c0)) as [->|Hc].
      * destruct (code_space w !! c0) as [obj|] eqn:Hobj;
          [|unfold relocs_of in Hr; rewrite Hobj in Hr; done].
        exists obj. split; [done|]. eapply same_but_targets_trans; [|exact Hsb].
        exact (relocs_redirected_same_but_targets w w1 c0 obj obj1 relocs Hs1 Hobj Hobj1 Hr Hr1).
      * exists obj1. split; [by rewrite <- Hne1|done].
    + intros c Hc. rewrite Hun2.
      * apply Hne1. intros ->. by apply (Hc i ltac:(lia)).
      * intros j Hj. destruct Hs1 as (F & _). rewrite F. apply Hc. lia.
Qed.

(** X8: Link changes nothing but target addresses of relocations in the code
    of the module's functions: the two tables of the linker, the number of
    code objects, every object's kind and constant-pool offset and every
    relocation's mode are as before, code objects that are no function's
    code are untouched, and Link reports one flush flag per function. *)
Theorem Link_changes_only_targets (w w' : World) (flushed : list bool) :
  Link w = Some (w', flushed) ->
  function_code_ w' = function_code_ w /\
  placeholder_code_ w' = placeholder_code_ w /\
  length flushed = length (function_code_ w) /\
  length (code_space w') = length (code_space w) /\
  (forall c obj', code_space w' !! c = Some obj' ->
     exists obj, code_space w !! c = Some obj /\ same_but_targets obj obj') /\
  (forall c, ~ is_function_code w c -> code_space w' !! c = code_space w !! c).
Proof.
  unfold Link. intros Hrun.
  destruct (Link_from_frame _ _ _ _ _ Hrun) as ((F & P & _) & Hfl & Hlen & Hobj & Hun).
  split; [done|]. split; [done|]. split; [done|]. split; [done|]. split; [done|].
  intros c Hc. apply Hun. intros j _ Hj. apply Hc. by exists j.
Qed.

End LinkFrame.

Lemma Link_changes_only_targets_sample :
  exists w' flushed,
    Link (H := sample_modes) sample_session_world = Some (w', flushed) /\
    function_code_ w' = [Some 2%nat; Some 3%nat; Some 4%nat] /\
    length flushed = 3%nat /\ length (code_space w') = 5%nat.
Proof.
  destruct (Link (H := sample_modes) sample_session_world) as [[w' flushed]|] eqn:E;
    [|vm_compute in E; discriminate E].
  exists w', flushed. split; [reflexivity|].
  destruct (Link_changes_only_targets (H := sample_modes) _ _ _ E) as (F & _ & Hfl & Hlen & _).
  rewrite F, Hfl, Hlen. repeat split.
Defined.

(** *** Link as a map over relocations *)

Section LinkRedirects.
Context `{RelocModes}.

Lemma redirected_idem w r :
  finished_code_is_real w -> redirected w (redirected w r) = redirected w r.
Proof.
  intros Hwf. unfold redirected at 2 3.
  destruct (link_target w r) as [[r' p]|] eqn:E.
  - pose proof (link_target_stable _ _ _ _ Hwf E) as Hst. unfold stable in Hst.
    unfold redirected. by rewrite Hst.
  - unfold redirected. by rewrite E.
Qed.

Lemma Link_from_redirects n : forall i w w' flushed,
  finished_code_is_real w ->
  Link_from i n w = Some (w', flushed) ->
  forall c,
    (relocs_of w' c = map (redirected w) <$> relocs_of w c \/
     code_space w' !! c = code_space w !! c) /\
    ((exists j, (i <= j < i + n)%nat /\ function_code_ w !! j = Some (Some c)) ->
     relocs_of w' c = map (redirected w) <$> relocs_of w c).
Proof.
  induction n as [|n IH]; intros i w w' flushed Hwf Hrun c; cbn [Link_from] in Hrun.
  - simplify_eq. split; [by right|]. intros (j & Hj & _). lia.
  - destruct (function_code_ w !! i) as [h|] eqn:Hh; cbn in Hrun; [|done].
    destruct (LinkFunction h w) as [[w1 m]|] eqn:Hlf; cbn in Hrun; [|done].
    destruct (Link_from (S i) n w1) as [[w2 ms]|] eqn:Hrest; cbn in Hrun; [|done].
    simplify_eq. destruct h as [c0|]; [|done].
    destruct (LinkFunction_frame _ _ _ _ Hlf) as (Hs1 & Hne1 & Hlen1 & relocs & Hr & Hr1).
    pose proof (finished_code_is_real_static _ _ Hs1 Hwf) as Hwf1.
    destruct (IH _ _ _ _ Hwf1 Hrest c) as (Hor & Hin).
    assert (Hred : forall o : option (list RelocInfo),
              map (redirected w1) <$> o = map (redirected w) <$> o).
    { intros [l|]; cbn; [|done]. f_equal. apply map_ext. intros r. by apply redirected_static. }
    rewrite Hred in Hor, Hin.
    assert (HA : map (redirected w) <$> relocs_of w1 c = map (redirected w) <$> relocs_of w c).
    { destruct (decide (c = c0)) as [->|Hc].
      - rewrite Hr, Hr1. cbn. f_equal. rewrite map_map. apply map_ext.
        intros r. by apply redirected_idem.
      - unfold relocs_of. by rewrite Hne1. }
    assert (HB : c = c0 -> relocs_of w1 c = map (redirected w) <$> relocs_of w c).
    { intros ->. by rewrite Hr, Hr1. }
    split.
    + destruct Hor as [Hor|Hor].
      * left. by rewrite Hor.
      * destruct (decide (c = c0)) as [Hc|Hc].
        -- left. unfold relocs_of at 1. rewrite Hor. by apply HB.
        -- right. by rewrite Hor, Hne1.
    + intros (j & Hj & Hf). destruct (decide (j = i)) as [->|Hji].
      * assert (c = c0) as Hc by congruence.
        destruct Hor as [Hor|Hor]; [by rewrite Hor|].
        unfold relocs_of at 1. rewrite Hor. by apply HB.
      * rewrite Hin; [done|]. exists j. split; [lia|].
        destruct Hs1 as (F & _). by rewrite F.
Qed.

(** X9: when the code handed to Finish is real code, Link rewrites the
    relocations of every function's code object pointwise: each relocation
    becomes what the loop body of LinkFunction makes of it in the world Link
    started from (a direct call to a placeholder goes to the code in the
    function table, everything else stays), however often the code object
    occurs in the table; code objects outside the table are unchanged. *)
Theorem Link_redirects (w w' : World) (flushed : list bool) :
  finished_code_is_real w ->
  Link w = Some (w', flushed) ->
  forall c,
    (is_function_code w c -> relocs_of w' c = map (redirected w) <$> relocs_of w c) /\
    (~ is_function_code w c -> code_space w' !! c = code_space w !! c).
Proof.
  unfold Link. intros Hwf Hrun c. split.
  - intros (j & Hj). apply (Link_from_redirects _ _ _ _ _ Hwf Hrun c).
    exists j. split; [|done]. pose proof (lookup_lt_Some _ _ _ Hj). lia.
  - intros Hc. destruct (Link_from_frame _ _ _ _ _ Hrun) as (_ & _ & _ & _ & Hun).
    apply Hun. intros j _ Hj. apply Hc. by exists j.
Qed.

End LinkRedirects.

(** *** Sessions keep the linker consistent *)

Lemma linker_inv_new size : linker_inv (new_WasmLinker [] size).
Proof.
  unfold linker_inv, new_WasmLinker. cbn [code_space placeholder_code_ function_code_].
  split; [by rewrite !length_replicate|].
  split; [intros a obj Ha; by rewrite lookup_nil in Ha|].
  split; [intros a obj Ha; by rewrite lookup_nil in Ha|].
  split; [apply new_WasmLinker_real|].
  split; intros i a Hi; apply lookup_replicate in Hi as [[=] _].
Qed.

Lemma is_placeholder_placeholder_object index :
  0 <= index -> index + kPlaceholderMarker < 2 ^ 31 ->
  is_placeholder (placeholder_object index) = true /\
  constant_pool_offset (placeholder_object index) = index + kPlaceholderMarker.
Proof.
  intros Hi Hfit. unfold placeholder_object, is_placeholder. cbn [kind constant_pool_offset].
  rewrite int32_uint32_small by (unfold kPlaceholderMarker in *; lia).
  split; [unfold kPlaceholderMarker; lia|done].
Qed.

Lemma Forall_target_weaken (relocs : list RelocInfo) (n m : nat) :
  (n <= m)%nat ->
  Forall (fun r => (target_address r < n)%nat) relocs ->
  Forall (fun r => (target_address r < m)%nat) relocs.
Proof.
  intros Hnm Hall. eapply Forall_impl; [exact Hall|]. intros r Hr. cbn in Hr. lia.
Qed.

Lemma linker_inv_RequestCode index w w1 :
  linker_inv w -> 0 <= index -> index + kPlaceholderMarker < 2 ^ 31 ->
  run_step (RequestCode index) w = Some w1 -> linker_inv w1.
Proof.
  intros Hinv Hi Hfit Hrun. cbn [run_step] in Hrun.
  destruct (GetFunctionCode index w) as [[h w']|] eqn:Hg; cbn in Hrun; [|done]. simplify_eq.
  pose proof Hinv as (I1 & I2 & I3 & I4 & I5 & I6).
  pose proof (GetFunctionCode_real _ _ _ _ I1 I4 Hg) as I4'.
  unfold GetFunctionCode in Hg.
  destruct (function_code_ w !! Z.to_nat index) as [[code|]|] eqn:E; simplify_eq/=; [done|].
  pose proof (lookup_lt_Some _ _ _ E) as Hlt.
  destruct (is_placeholder_placeholder_object index Hi Hfit) as [Hp Hc].
  unfold linker_inv. cbn [code_space placeholder_code_ function_code_].
  split; [by rewrite !length_insert|].
  split.
  { intros a obj Ha Hpl. apply lookup_app_Some in Ha as [Ha|[Hge Ha]].
    - destruct (I2 a obj Ha Hpl) as (i & Hcpo & Hf & Hph).
      exists i. split; [done|]. split; [done|].
      rewrite list_lookup_insert_ne; [done|]. intros <-.
      destruct (I5 _ _ Hph) as (c & Hc'). congruence.
    - apply list_lookup_singleton_Some in Ha as [Ha <-].
      exists (Z.to_nat index). rewrite Z2Nat.id by lia. split; [done|]. split; [done|].
      rewrite list_lookup_insert_eq by lia. do 2 f_equal. lia. }
  split.
  { intros a obj Ha. rewrite length_app. cbn [length].
    apply lookup_app_Some in Ha as [Ha|[Hge Ha]].
    - eapply Forall_target_weaken; [|exact (I3 a obj Ha)]. lia.
    - apply list_lookup_singleton_Some in Ha as [Ha <-]. constructor. }
  split; [exact I4'|].
  split.
  { intros i a Hph. destruct (decide (i = Z.to_nat index)) as [->|Hne].
    - rewrite list_lookup_insert_eq by done. eauto.
    - rewrite list_lookup_insert_ne in Hph by done.
      rewrite list_lookup_insert_ne by done. eauto. }
  intros i c Hf. rewrite length_app. cbn [length].
  destruct (decide (i = Z.to_nat index)) as [->|Hne].
  - rewrite list_lookup_insert_eq in Hf by done. simplify_eq. lia.
  - rewrite list_lookup_insert_ne in Hf by done. pose proof (I6 _ _ Hf). lia.
Qed.

Lemma linker_inv_Generate obj w :
  linker_inv w -> is_placeholder obj = false ->
  Forall (fun r => (target_address r <= length (code_space w))%nat) (relocation_info obj) ->
  linker_inv (NewCode obj w).2.
Proof.
  intros (I1 & I2 & I3 & I4 & I5 & I6) Hreal Hrel.
  unfold linker_inv. cbn [NewCode snd code_space placeholder_code_ function_code_].
  split; [done|].
  split.
  { intros a o Ha Hpl. apply lookup_app_Some in Ha as [Ha|[Hge Ha]]; [eauto|].
    apply list_lookup_singleton_Some in Ha as [Ha <-]. congruence. }
  split.
  { intros a o Ha. rewrite length_app. cbn [length].
    apply lookup_app_Some in Ha as [Ha|[Hge Ha]].
    - eapply Forall_target_weaken; [|exact (I3 a o Ha)]. lia.
    - apply list_lookup_singleton_Some in Ha as [Ha <-].
      eapply Forall_impl; [exact Hrel|]. intros r Hr. cbn in Hr. lia. }
  split; [by apply (NewCode_real obj w)|].
  split; [done|].
  intros i c Hf. rewrite length_app. cbn [length]. pose proof (I6 _ _ Hf). lia.
Qed.

Lemma linker_inv_FinishFunction index c obj w w1 :
  linker_inv w -> code_space w !! c = Some obj -> is_placeholder obj = false ->
  Finish index (Some c) w = Some w1 -> linker_inv w1.
Proof.
  intros (I1 & I2 & I3 & I4 & I5 & I6) Hobj Hreal Hrun.
  pose proof (Finish_real _ _ _ _ _ I4 Hobj Hreal Hrun) as I4'.
  unfold Finish in Hrun. case_decide; simplify_eq/=.
  unfold linker_inv. cbn [code_space placeholder_code_ function_code_].
  split; [by rewrite length_insert|].
  split; [done|]. split; [done|]. split; [exact I4'|].
  split.
  { intros i a Hph. destruct (decide (i = Z.to_nat index)) as [->|Hne].
    - rewrite list_lookup_insert_eq by done. eauto.
    - rewrite list_lookup_insert_ne by done. eauto. }
  intros i c' Hf. destruct (decide (i = Z.to_nat index)) as [->|Hne].
  - rewrite list_lookup_insert_eq in Hf by done. simplify_eq.
    by apply lookup_lt_Some in Hobj.
  - rewrite list_lookup_insert_ne in Hf by done. eauto.
Qed.

Lemma linker_inv_step w s w1 :
  linker_inv w -> step_allowed w s -> run_step s w = Some w1 -> linker_inv w1.
Proof.
  intros Hinv Hok Hrun. destruct s as [index|obj|index c]; cbn [step_allowed] in Hok.
  - destruct Hok. by eapply linker_inv_RequestCode.
  - destruct Hok. cbn [run_step] in Hrun. simplify_eq. by apply linker_inv_Generate.
  - destruct Hok as (obj & Hobj & Hreal). cbn [run_step] in Hrun.
    by eapply linker_inv_FinishFunction.
Qed.

Lemma session_inv w steps w' : session w steps w' -> linker_inv w -> linker_inv w'.
Proof.
  induction 1 as [|w s w1 steps w2 Hok Hrun _ IH]; [done|].
  intros Hinv. apply IH. by eapply linker_inv_step.
Qed.

Section LinkTotal.
Context `{RelocModes}.

Lemma link_target_defined w (a : nat) obj r :
  linker_inv w -> every_function_has_code w ->
  code_space w !! a = Some obj -> r ∈ relocation_info obj ->
  is_Some (link_target w r).
Proof.
  intros (I1 & I2 & I3 & I4 & I5 & I6) Hall Hobj Hr. unfold link_target.
  destruct (kCodeTargetMask (rmode r) && IsCodeTarget (rmode r)); [|by eexists].
  pose proof (I3 a obj Hobj) as Hin. rewrite Forall_forall in Hin.
  apply Hin, lookup_lt_is_Some in Hr as (target & Ht). rewrite Ht. cbn [mbind option_bind].
  destruct (is_placeholder target) eqn:Hp; [|by eexists].
  destruct (I2 _ _ Ht Hp) as (i & Hcpo & Hfit & Hph).
  rewrite Hcpo. replace (Z.of_nat i + kPlaceholderMarker - kPlaceholderMarker)
    with (Z.of_nat i) by lia.
  unfold uint32. rewrite Z.mod_small by (unfold kPlaceholderMarker in *; lia).
  rewrite Nat2Z.id.
  pose proof (lookup_lt_Some _ _ _ Hph) as Hlt.
  replace (Z.of_nat i <? Z.of_nat (length (function_code_ w))) with true by lia.
  destruct (function_code_ w !! i) as [[nt|]|] eqn:Hf.
  - cbn. case_decide; [by eexists|]. rewrite Hph. cbn. by rewrite decide_True.
  - by destruct (Hall i None Hf).
  - apply lookup_ge_None in Hf. lia.
Qed.

Lemma link_relocs_total code pending : forall visited modified w,
  Forall (fun r => is_Some (link_target w r)) pending ->
  is_Some (link_relocs code visited pending modified w).
Proof.
  induction pending as [|r pending IH]; intros visited modified w Hall; cbn [link_relocs];
    [by eexists|].
  inversion Hall as [|? ? [[r' patched] Hl] Hrest]; subst. rewrite Hl. cbn.
  apply IH. eapply Forall_impl; [exact Hrest|]. intros r0 Hr0. cbn in Hr0.
  destruct patched; [|done].
  by rewrite (link_target_static w (store_relocs w code _) r0 (same_static_store _ _ _)).
Qed.

(** Every function has a code object whose relocations the loop can handle. *)
Lemma Link_from_total n : forall i w,
  finished_code_is_real w ->
  (forall j, (i <= j < i + n)%nat ->
     exists c obj, function_code_ w !! j = Some (Some c) /\ code_space w !! c = Some obj /\
       Forall (fun r => is_Some (link_target w r)) (relocation_info obj)) ->
  is_Some (Link_from i n w).
Proof.
  induction n as [|n IH]; intros i w Hwf Hall; cbn [Link_from]; [by eexists|].
  destruct (Hall i ltac:(lia)) as (c & obj & Hf & Hobj & Hrel).
  rewrite Hf. cbn [mbind option_bind].
  destruct (LinkFunction (Some c) w) as [[w1 m]|] eqn:Hlf.
  2:{ unfold LinkFunction in Hlf. cbn [mbind option_bind] in Hlf. rewrite Hobj in Hlf.
      cbn [mbind option_bind] in Hlf.
      destruct (link_relocs_total c (relocation_info obj) [] false w Hrel) as (x & Hx).
      congruence. }
  cbn [mbind option_bind].
  destruct (LinkFunction_frame _ _ _ _ Hlf) as (Hs1 & Hne1 & Hlen1 & relocs & Hr & Hr1).
  destruct (IH (S i) w1) as ([w2 ms] & Hrest).
  - by apply (finished_code_is_real_static w w1).
  - intros j Hj. destruct (Hall j ltac:(lia)) as (cj & objj & Hfj & Hobjj & Hrelj).
    destruct Hs1 as (F & P & Mk). rewrite F. exists cj.
    destruct (decide (cj = c)) as [->|Hc].
    + unfold relocs_of in Hr, Hr1. rewrite Hobj in Hr.
      destruct (code_space w1 !! c) as [obj1|] eqn:Hobj1; [|done]. simplify_eq/=.
      exists obj1. split; [done|]. split; [done|]. rewrite Hr1.
      apply Forall_fmap, Forall_forall. intros r Hin. cbn.
      rewrite (link_target_static w w1) by (by repeat split).
      rewrite Forall_forall in Hrel. destruct (Hrel r Hin) as ([r' p] & Hl).
      rewrite (link_target_redirected _ _ _ _ Hl).
      pose proof (link_target_stable _ _ _ _ Hwf Hl) as Hst. by eexists.
    + exists objj. rewrite Hne1 by done. split; [done|]. split; [done|].
      eapply Forall_impl; [exact Hrelj|]. intros r Hr0. cbn in Hr0 |- *.
      by rewrite (link_target_static w w1) by (by repeat split).
  - rewrite Hrest. by eexists.
Qed.

Lemma Link_from_needs_code n : forall i w,
  is_Some (Link_from i n w) ->
  forall j h, (i <= j < i + n)%nat -> function_code_ w !! j = Some h -> h <> None.
Proof.
  induction n as [|n IH]; intros i w [x Hrun] j h Hj Hf; [lia|].
  cbn [Link_from] in Hrun.
  destruct (function_code_ w !! i) as [hi|] eqn:Hh; cbn in Hrun; [|done].
  destruct (LinkFunction hi w) as [[w1 m]|] eqn:Hlf; cbn in Hrun; [|done].
  destruct (Link_from (S i) n w1) as [[w2 ms]|] eqn:Hrest; cbn in Hrun; [|done].
  destruct hi as [c|]; [|done].
  destruct (decide (j = i)) as [->|Hne]; [congruence|].
  destruct (LinkFunction_frame _ _ _ _ Hlf) as ((F & _) & _).
  apply (IH (S i) w1 ltac:(by eexists) j h); [lia|by rewrite F].
Qed.

(** X10: after any compilation session on a fresh linker (code of callees
    requested in any order, code generated with relocations to existing code
    objects, functions finished with generated code), Link runs to its end
    exactly when every function was requested or finished; a function that
    never got code stops it. *)
Theorem session_links (size : nat) (steps : list Step) (w : World) :
  session (new_WasmLinker [] size) steps w ->
  length (function_code_ w) = size /\
  (every_function_has_code w <-> is_Some (Link w)).
Proof.
  intros Hs. pose proof (session_inv _ _ _ Hs (linker_inv_new size)) as Hinv.
  split.
  { clear Hinv. remember (new_WasmLinker [] size) as w0 eqn:E.
    assert (length (function_code_ w0) = size) as Hlen
      by (subst w0; apply length_replicate).
    clear E. induction Hs as [|w0 s w1 steps w2 Hok Hrun _ IH]; [done|]. apply IH.
    destruct s as [index|obj|index c]; cbn [run_step] in Hrun.
    - unfold GetFunctionCode in Hrun.
      destruct (function_code_ w0 !! Z.to_nat index) as [[code|]|]; simplify_eq/=; [done|].
      by rewrite length_insert.
    - by simplify_eq.
    - unfold Finish in Hrun. case_decide; simplify_eq/=. by rewrite length_insert. }
  split.
  - intros Hall. unfold Link. pose proof Hinv as (I1 & I2 & I3 & I4 & I5 & I6).
    apply Link_from_total; [done|]. intros j Hj.
    destruct (function_code_ w !! j) as [[c|]|] eqn:Hf.
    + pose proof (I6 _ _ Hf) as Hlt. apply lookup_lt_is_Some in Hlt as (obj & Hobj).
      exists c, obj. split; [done|]. split; [done|].
      apply Forall_forall. intros r Hr. by eapply link_target_defined.
    + by destruct (Hall j None Hf).
    + apply lookup_ge_None in Hf. lia.
  - intros Hl i h Hf. unfold Link in Hl.
    apply (Link_from_needs_code _ _ _ Hl i h); [|done].
    pose proof (lookup_lt_Some _ _ _ Hf). lia.
Qed.

End LinkTotal.

Lemma sample_session_runs : session (new_WasmLinker [] 3) sample_session sample_session_world.
Proof.
  unfold sample_session.
  eapply session_step; [cbn; unfold kPlaceholderMarker; lia|vm_compute; reflexivity|].
  eapply session_step; [cbn; unfold kPlaceholderMarker; lia|vm_compute; reflexivity|].
  eapply session_step;
    [split; [reflexivity|repeat constructor; cbn; lia]|vm_compute; reflexivity|].
  eapply session_step;
    [eexists; split; [vm_compute; reflexivity|reflexivity]|vm_compute; reflexivity|].
  eapply session_step;
    [split; [reflexivity|repeat constructor; cbn; lia]|vm_compute; reflexivity|].
  eapply session_step;
    [eexists; split; [vm_compute; reflexivity|reflexivity]|vm_compute; reflexivity|].
  eapply session_step;
    [split; [reflexivity|repeat constructor; cbn; lia]|vm_compute; reflexivity|].
  eapply session_step;
    [eexists; split; [vm_compute; reflexivity|reflexivity]|vm_compute; reflexivity|].
  apply session_done.
Qed.

Lemma Link_redirects_sample :
  exists w' flushed,
    Link (H := sample_modes) sample_session_world = Some (w', flushed) /\
    relocs_of sample_session_world 2 = Some [mkReloc 0 0; mkReloc 0 1; mkReloc 7 0] /\
    relocs_of w' 2 = Some [mkReloc 0 3; mkReloc 0 4; mkReloc 7 0] /\
    code_space w' !! 0%nat = code_space sample_session_world !! 0%nat.
Proof.
  destruct (Link (H := sample_modes) sample_session_world) as [[w' flushed]|] eqn:E;
    [|vm_compute in E; discriminate E].
  exists w', flushed. split; [reflexivity|]. split; [reflexivity|].
  pose proof (session_inv _ _ _ sample_session_runs (linker_inv_new 3))
    as (_ & _ & _ & Hwf & _).
  split.
  - destruct (Link_redirects (H := sample_modes) _ _ _ Hwf E 2%nat) as [Hin _].
    rewrite Hin; [vm_compute; reflexivity|]. exists 0%nat. reflexivity.
  - destruct (Link_redirects (H := sample_modes) _ _ _ Hwf E 0%nat) as [_ Hout].
    apply Hout. intros (i & Hi). vm_compute in Hi.
    destruct i as [|[|[|i]]]; discriminate Hi.
Defined.

Lemma session_links_sample :
  length (function_code_ sample_session_world) = 3%nat /\
  every_function_has_code sample_session_world /\
  is_Some (Link (H := sample_modes) sample_session_world).
Proof.
  destruct (session_links (H := sample_modes) 3 _ _ sample_session_runs) as [Hlen [Hto _]].
  split; [exact Hlen|].
  assert (Hall : every_function_has_code sample_session_world).
  { intros i h Hf. vm_compute in Hf. destruct i as [|[|[|i]]]; simplify_eq; discriminate. }
  split; [exact Hall|]. exact (Hto Hall).
Defined.

End LinkerSessionFacts.


(** ** The size of the globals area *)

Module GlobalsAreaFacts.
Import Wasm Globals GlobalsArea GlobalsFacts.

Lemma assign_offsets_sizes gs : forall o,
  0 <= o -> o + sizes_sum gs <= fst (assign_offsets o gs).
Proof.
  induction gs as [|g gs IH]; intros o Ho; cbn [assign_offsets sizes_sum foldr]; [simpl; lia|].
  destruct (assign_offsets _ gs) as [f r] eqn:Er. cbn [fst].
  pose proof (MemSize_range (type g)) as Hr.
  pose proof (round_up_bounds o (MemSize (type g)) ltac:(lia)) as Hb.
  specialize (IH (round_up o (MemSize (type g)) + MemSize (type g)) ltac:(lia)).
  rewrite Er in IH. cbn [fst] in IH. fold (sizes_sum gs). lia.
Qed.

(** The last global ends where the running offset stops. *)
Lemma assign_offsets_last gs : forall o final gs',
  assign_offsets o gs = (final, gs') ->
  match last gs' with
  | Some g => global_end g = final
  | None => final = o
  end.
Proof.
  induction gs as [|g gs IH]; intros o final gs' E; cbn [assign_offsets] in E.
  - by simplify_eq.
  - destruct (assign_offsets _ gs) as [f r] eqn:Er. simplify_eq.
    specialize (IH _ _ _ Er). destruct r as [|g1 r].
    + cbn in *. unfold global_end. cbn. lia.
    + rewrite last_cons_cons.
      destruct (last (g1 :: r)) as [gl|] eqn:El; [exact IH|]. by apply last_None in El.
Qed.

(** X11: the two ways of sizing the globals area agree.  The offset that
    AllocateGlobalsOffsets returns (used by CompileAndRunWasmModule) is what
    ComputeGlobalsSize computes from the assigned offsets (used by
    Instantiate); it is at least the sum of the globals' sizes and at most
    eight bytes per global. *)
Theorem globals_area_size (gs gs' : list WasmGlobal) (final : Z) :
  8 * Z.of_nat (length gs) < 2 ^ 32 ->
  AllocateGlobalsOffsets (Some gs) = (final, Some gs') ->
  ComputeGlobalsSize (Some gs') = final /\
  sizes_sum gs <= final <= 8 * Z.of_nat (length gs).
Proof.
  intros Hb E. unfold AllocateGlobalsOffsets in E.
  rewrite allocate_from_zero in E by done.
  destruct (assign_offsets 0 gs) as [f r] eqn:Er. simplify_eq.
  pose proof (assign_offsets_final_bound gs 0 ltac:(lia)) as Hfb. rewrite Er in Hfb; simpl in Hfb.
  destruct (round_up_0 8) as [R0|]; [rewrite R0 in Hfb|lia].
  pose proof (assign_offsets_layout gs 0 final gs' ltac:(lia) Er) as (Hf & Hlen & Hall & Hord).
  pose proof (round_up_bounds final 8 ltac:(lia)) as Hrf.
  pose proof (assign_offsets_sizes gs 0 ltac:(lia)) as Hsum. rewrite Er in Hsum. cbn [fst] in Hsum.
  split; [|lia].
  assert (Hsmall : forall (i : nat) g, gs' !! i = Some g -> uint32 (global_end g) = global_end g).
  { intros i g Hg. destruct (Hall _ _ Hg) as (_ & ? & ?).
    pose proof (MemSize_range (type g)). apply uint32_small. unfold global_end in *. lia. }
  destruct (size_fold_max gs' 0) as (_ & Hcov & Hatt).
  pose proof (assign_offsets_last _ _ _ _ Er) as Hlast.
  unfold ComputeGlobalsSize. apply Z.le_antisymm.
  - destruct Hatt as [->|(i & g & Hg & ->)]; [lia|].
    rewrite (Hsmall _ _ Hg). by destruct (Hall _ _ Hg) as (_ & _ & ?).
  - destruct (last gs') as [g|] eqn:El.
    + rewrite last_lookup in El. rewrite <- Hlast, <- (Hsmall _ _ El). eauto.
    + subst final. destruct (size_fold_max gs' 0) as (? & _). lia.
Qed.

Lemma globals_area_size_sample :
  AllocateGlobalsOffsets (Some sample_globals) =
    (24, Some [mkGlobal 0 kMemI8 0 false; mkGlobal 0 kMemI32 4 false;
               mkGlobal 0 kMemU16 8 false; mkGlobal 0 kMemF64 16 false]) /\
  ComputeGlobalsSize (Some [mkGlobal 0 kMemI8 0 false; mkGlobal 0 kMemI32 4 false;
                            mkGlobal 0 kMemU16 8 false; mkGlobal 0 kMemF64 16 false]) = 24 /\
  sizes_sum sample_globals = 15.
Proof.
  assert (E : AllocateGlobalsOffsets (Some sample_globals) =
    (24, Some [mkGlobal 0 kMemI8 0 false; mkGlobal 0 kMemI32 4 false;
               mkGlobal 0 kMemU16 8 false; mkGlobal 0 kMemF64 16 false]))
    by (vm_compute; reflexivity).
  split; [exact E|].
  destruct (globals_area_size sample_globals _ 24 ltac:(vm_compute; reflexivity) E) as [Hc _].
  split; [exact Hc|]. vm_compute. reflexivity.
Defined.

Lemma allocate_loop_ignores_offsets gs : forall o final gs',
  allocate_loop o gs = (final, gs') ->
  allocate_loop o gs' = (final, gs') /\ same_but_offsets gs gs'.
Proof.
  induction gs as [|g gs IH]; intros o final gs' E; cbn [allocate_loop] in E.
  - by simplify_eq.
  - destruct (allocate_loop _ gs) as [f r] eqn:Er. simplify_eq.
    destruct (IH _ _ _ Er) as [IH1 IH2].
    cbn [allocate_loop set_offset type]. rewrite IH1.
    split; [reflexivity|]. unfold same_but_offsets in *. cbn [map]. by rewrite IH2.
Qed.

(** X12: AllocateGlobalsOffsets writes the offsets and nothing else, and
    does not read the offsets it finds: names, types and export flags stay,
    and running it again on its own result gives the same result. *)
Theorem AllocateGlobalsOffsets_idempotent (gs gs' : list WasmGlobal) (final : Z) :
  AllocateGlobalsOffsets (Some gs) = (final, Some gs') ->
  AllocateGlobalsOffsets (Some gs') = (final, Some gs') /\
  same_but_offsets gs gs' /\
  AllocateGlobalsOffsets (Some (map (fun g => set_offset g 0) gs)) = (final, Some gs').
Proof.
  unfold AllocateGlobalsOffsets. intros E.
  destruct (allocate_loop 0 gs) as [f r] eqn:Er. simplify_eq.
  destruct (allocate_loop_ignores_offsets _ _ _ _ Er) as [E1 E2].
  rewrite E1. split; [done|]. split; [done|].
  assert (Hsame : forall l o, allocate_loop o (map (fun g => set_offset g 0) l)
                              = allocate_loop o l).
  { clear. induction l as [|g l IH]; intros o; cbn [map allocate_loop]; [done|].
    cbn [set_offset type]. by rewrite IH. }
  by rewrite Hsame, Er.
Qed.

Lemma AllocateGlobalsOffsets_idempotent_sample :
  AllocateGlobalsOffsets (Some stale_globals) =
    (18, Some [mkGlobal 14 kMemI8 0 true; mkGlobal 0 kMemF64 8 false;
               mkGlobal 9 kMemI16 16 false]) /\
  AllocateGlobalsOffsets
    (Some [mkGlobal 14 kMemI8 0 true; mkGlobal 0 kMemF64 8 false;
           mkGlobal 9 kMemI16 16 false]) =
    (18, Some [mkGlobal 14 kMemI8 0 true; mkGlobal 0 kMemF64 8 false;
               mkGlobal 9 kMemI16 16 false]).
Proof.
  assert (E : AllocateGlobalsOffsets (Some stale_globals) =
    (18, Some [mkGlobal 14 kMemI8 0 true; mkGlobal 0 kMemF64 8 false;
               mkGlobal 9 kMemI16 16 false])) by (vm_compute; reflexivity).
  split; [exact E|]. exact (proj1 (AllocateGlobalsOffsets_idempotent _ _ _ E)).
Defined.

Lemma AddGlobals_bound ts : forall m m',
  AddGlobals ts m = Some m' -> ts = [] \/ global_offset m' < kMaxGlobalsSize.
Proof.
  induction ts as [|t ts IH]; intros m m' Hrun; [by left|right].
  cbn [AddGlobals] in Hrun. unfold AddGlobal in Hrun.
  destruct (Z.ltb_spec (uint32 (align (global_offset m) (MemSize t) + MemSize t))
              kMaxGlobalsSize) as [Hlt|Hge]; cbn in Hrun; [|done].
  destruct (IH _ _ Hrun) as [->|Hb]; [|done].
  cbn [AddGlobals] in Hrun. by simplify_eq.
Qed.

Lemma AddGlobals_none ts : forall m,
  0 <= global_offset m ->
  round_up (global_offset m) 8 + 8 * Z.of_nat (length ts) < 2 ^ 32 ->
  AddGlobals ts m = None ->
  kMaxGlobalsSize <= fst (allocate_loop (global_offset m) (map declare ts)).
Proof.
  induction ts as [|t ts IH]; intros m Ho Hb Hrun; [done|].
  cbn [AddGlobals] in Hrun. unfold AddGlobal in Hrun.
  cbn [map allocate_loop declare type length] in *.
  pose proof (MemSize_range t) as Hr.
  pose proof (round_up_bounds (global_offset m) (MemSize t) ltac:(lia)) as Hrb.
  pose proof (round_up_bounds (global_offset m) 8 ltac:(lia)) as Hr8.
  pose proof (round_up_step (global_offset m) t Ho) as [Hlt Hstep]. cbv zeta in Hlt, Hstep.
  rewrite align_round_up in * by lia.
  set (o1 := round_up (global_offset m) (MemSize t) + MemSize t) in *.
  pose proof (round_up_bounds o1 8 ltac:(lia)) as Hr1.
  rewrite (uint32_small o1) in * by lia.
  destruct (allocate_loop o1 (map declare ts)) as [f r] eqn:Er. cbn [fst].
  assert (Hf : o1 <= f).
  { rewrite allocate_loop_refines in Er by (rewrite ?length_map; lia).
    assert (0 <= o1) as Ho1 by lia.
    by destruct (assign_offsets_layout _ _ _ _ Ho1 Er) as (? & _). }
  destruct (Z.ltb_spec o1 kMaxGlobalsSize) as [Hlt'|Hge]; cbn in Hrun; [|lia].
  apply IH in Hrun; [|cbn [global_offset]; lia..]. cbn [global_offset] in Hrun.
  fold o1 in Hrun. rewrite Er in Hrun. exact Hrun.
Qed.

(** X13: the test harness and the module code lay globals out alike.  When
    AddGlobal accepts every global of a test, the offsets and the running
    offset it ends with are those AllocateGlobalsOffsets assigns to the same
    types, and that offset is below kMaxGlobalsSize; when the harness aborts,
    the area AllocateGlobalsOffsets computes is not below kMaxGlobalsSize. *)
Theorem AddGlobals_agrees (mem_types : list MemType) :
  8 * Z.of_nat (length mem_types) < 2 ^ 32 ->
  match AddGlobals mem_types empty_TestingModule with
  | Some m =>
      AllocateGlobalsOffsets (Some (map declare mem_types))
        = (global_offset m, Some (tm_globals m)) /\
      (mem_types = [] \/ global_offset m < kMaxGlobalsSize)
  | None =>
      kMaxGlobalsSize <= fst (AllocateGlobalsOffsets (Some (map declare mem_types)))
  end.
Proof.
  intros Hb. destruct (AddGlobals mem_types empty_TestingModule) as [m|] eqn:E.
  - split; [|by eapply AddGlobals_bound].
    destruct (AddGlobals_allocate _ _ _ E) as (gs' & Hgs & Hloop).
    cbn in Hgs, Hloop. unfold AllocateGlobalsOffsets. by rewrite Hloop, Hgs.
  - unfold AllocateGlobalsOffsets.
    pose proof (AddGlobals_none mem_types empty_TestingModule) as Hn.
    cbn [empty_TestingModule global_offset] in Hn.
    destruct (round_up_0 8) as [R0|]; [|lia].
    specialize (Hn ltac:(lia) ltac:(lia) E).
    by destruct (allocate_loop 0 (map declare mem_types)).
Qed.

Lemma AddGlobals_agrees_sample :
  (global_offset <$> AddGlobals sample_types empty_TestingModule) = Some 24 /\
  AllocateGlobalsOffsets (Some (map declare sample_types)) =
    (24, tm_globals <$> AddGlobals sample_types empty_TestingModule) /\
  AddGlobals (replicate 16 kMemF64) empty_TestingModule = None /\
  128 <= fst (AllocateGlobalsOffsets (Some (map declare (replicate 16 kMemF64)))).
Proof.
  pose proof (AddGlobals_agrees sample_types ltac:(vm_compute; reflexivity)) as H1.
  pose proof (AddGlobals_agrees (replicate 16 kMemF64) ltac:(vm_compute; reflexivity)) as H2.
  destruct (AddGlobals sample_types empty_TestingModule) as [m|] eqn:E1;
    [|vm_compute in E1; discriminate E1].
  destruct (AddGlobals (replicate 16 kMemF64) empty_TestingModule) as [m2|] eqn:E2;
    [vm_compute in E2; discriminate E2|].
  destruct H1 as [H1 _]. rewrite H1.
  assert (global_offset m = 24) as Hm
    by (clear H1 H2 E2; vm_compute in E1; injection E1 as <-; reflexivity).
  cbn [fmap option_fmap option_map]. rewrite Hm.
  split; [reflexivity|]. split; [reflexivity|]. split; [reflexivity|]. exact H2.
Defined.

End GlobalsAreaFacts.


(** ** The memory after the data segments are loaded *)

Module DataSegmentsMemoryFacts.
Import Wasm DataSegments DataSegmentsMemory DataSegmentsFacts.

(** X14: for a memory of at most 2^31 bytes and 32-bit segment fields,
    LoadDataSegments returns (no CHECK fails) exactly when every initialised
    segment ends strictly below [mem_size]; segments that are not
    initialised are never checked. *)
Theorem LoadDataSegments_passes_iff (module_bytes : list byte)
    (segments : list WasmDataSegment) (mem : list byte) (mem_size : Z) :
  mem_size <= 2 ^ 31 ->
  Forall uint32_fields segments ->
  is_Passed (LoadDataSegments module_bytes segments mem mem_size) = true <->
  Forall (fun s => init s = true -> dest_addr s + source_size s < mem_size) segments.
Proof.
  intros Hm Hf. rewrite LoadDataSegments_passes.
  induction Hf as [|s segs (Hd & Hs & Hn) Hf IH]; cbn [forallb].
  - split; [constructor|done].
  - rewrite andb_true_iff, Forall_cons, IH.
    assert (segment_passes mem_size s = true <->
            (init s = true -> dest_addr s + source_size s < mem_size)) as ->; [|done].
    destruct (init s) eqn:Hi.
    + rewrite (segment_passes_iff mem_size s Hi) by lia. by intuition.
    + unfold segment_passes. rewrite Hi. cbn. split; [discriminate|done].
Qed.

Lemma LoadDataSegments_passes_iff_sample :
  is_Passed (LoadDataSegments sample_module_bytes overlapping_segments zero_memory 16) = true /\
  is_Passed (LoadDataSegments sample_module_bytes [exact_fit_segment] zero_memory 16) = false.
Proof.
  split.
  - apply (LoadDataSegments_passes_iff sample_module_bytes overlapping_segments zero_memory 16);
      [lia|repeat constructor; cbn; lia|].
    repeat constructor; cbn; intros; (lia || discriminate).
  - destruct (is_Passed _) eqn:E; [|done]. exfalso.
    apply (LoadDataSegments_passes_iff sample_module_bytes [exact_fit_segment] zero_memory 16)
      in E; [|lia|repeat constructor; cbn; lia].
    inversion E as [|? ? Hs _]; subst. specialize (Hs eq_refl). cbn in Hs. lia.
Defined.

(** X15: when LoadDataSegments returns, the memory has its length and every
    byte of it is the byte of the last initialised segment covering its
    address, taken from the module at the segment's source offset plus the
    distance into the segment, or is unchanged when no initialised segment
    covers it.  (The sources are assumed to lie inside the module bytes, which
    neither the decoder nor LoadDataSegments checks.) *)
Theorem LoadDataSegments_memory (module_bytes : list byte)
    (segments : list WasmDataSegment) (mem mem' : list byte) (mem_size : Z) :
  mem_size = Z.of_nat (length mem) -> mem_size <= 2 ^ 31 ->
  Forall uint32_fields segments ->
  Forall (source_in_module module_bytes) segments ->
  LoadDataSegments module_bytes segments mem mem_size = Passed mem' ->
  length mem' = length mem /\
  forall (a : nat) (before : byte),
    mem !! a = Some before ->
    mem' !! a = Some (loaded_byte module_bytes segments (Z.of_nat a) before).
Proof.
  intros Hlen Hm Hf _. revert mem Hlen.
  induction Hf as [|s segs (Hd & Hs & Hn) Hf IH]; intros mem Hlen Hrun;
    cbn [LoadDataSegments] in Hrun.
  - by simplify_eq.
  - cbn [loaded_byte]. unfold covers.
    destruct (init s) eqn:Hi; cbn [negb andb] in Hrun |- *; [|by apply IH].
    destruct (Z.ltb_spec (dest_addr s) mem_size); cbn [negb] in Hrun; [|done].
    destruct (Z.ltb_spec (source_size s) mem_size); cbn [negb] in Hrun; [|done].
    unfold uint32 in Hrun. rewrite Z.mod_small in Hrun by lia.
    destruct (Z.ltb_spec (dest_addr s + source_size s) mem_size); cbn [negb] in Hrun; [|done].
    apply IH in Hrun as [Hl Hb]; [|by rewrite memcpy_length].
    rewrite memcpy_length in Hl. split; [done|].
    intros a before Ha. apply Hb.
    rewrite memcpy_lookup by lia.
    destruct (Z.leb_spec (dest_addr s) (Z.of_nat a)), (Z.ltb_spec (Z.of_nat a) (dest_addr s + source_size s));
      cbn [andb]; case_decide; try lia; done.
Qed.

Lemma LoadDataSegments_memory_sample :
  exists mem',
    LoadDataSegments sample_module_bytes overlapping_segments zero_memory 16 = Passed mem' /\
    mem' = mk_bytes [0; 0; 17; 34; 8; 0; 0; 102; 0; 0; 0; 0; 0; 0; 0; 0]%N /\
    mem' !! 3%nat = Some (loaded_byte sample_module_bytes overlapping_segments 3 Byte.x00).
Proof.
  destruct (LoadDataSegments sample_module_bytes overlapping_segments zero_memory 16)
    as [mem'|] eqn:E; [|vm_compute in E; discriminate E].
  exists mem'. split; [reflexivity|].
  split; [vm_compute in E; by simplify_eq|].
  assert (Hf : Forall uint32_fields overlapping_segments)
    by (repeat constructor; cbn; lia).
  assert (Hsrc : Forall (source_in_module sample_module_bytes) overlapping_segments)
    by (repeat constructor; cbn; intros; (lia || discriminate)).
  destruct (LoadDataSegments_memory sample_module_bytes overlapping_segments zero_memory
              mem' 16 eq_refl ltac:(lia) Hf Hsrc E) as [_ Hb].
  apply (Hb 3%nat Byte.x00). reflexivity.
Defined.

End DataSegmentsMemoryFacts.


(** ** Jumps in the emitter *)

Module AsmWasmJumpsFacts.
Import Wasm AsmWasm AsmWasmJumps AsmWasmFacts.







Section Jumps.
Context `{AstQueries}.


End Jumps.

(** *** The emitter never reads the body *)

Lemma prepend_AddBody c code b : AddBody code (prepend c b) = prepend c (AddBody code b).
Proof. unfold AddBody, prepend. cbn. f_equal. by rewrite app_assoc. Qed.

Lemma prepend_AppendCode c op b : AppendCode op (prepend c b) = prepend c (AppendCode op b).
Proof. apply prepend_AddBody. Qed.

Lemma prepend_AppendByte c v b : AppendByte v (prepend c b) = prepend c (AppendByte v b).
Proof. apply prepend_AddBody. Qed.

Lemma prepend_LookupOrInsertLocal c v t b :
  LookupOrInsertLocal v t (prepend c b)
  = ((LookupOrInsertLocal v t b).1, prepend c (LookupOrInsertLocal v t b).2).
Proof.
  unfold LookupOrInsertLocal. cbn [local_variables_ prepend].
  by destruct (local_variables_ b !! var_id v).
Qed.

Lemma prepend_LookupOrInsertFunction c v b :
  LookupOrInsertFunction v (prepend c b)
  = ((LookupOrInsertFunction v b).1, prepend c (LookupOrInsertFunction v b).2).
Proof.
  unfold LookupOrInsertFunction. cbn [functions_ prepend].
  by destruct (functions_ b !! var_id v).
Qed.

Lemma prepend_VisitVariableProxy c expr var b :
  VisitVariableProxy expr var (prepend c b) = prepend c <$> VisitVariableProxy expr var b.
Proof.
  unfold VisitVariableProxy. cbn [in_function_ marking_exported is_set_op_ prepend].
  destruct (in_function_ b).
  - destruct (is_function var).
    + rewrite prepend_LookupOrInsertFunction.
      destruct (LookupOrInsertFunction var b) as [index b1]. cbn.
      by rewrite prepend_AddBody.
    + assert ((if is_set_op_ b then prepend c b else AppendCode kExprGetLocal (prepend c b))
              = prepend c (if is_set_op_ b then b else AppendCode kExprGetLocal b)) as ->.
      { destruct (is_set_op_ b); [done|apply prepend_AppendCode]. }
      rewrite prepend_LookupOrInsertLocal.
      destruct (LookupOrInsertLocal var (TypeOf expr) _) as [index b1]. cbn.
      by rewrite prepend_AddBody.
  - destruct (marking_exported b); [|done]. destruct (is_function var); [|done].
    rewrite prepend_LookupOrInsertFunction.
    by destruct (LookupOrInsertFunction var b) as [index b1].
Qed.

Lemma prepend_VisitLiteral `{AstQueries} c expr number b :
  VisitLiteral expr number (prepend c b) = prepend c <$> VisitLiteral expr number b.
Proof.
  unfold VisitLiteral. cbn [in_function_ prepend].
  destruct (in_function_ b); [|done]. destruct number; [|done].
  destruct (TypeOf expr); try done; cbn; by rewrite prepend_AddBody.
Qed.

Lemma prepend_BINOP_CASE c table l r b :
  BINOP_CASE table l r (prepend c b) = prepend c <$> BINOP_CASE table l r b.
Proof.
  unfold BINOP_CASE. destruct table as [[opcodes ignore_sign]|]; cbn; [|done].
  destruct (TypeIndexOf2 l r ignore_sign); cbn; [|done].
  destruct (opcodes !! n); cbn; [|done]. by rewrite prepend_AppendCode.
Qed.

Section Prefix.
Context `{AstQueries}.

Lemma prepend_VisitExpression c : forall expr b,
  VisitExpression expr (prepend c b) = prepend c <$> VisitExpression expr b.
Proof.
  fix IH 1. intros expr b. destruct expr; cbn [VisitExpression].
  - apply prepend_VisitVariableProxy.
  - apply prepend_VisitLiteral.
  - rewrite prepend_AppendCode.
    change (set_is_set_op true (prepend c ?x)) with (prepend c (set_is_set_op true x)).
    rewrite IH. destruct (VisitExpression expr1 _) as [b1|]; cbn; [|done].
    change (set_is_set_op false (prepend c b1)) with (prepend c (set_is_set_op false b1)).
    apply IH.
  - destruct op; try done. destruct (TypeIndexOf expr); cbn; [|done].
    rewrite prepend_AppendCode. apply IH.
  - rewrite prepend_BINOP_CASE. destruct (BINOP_CASE _ _ _ b) as [b0|]; cbn; [|done].
    rewrite IH. destruct (VisitExpression expr1 b0) as [b1|]; cbn; [|done]. apply IH.
  - rewrite prepend_BINOP_CASE. destruct (BINOP_CASE _ _ _ b) as [b0|]; cbn; [|done].
    rewrite IH. destruct (VisitExpression expr1 b0) as [b1|]; cbn; [|done]. apply IH.
  - rewrite IH. destruct (VisitExpression expr1 b) as [b0|]; cbn; [|done].
    rewrite IH. destruct (VisitExpression expr2 b0) as [b1|]; cbn; [|done]. apply IH.
  - destruct (GetCallType _); [|done].
    rewrite prepend_AppendCode, IH.
    destruct (VisitExpression expr _) as [b0|]; cbn; [|done].
    revert b0. induction arguments as [|arg args IHargs]; intros b0; [done|].
    rewrite IH. destruct (VisitExpression arg b0) as [b1|]; cbn; [|done]. apply IHargs.
Qed.

Lemma Visit_Block id statements b :
  Visit (Block id statements) b =
  (let b := set_control (block_depth_ b + 1) (breakable_blocks_ b ++ [(id, false)]) b in
   let b := if in_function_ b
            then AppendByte (Z.of_nat (length statements)) (AppendCode kExprBlock b)
            else b in
   b ← VisitStatements_loop statements b;
   Some (set_control (block_depth_ b - 1) (removelast (breakable_blocks_ b)) b)).
Proof. reflexivity. Qed.

Lemma prepend_Visit c : forall stmt b, Visit stmt (prepend c b) = prepend c <$> Visit stmt b.
Proof.
  fix IH 1. intros stmt b. destruct stmt.
  - rewrite !Visit_Block. cbv zeta.
    change (set_control ?d ?l (prepend c b)) with (prepend c (set_control d l b)).
    set (b0 := set_control _ _ b).
    assert ((if in_function_ (prepend c b0)
             then AppendByte (Z.of_nat (length statements)) (AppendCode kExprBlock (prepend c b0))
             else prepend c b0)
            = prepend c (if in_function_ b0
                         then AppendByte (Z.of_nat (length statements)) (AppendCode kExprBlock b0)
                         else b0)) as ->.
    { cbn [in_function_ prepend]. destruct (in_function_ b0); [|done].
      by rewrite prepend_AppendCode, prepend_AppendByte. }
    match goal with |- context [VisitStatements_loop _ (prepend c ?x)] => generalize x end.
    clear b b0. intros b.
    assert (Hloop : forall stmts x,
              VisitStatements_loop stmts (prepend c x) = prepend c <$> VisitStatements_loop stmts x).
    { induction stmts as [|s0 stmts IHs]; intros x; cbn [VisitStatements_loop]; [done|].
      rewrite IH. destruct (Visit s0 x) as [x1|]; cbn; [|done].
      destruct (IsJump s0); [done|apply IHs]. }
    rewrite Hloop. by destruct (VisitStatements_loop statements b).
  - apply prepend_VisitExpression.
  - done.
  - cbn [Visit]. cbv zeta. rewrite prepend_AppendCode, prepend_VisitExpression.
    destruct (VisitExpression condition _) as [b1|]; cbn; [|done].
    destruct (negb (IsEmpty stmt1)).
    + rewrite IH. destruct (Visit stmt1 b1) as [b2|]; cbn; [|done].
      destruct (negb (IsEmpty stmt2)); [apply IH|done].
    + cbn. rewrite prepend_AppendCode.
      destruct (negb (IsEmpty stmt2)); [apply IH|done].
  - cbn [Visit]. cbv zeta. cbn [breakable_blocks_ prepend].
    by rewrite prepend_AppendCode, prepend_AppendByte, prepend_AppendCode.
  - cbn [Visit]. cbv zeta. cbn [breakable_blocks_ prepend].
    by rewrite prepend_AppendCode, prepend_AppendByte, prepend_AppendCode.
  - cbn [Visit]. cbv zeta. cbn [in_function_ block_depth_ prepend].
    assert ((if in_function_ b
             then AppendByte (block_depth_ b) (AppendCode kExprBr (prepend c b))
             else set_marking_exported true (prepend c b))
            = prepend c (if in_function_ b
                         then AppendByte (block_depth_ b) (AppendCode kExprBr b)
                         else set_marking_exported true b)) as ->.
    { destruct (in_function_ b); [|done]. by rewrite prepend_AppendCode, prepend_AppendByte. }
    rewrite prepend_VisitExpression.
    destruct (VisitExpression expression _) as [b1|]; cbn; [|done].
    by destruct (in_function_ b1).
  - cbn [Visit]. cbv zeta. rewrite prepend_AppendCode, prepend_AppendByte.
    change (set_control ?d ?l (prepend c ?x)) with (prepend c (set_control d l x)).
    rewrite prepend_AppendCode, prepend_VisitExpression.
    destruct (VisitExpression cond _) as [b1|]; cbn; [|done].
    rewrite prepend_AppendCode, prepend_AppendByte, IH.
    by destruct (Visit stmt _) as [b2|].
Qed.

End Prefix.

Section DeadCode.
Context `{AstQueries}.

Lemma prepend_VisitStatements_loop c : forall stmts x,
  VisitStatements_loop stmts (prepend c x) = prepend c <$> VisitStatements_loop stmts x.
Proof.
  induction stmts as [|s0 stmts IHs]; intros x; cbn [VisitStatements_loop]; [done|].
  rewrite prepend_Visit. destruct (Visit s0 x) as [x1|]; cbn; [|done].
  destruct (IsJump s0); [done|apply IHs].
Qed.

Lemma loop_stops_at_jump pre j post : forall x,
  IsJump j = true ->
  VisitStatements_loop (pre ++ j :: post) x = VisitStatements_loop (pre ++ [j]) x.
Proof.
  intros x Hj. revert x. induction pre as [|s0 pre IH]; intros x; cbn [app VisitStatements_loop].
  - destruct (Visit j x) as [x1|]; cbn; [|done]. by rewrite Hj.
  - destruct (Visit s0 x) as [x1|]; cbn; [|done]. destruct (IsJump s0); [done|apply IH].
Qed.

(** X18: what is already in the function body has no influence on what an
    expression or a statement emits or on whether it can be emitted: with
    other bytes in front, the visitor does the same and leaves those bytes
    in front. *)
Theorem Visit_ignores_body (c : list CodeByte) (b : AsmWasmBuilderImpl) :
  (forall expr, VisitExpression expr (prepend c b) = prepend c <$> VisitExpression expr b) /\
  (forall stmt, Visit stmt (prepend c b) = prepend c <$> Visit stmt b).
Proof.
  split; [intros expr; apply prepend_VisitExpression|intros stmt; apply prepend_Visit].
Qed.

(** X19: inside a function, the statements of a block after a jump statement
    are never visited: the block emits the same code, declares the same
    locals and fails in the same cases as the block cut after the jump.  Its
    count byte is the one thing that differs, since it still counts the
    statements that were left out. *)
Theorem jump_ends_block (id : nat) (pre : list Statement) (j : Statement)
    (post : list Statement) (b : AsmWasmBuilderImpl) :
  IsJump j = true -> in_function_ b = true ->
  match Visit (Block id (pre ++ [j])) b, Visit (Block id (pre ++ j :: post)) b with
  | Some b1, Some b2 =>
      exists code,
        emitted b b1 = Op kExprBlock :: Imm (Z.of_nat (length pre + 1) mod 256) :: code /\
        emitted b b2
        = Op kExprBlock :: Imm (Z.of_nat (length pre + 1 + length post) mod 256) :: code /\
        declared_vars b1 = declared_vars b2 /\ local_variables_ b1 = local_variables_ b2
  | None, None => True
  | _, _ => False
  end.
Proof.
  intros Hj Hin. rewrite !Visit_Block. cbv zeta.
  change (in_function_ (set_control _ _ b)) with (in_function_ b). rewrite Hin.
  set (base := set_control _ _ b).
  pose (base0 := {| local_variables_ := local_variables_ base; functions_ := functions_ base;
     in_function_ := in_function_ base; is_set_op_ := is_set_op_ base;
     marking_exported := marking_exported base; block_depth_ := block_depth_ base;
     breakable_blocks_ := breakable_blocks_ base; function_count := function_count base;
     exported_functions := exported_functions base; declared_vars := declared_vars base;
     body := [] |}).
  assert (Hstart : forall n, AppendByte n (AppendCode kExprBlock base)
                   = prepend (body b ++ [Op kExprBlock; Imm (n mod 256)]) base0).
  { intros n. unfold AppendByte, AppendCode, AddBody, prepend, base0. cbn. f_equal.
    by rewrite app_nil_r, <- app_assoc. }
  rewrite !Hstart, !prepend_VisitStatements_loop. rewrite (loop_stops_at_jump pre j post) by done.
  destruct (VisitStatements_loop (pre ++ [j]) base0) as [y|]; cbn; [|done].
  exists (body y). unfold emitted. cbn [body set_control prepend].
  rewrite <- !app_assoc, !drop_app_length.
  rewrite !length_app. cbn [length app].
  replace (Z.of_nat (length pre + S (length post))) with (Z.of_nat (length pre + 1 + length post))
    by lia.
  done.
Qed.

End DeadCode.

Lemma jump_ends_block_sample :
  IsJump (AstQueries := sample_queries) return_x = true /\
  in_function_ in_function_body = true /\
  match Visit (H := sample_queries) (Block 3 ([set_x] ++ [return_x])) in_function_body,
        Visit (H := sample_queries) (Block 3 ([set_x] ++ return_x :: [plus_x; set_x]))
          in_function_body with
  | Some b1, Some b2 =>
      exists code,
        emitted in_function_body b1 = Op kExprBlock :: Imm (Z.of_nat (1 + 1) mod 256) :: code /\
        emitted in_function_body b2
        = Op kExprBlock :: Imm (Z.of_nat (1 + 1 + 2) mod 256) :: code /\
        declared_vars b1 = declared_vars b2 /\ local_variables_ b1 = local_variables_ b2
  | None, None => True
  | _, _ => False
  end.
Proof.
  split; [reflexivity|]. split; [reflexivity|].
  exact (jump_ends_block (H := sample_queries) 3 [set_x] return_x [plus_x; set_x]
           in_function_body eq_refl eq_refl).
Defined.

End AsmWasmJumpsFacts.
